(** * Frame sampling and scene-change detection (utils/videoProcessor.ts)

    A shallow embedding of the frame-sampling engine of Auto-Manual-Creator:
    the raster differencer, the scan sampler, the change consolidator, the
    equal-interval generator, the [extractFrames] orchestrator, and the
    legacy fixed-interval [extractFrames]; then the annotation drawing,
    the analysis API with its client, and the processing run of the
    application.

    The engine is embedded twice.  The first embedding computes on exact
    rationals ([Q]): it is the code with the roundings of its arithmetic
    left out, and carries the properties of order, count and membership.
    The second ([Binary64], [Doubles]) rounds every arithmetic operation
    to IEEE 754 binary64 as JavaScript does, and carries the properties
    of the numbers the code computes.  The processing run is embedded
    on responses of the declared type and again ([Untyped]) on responses
    as they are parsed, unchecked.  Throughout, the one non-rational
    value the code can produce, NaN, is [None] of [JS.Num], and equality
    of computed numbers is [Qeq] ([==]). *)

From Stdlib Require Import String.
From Stdlib Require Import ZArith QArith Qround Qminmax Qabs Qpower.
From Stdlib Require Import List Bool Lia Lqa.
From Stdlib Require SpecFloat.
From Stdlib Require Import Sorting.Sorted Sorting.Permutation.
Import ListNotations.
Local Open Scope Q_scope.

(* ================================================================== *)
(** ** JavaScript values and built-ins used by the module *)

Module JS.

(** A number that may be NaN. *)
Definition Num := option Q.
Definition NaN : Num := None.

Inductive Error :=
| TypeError      (* member access on null *)
| LoadError      (* 'video.onerror' fired *).

(** Outcome of a call (or of the promise an async call returns). *)
Inductive Completion (A : Type) :=
| Return (a : A)
| Throw (e : Error).
Arguments Return {A} a.
Arguments Throw {A} e.

Definition bind {A B} (c : Completion A) (k : A -> Completion B)
  : Completion B :=
  match c with
  | Return a => k a
  | Throw e => Throw e
  end.

(** [a < b] on numbers. *)
Definition ltb (a b : Q) : bool := negb (Qle_bool b a).

(** [Math.round]: nearest integer, halves towards +infinity. *)
Definition Math_round (x : Q) : Z := Qfloor (x + (1 # 2)).

(** [Math.floor]. *)
Definition Math_floor (x : Q) : Z := Qfloor x.

(** [Math.min]. *)
Definition Math_min (x y : Q) : Q := Qmin x y.

(** [Array.prototype.sort(cmp)]: a stable sort; [cmp a b <= 0] keeps
    [a] before [b].  The stable result is unique for the comparators
    used here (differences of one numeric field), so insertion in
    front of the first element that is not smaller is the sort. *)
Fixpoint sort_insert {A} (cmp : A -> A -> Q) (x : A) (l : list A) : list A :=
  match l with
  | [] => [x]
  | y :: l' => if Qle_bool (cmp x y) 0 then x :: y :: l'
               else y :: sort_insert cmp x l'
  end.

Definition Array_sort {A} (cmp : A -> A -> Q) (l : list A) : list A :=
  fold_right (sort_insert cmp) [] l.

(** [Array.prototype.slice(0, n)] for an integer [n]: a negative [n]
    counts from the end. *)
Definition slice0 {A} (n : Z) (l : list A) : list A :=
  if (0 <=? n)%Z then firstn (Z.to_nat n) l
  else firstn (Z.to_nat (Z.of_nat (length l) + n)) l.

(** The values [1, 2, ..., count] of [for (let i = 1; i <= count; i++)]. *)
Definition range1 (count : Z) : list Z :=
  map (fun k => Z.of_nat (S k)) (seq 0 (Z.to_nat count)).

(** The values [0, 1, ..., n] of [for (let i = 0; i <= n; i++)]. *)
Definition range0 (n : Z) : list Z :=
  map Z.of_nat (seq 0 (Z.to_nat (n + 1))).

End JS.

Import JS.

Notation "x <- c ;; k" := (bind c (fun x => k))
  (at level 61, c at next level, right associativity).

(* ================================================================== *)
(** ** Types (types.ts) *)

Inductive ExtractionMode := auto | manual.

(** [ExtractOptions] without the progress callback, which only reports. *)
Record ExtractOptions := {
  mode : ExtractionMode;
  maxFrames : Z;
  sensitivity : Q
}.

(** [Partial<ExtractOptions>]. *)
Record PartialOptions := {
  p_mode : option ExtractionMode;
  p_maxFrames : option Z;
  p_sensitivity : option Q
}.

(** [{ timestamp, changeScore }]. *)
Record ChangePoint := {
  timestamp : Q;
  changeScore : Q
}.

Record ExtractedFrame := {
  f_timestamp : Q;
  f_dataUrl : string;
  f_changeScore : Q
}.

(** What the browser supplies for one [File]: whether metadata loads,
    the duration, whether a canvas yields a 2d context, the 160x90 RGBA
    raster drawn after a seek, and the JPEG data URL of the full frame. *)
Record Video := {
  loads : bool;
  duration : Q;
  context2d : bool;
  sample : Q -> list Z;
  still : Q -> string
}.

(* ================================================================== *)
(** ** Constants *)

Definition MIN_FRAME_INTERVAL : Q := 1.
Definition SCAN_INTERVAL : Q := 1 # 2.
Definition MIN_FRAMES : Z := 3.

Definition DEFAULT_OPTIONS : ExtractOptions :=
  {| mode := auto; maxFrames := 10; sensitivity := 3 # 100 |}.

(** [{ ...DEFAULT_OPTIONS, ...options }]. *)
Definition mergeOptions (options : PartialOptions) : ExtractOptions :=
  {| mode := match p_mode options with Some m => m | None => mode DEFAULT_OPTIONS end;
     maxFrames := match p_maxFrames options with
                  | Some n => n | None => maxFrames DEFAULT_OPTIONS end;
     sensitivity := match p_sensitivity options with
                    | Some s => s | None => sensitivity DEFAULT_OPTIONS end |}.

(* ================================================================== *)
(** ** Scene-change detection *)

(** [Math.abs(pixels1[i] - pixels2[i])]; an index past the end reads
    [undefined] and the difference is NaN. *)
Definition channelDiff (pixels1 pixels2 : list Z) (i : nat) : Num :=
  match nth_error pixels1 i, nth_error pixels2 i with
  | Some a, Some b => Some (inject_Z (Z.abs (a - b)))
  | _, _ => NaN
  end.

(** One iteration of the pixel loop: [totalDiff += (dr + dg + db) / (3 * 255)]. *)
Definition diffStep (pixels1 pixels2 : list Z) (totalDiff : Num) (i : nat) : Num :=
  match totalDiff, channelDiff pixels1 pixels2 i,
        channelDiff pixels1 pixels2 (i + 1), channelDiff pixels1 pixels2 (i + 2) with
  | Some t, Some dr, Some dg, Some db => Some (t + (dr + dg + db) / (3 * 255))
  | _, _, _, _ => NaN
  end.

(** The offsets [0, 4, 8, ...] below [len]. *)
Definition pixelOffsets (len : nat) : list nat :=
  map (fun k => (4 * k)%nat) (seq 0 ((len + 3) / 4)).

(** No statement of the function throws.  [pixelCount] is zero only for
    an empty first buffer, where [totalDiff] is still 0 and 0/0 is NaN. *)
Definition calculateFrameDifference (pixels1 pixels2 : list Z) : Completion Num :=
  let pixelCount := inject_Z (Z.of_nat (length pixels1)) / 4 in
  let totalDiff :=
    fold_left (diffStep pixels1 pixels2) (pixelOffsets (length pixels1)) (Some 0) in
  Return (match totalDiff with
          | Some t => if Qeq_bool pixelCount 0 then NaN else Some (t / pixelCount)
          | None => NaN
          end).

(** The seek always completes; drawing on a missing context throws. *)
Definition seekAndCapture (video : Video) (time : Q) : Completion (list Z) :=
  if context2d video then Return (sample video time) else Throw TypeError.

(** The time scanned at step [i]. *)
Definition scanTime (video : Video) (i : Z) : Q :=
  Math_min (inject_Z i * SCAN_INTERVAL) (duration video - (1 # 100)).

(** [if (diff >= sensitivity) changes.push({ timestamp: time, changeScore: diff })];
    the comparison is false for NaN. *)
Definition pushIfChange (changes : list ChangePoint) (time : Q) (diff : Num)
    (sens : Q) : list ChangePoint :=
  match diff with
  | Some d => if Qle_bool sens d
              then changes ++ [{| timestamp := time; changeScore := d |}]
              else changes
  | None => changes
  end.

(** The scan loop over the remaining steps, with the loop state
    [previousPixels] and [changes]. *)
Fixpoint scanLoop (video : Video) (sens : Q) (steps : list Z)
    (previousPixels : option (list Z)) (changes : list ChangePoint)
    : Completion (list ChangePoint) :=
  match steps with
  | [] => Return changes
  | i :: rest =>
      let time := scanTime video i in
      currentPixels <- seekAndCapture video time ;;
      changes' <- match previousPixels with
                  | Some prev =>
                      diff <- calculateFrameDifference prev currentPixels ;;
                      Return (pushIfChange changes time diff sens)
                  | None => Return changes
                  end ;;
      scanLoop video sens rest (Some currentPixels) changes'
  end.

Definition totalScans (video : Video) : Z :=
  Math_floor (duration video / SCAN_INTERVAL).

Definition detectSceneChanges (video : Video) (sens : Q)
    : Completion (list ChangePoint) :=
  scanLoop video sens (range0 (totalScans video)) None [].

(* ================================================================== *)
(** ** Consolidation *)

(** One iteration of the merge loop on [changes[i] = c].  [merged] is
    never empty there, so the default of [last] is not used. *)
Definition mergeStep (merged : list ChangePoint) (c : ChangePoint)
    : list ChangePoint :=
  let lastKept := last merged c in
  if ltb (timestamp c - timestamp lastKept) MIN_FRAME_INTERVAL then
    if ltb (changeScore lastKept) (changeScore c)
    then removelast merged ++ [c]
    else merged
  else merged ++ [c].

Definition mergeClose (changes : list ChangePoint) : list ChangePoint :=
  match changes with
  | [] => []
  | c0 :: rest => fold_left mergeStep rest [c0]
  end.

Definition byScoreDesc (a b : ChangePoint) : Q := changeScore b - changeScore a.
Definition byTime (a b : ChangePoint) : Q := timestamp a - timestamp b.

Definition consolidateChanges (changes : list ChangePoint) (maxFrames : Z)
    : list ChangePoint :=
  match changes with
  | [] => []
  | _ =>
      let merged := mergeClose changes in
      if (Z.of_nat (length merged) <=? maxFrames)%Z then merged
      else Array_sort byTime (slice0 maxFrames (Array_sort byScoreDesc merged))
  end.

(* ================================================================== *)
(** ** Equal intervals *)

Definition generateEqualIntervals (duration : Q) (count : Z) : list ChangePoint :=
  let interval := duration / (inject_Z count + 1) in
  map (fun i => {| timestamp := inject_Z i * interval; changeScore := 0 |})
      (range1 count).

(* ================================================================== *)
(** ** Frame extraction (main API) *)

(** [Math.round(f.timestamp * 10)], the key of the duplicate filter. *)
Definition tenthKey (f : ChangePoint) : Z := Math_round (timestamp f * 10).

(** [!existingTimes.has(Math.round(eq.timestamp * 10))]; the set is
    built once, before the loop, and holds integers. *)
Definition notExisting (existingTimes : list Z) (eq : ChangePoint) : bool :=
  negb (existsb (Z.eqb (tenthKey eq)) existingTimes).

(** The loop that pushes the equal-interval frames not yet represented. *)
Definition pushEqualFrames (frameTimestamps equalFrames : list ChangePoint)
    : list ChangePoint :=
  let existingTimes := map tenthKey frameTimestamps in
  frameTimestamps ++ filter (notExisting existingTimes) equalFrames.

(** Complete the detected points with equal-interval ones, sort by time
    and cut to [maxFrames]. *)
Definition backfill (frameTimestamps : list ChangePoint) (duration : Q)
    (maxFrames : Z) : list ChangePoint :=
  let equalFrames := generateEqualIntervals duration maxFrames in
  slice0 maxFrames
         (Array_sort byTime (pushEqualFrames frameTimestamps equalFrames)).

(** The timestamps chosen before the capture loop. *)
Definition selectTimestamps (video : Video) (opts : ExtractOptions)
    : Completion (list ChangePoint) :=
  match mode opts with
  | auto =>
      rawChanges <- detectSceneChanges video (sensitivity opts) ;;
      let frameTimestamps := consolidateChanges rawChanges (maxFrames opts) in
      if (Z.of_nat (length frameTimestamps) <? MIN_FRAMES)%Z
      then Return (backfill frameTimestamps (duration video) (maxFrames opts))
      else Return frameTimestamps
  | manual => Return (generateEqualIntervals (duration video) (maxFrames opts))
  end.

(** The frame pushed for one selected point:
    [{ timestamp, dataUrl: captureCanvas.toDataURL(...), changeScore }]. *)
Definition captureAt (video : Video) (p : ChangePoint) : ExtractedFrame :=
  {| f_timestamp := timestamp p;
     f_dataUrl := still video (timestamp p);
     f_changeScore := changeScore p |}.

(** The capture loop: the first drawing throws when there is no context. *)
Definition captureFrames (video : Video) (frameTimestamps : list ChangePoint)
    : Completion (list ExtractedFrame) :=
  match frameTimestamps with
  | [] => Return []
  | _ =>
      if context2d video
      then Return (map (captureAt video) frameTimestamps)
      else Throw TypeError
  end.

Definition extractFrames (video : Video) (options : PartialOptions)
    : Completion (list ExtractedFrame) :=
  let opts := mergeOptions options in
  if loads video then
    frameTimestamps <- selectTimestamps video opts ;;
    captureFrames video frameTimestamps
  else Throw LoadError.

(* ================================================================== *)
(** ** The legacy fixed-interval extractor *)

Module Legacy.

Record Frame := {
  timestamp : Q;
  dataUrl : string
}.

(** A frame is pushed only under [if (ctx)]. *)
Definition extractFrames (video : Video) (count : Z) : Completion (list Frame) :=
  if loads video then
    let interval := duration video / (inject_Z count + 1) in
    Return (flat_map
              (fun i =>
                 let time := inject_Z i * interval in
                 if context2d video
                 then [{| timestamp := time; dataUrl := still video time |}]
                 else [])
              (range1 count))
  else Throw LoadError.

End Legacy.

(* ================================================================== *)
(** ** Rasters as pixel lists, and the score formula of the design *)

Record Pixel := {
  red : Z;
  green : Z;
  blue : Z;
  alpha : Z
}.

(** The RGBA byte layout of [ImageData.data]. *)
Definition raster (ps : list Pixel) : list Z :=
  flat_map (fun p => [red p; green p; blue p; alpha p]) ps.

(** The sum over pixels of |dr| + |dg| + |db|. *)
Fixpoint sumAbsRGB (ps1 ps2 : list Pixel) : Z :=
  match ps1, ps2 with
  | p :: t1, q :: t2 =>
      (Z.abs (red p - red q) + Z.abs (green p - green q)
       + Z.abs (blue p - blue q) + sumAbsRGB t1 t2)%Z
  | _, _ => 0%Z
  end.

(** [score = sum / (3 * 255 * P)]. *)
Definition formulaScore (ps1 ps2 : list Pixel) : Q :=
  inject_Z (sumAbsRGB ps1 ps2)
  / (3 * 255 * inject_Z (Z.of_nat (length ps1))).

Definition byteChannels (p : Pixel) : Prop :=
  (0 <= red p <= 255 /\ 0 <= green p <= 255 /\ 0 <= blue p <= 255)%Z.

Definition isBlack (p : Pixel) : Prop := red p = 0%Z /\ green p = 0%Z /\ blue p = 0%Z.
Definition isWhite (p : Pixel) : Prop :=
  red p = 255%Z /\ green p = 255%Z /\ blue p = 255%Z.

(* ================================================================== *)
(** ** Vocabulary of the properties *)

(** The point, if any, that scan step [i >= 1] contributes: the score of
    the raster at step [i] against the raster at step [i - 1], kept when
    it reaches the sensitivity. *)
Definition emitAt (video : Video) (sens : Q) (i : Z) : list ChangePoint :=
  match calculateFrameDifference (sample video (scanTime video (i - 1)))
                                 (sample video (scanTime video i)) with
  | Return diff => pushIfChange [] (scanTime video i) diff sens
  | Throw _ => []
  end.

(** What the scan emits over steps 1 .. totalScans. *)
Definition scanPoints (video : Video) (sens : Q) : list ChangePoint :=
  flat_map (emitAt video sens) (range1 (totalScans video)).

(** Ascending order of a numeric key. *)
Definition keyOrder {A} (key : A -> Q) (a b : A) : Prop := key a <= key b.

Definition timeLe (a b : ChangePoint) : Prop := timestamp a <= timestamp b.

(** [b] lies at least the minimum frame interval after [a]. *)
Definition spaced (a b : ChangePoint) : Prop :=
  timestamp a + MIN_FRAME_INTERVAL <= timestamp b.

(** The spacing of the design: [{ D/(N+1), 2D/(N+1), ..., N*D/(N+1) }],
    in ascending order. *)
Definition evenTimestamps (D : Q) (N : Z) : list Q :=
  map (fun i => inject_Z i * D / (inject_Z N + 1)) (range1 N).


(* ================================================================== *)
(** * Binary64 arithmetic

    JavaScript numbers are IEEE 754 binary64 values: every arithmetic
    operation returns the exact result rounded to the nearest
    representable number, ties to even.  The finite binary64 numbers
    are rationals, so an operation is the exact operation on [Q]
    followed by [round].  Overflow to Infinity (above 1.79e308) is
    outside this model; NaN is [None] of [JS.Num] as before. *)

Module Binary64.

Definition pow2 (e : Z) : Q := 2 ^ e.

(** [floor (log2 x)] for [x > 0]. *)
Definition ilog2 (x : Q) : Z :=
  let k := (Z.log2 (Qnum x) - Z.log2 (Z.pos (Qden x)))%Z in
  if Qle_bool (pow2 k) x then k else (k - 1)%Z.

(** The exponent of the last of the 53 significant bits of [x > 0];
    below 2^-1022 the numbers are subnormal, with last place 2^-1074. *)
Definition lastPlace (x : Q) : Z := Z.max (ilog2 x - 52) (-1074).

(** The nearest integer, a tie going to the even one. *)
Definition nearestEven (x : Q) : Z :=
  let f := Qfloor x in
  match Qcompare (x - inject_Z f) (1 # 2) with
  | Lt => f
  | Gt => (f + 1)%Z
  | Eq => if Z.even f then f else (f + 1)%Z
  end.

(** The binary64 number nearest to [x > 0]. *)
Definition roundPos (x : Q) : Q :=
  let e := lastPlace x in
  Qred (inject_Z (nearestEven (x / pow2 e)) * pow2 e).

(** The binary64 number nearest to [x]. *)
Definition round (x : Q) : Q :=
  match Qcompare 0 x with
  | Eq => 0
  | Lt => roundPos x
  | Gt => - roundPos (- x)
  end.

(** [x + y], [x - y], [x * y] and [x / y] on numbers. *)
Definition fadd (x y : Q) : Q := round (x + y).
Definition fsub (x y : Q) : Q := round (x - y).
Definition fmul (x y : Q) : Q := round (x * y).
Definition fdiv (x y : Q) : Q := round (x / y).

(** [x] is a binary64 number. *)
Definition representable (x : Q) : Prop := round x == x.

(** The same operations in the Standard Library's specification of
    IEEE 754 ([SpecFloat], precision 53, exponents below 1024), and the
    rational a finite value of that specification denotes. *)
Definition ofSpec (f : SpecFloat.spec_float) : option Q :=
  match f with
  | SpecFloat.S754_zero _ => Some 0
  | SpecFloat.S754_finite s m e =>
      Some (Qred ((if s then -1 else 1) * inject_Z (Z.pos m) * pow2 e))
  | _ => None
  end.

Definition specZ (n : Z) : SpecFloat.spec_float :=
  SpecFloat.binary_normalize 53 1024 n 0 false.
Definition specAdd := SpecFloat.SFadd 53 1024.
Definition specSub := SpecFloat.SFsub 53 1024.
Definition specMul := SpecFloat.SFmul 53 1024.
Definition specDiv := SpecFloat.SFdiv 53 1024.

End Binary64.

Import Binary64.

(* ================================================================== *)
(** ** The progress callback of the scan *)

(** The value passed to [onProgress] after scan step [i]:
    [Math.round((i / totalScans) * 100)].  The loop runs only for
    [0 <= i <= totalScans], so a zero divisor means 0/0, which is NaN
    and stays NaN through [Math.round]. *)
Definition progressAt (video : Video) (i : Z) : Num :=
  if (totalScans video =? 0)%Z then NaN
  else Some (inject_Z
               (Math_round (inject_Z i / inject_Z (totalScans video) * 100))).

(** [scanLoop] with [onProgress] given: the same loop, recording each
    call of the callback at the end of its iteration. *)
Fixpoint scanLoopReporting (video : Video) (sens : Q) (steps : list Z)
    (previousPixels : option (list Z)) (changes : list ChangePoint)
    (reports : list Num) : Completion (list ChangePoint * list Num) :=
  match steps with
  | [] => Return (changes, reports)
  | i :: rest =>
      let time := scanTime video i in
      currentPixels <- seekAndCapture video time ;;
      changes' <- match previousPixels with
                  | Some prev =>
                      diff <- calculateFrameDifference prev currentPixels ;;
                      Return (pushIfChange changes time diff sens)
                  | None => Return changes
                  end ;;
      scanLoopReporting video sens rest (Some currentPixels) changes'
                        (reports ++ [progressAt video i])
  end.

Definition detectSceneChangesReporting (video : Video) (sens : Q)
    : Completion (list ChangePoint * list Num) :=
  scanLoopReporting video sens (range0 (totalScans video)) None [] [].

(** Two pixels agree on the channels the differencer reads. *)
Definition sameRGB (p q : Pixel) : Prop :=
  red p = red q /\ green p = green q /\ blue p = blue q.

(* ================================================================== *)
(** ** Annotation drawing (drawAnnotation) *)

Module Annotation.




End Annotation.

(* ================================================================== *)
(** ** Language selection (App.tsx) *)

(** [prev.includes(id)]. *)
Definition includes (id : string) (prev : list string) : bool :=
  existsb (String.eqb id) prev.

(** The state update of [toggleLanguage(id)] on the selection [prev]. *)
Definition toggleLanguage (id : string) (prev : list string) : list string :=
  if includes id prev then
    if (1 <? length prev)%nat
    then filter (fun l => negb (String.eqb l id)) prev
    else prev
  else prev ++ [id].

(* ================================================================== *)
(** ** The analysis API (api/analyze.ts) and its client (analyzeStep) *)

(** [{ title, description }]: a translation, and the context of the
    previous step. *)
Record Translation := {
  title : string;
  description : string
}.

Module Api.

(** The JSON body of a request; a field that is absent is [None]. *)
Record AnalyzeRequest := {
  imageData : option string;
  contextPrompt : option string;
  languages : option (list string);
  previousStep : option Translation
}.

Record HttpRequest := {
  method : string;
  body : option AnalyzeRequest
}.

(** A string that is present and not empty. *)
Definition truthy (s : option string) : bool :=
  match s with
  | Some (String _ _) => true
  | _ => false
  end.

(** The body passes the validation of the handler: image and context
    are present and not empty, and there is at least one language. *)
Definition validBody (b : AnalyzeRequest) : Prop :=
  truthy (imageData b) = true
  /\ truthy (contextPrompt b) = true
  /\ exists l ls, languages b = Some (l :: ls).

(** The character [','] (code 44). *)
Definition comma : Ascii.ascii := Ascii.ascii_of_nat 44.

(** The text after the first comma, if there is a comma. *)
Fixpoint afterComma (s : string) : option string :=
  match s with
  | EmptyString => None
  | String c rest => if Ascii.eqb c comma then Some rest else afterComma rest
  end.

(** The text before the first comma. *)
Fixpoint untilComma (s : string) : string :=
  match s with
  | EmptyString => EmptyString
  | String c rest =>
      if Ascii.eqb c comma then EmptyString else String c (untilComma rest)
  end.

(** [imageData.includes(',') ? imageData.split(',')[1] : imageData]. *)
Definition inlineData (imageData : string) : string :=
  match afterComma imageData with
  | Some rest => untilComma rest
  | None => imageData
  end.

(** What varies in the request sent to the model: the image payload,
    the context, the previous step and the languages (the prompt text
    and the response schema are built from these). *)
Record GenerateRequest := {
  data : string;
  context : string;
  previous : option Translation;
  requested : list string
}.

(** The outcome of [ai.models.generateContent]: a response with its
    [text], or a thrown value that is an [Error] or is not. *)
Inductive Generated :=
| Responds (text : option string)
| ThrowsError (message : string)
| ThrowsOther.

Section Handler.

(** Parsed JSON, [JSON.parse] ([inl] is the message of its
    SyntaxError), the model, and the message of the TypeError raised by
    destructuring an absent body. *)
Variable Json : Type.
Variable JSON_parse : string -> string + Json.
Variable generateContent : GenerateRequest -> Generated.
Variable destructuringMessage : string.

Inductive Payload :=
| NoBody
| ErrorBody (error : string) (details : option string)
| ResultBody (result : Json).

Record Response := {
  status : Z;
  headers : list (string * string);
  payload : Payload
}.

Definition corsHeaders : list (string * string) :=
  [("Access-Control-Allow-Origin", "*");
   ("Access-Control-Allow-Methods", "POST, OPTIONS");
   ("Access-Control-Allow-Headers", "Content-Type")]%string.

Definition respond (code : Z) (p : Payload) : Response :=
  {| status := code; headers := corsHeaders; payload := p |}.

(** The [catch] block. *)
Definition failed (details : string) : Response :=
  respond 500 (ErrorBody "Failed to analyze image" (Some details)).

(** The handler: the response, and the requests it sent to the model. *)
Definition handler (apiKey : option string) (req : HttpRequest)
    : Response * list GenerateRequest :=
  if String.eqb (method req) "OPTIONS" then (respond 200 NoBody, [])
  else if negb (String.eqb (method req) "POST")
  then (respond 405 (ErrorBody "Method not allowed" None), [])
  else
    match body req with
    | None => (failed destructuringMessage, [])
    | Some b =>
        match imageData b, contextPrompt b, languages b with
        | Some (String c i), Some (String c' p), Some (l :: ls) =>
            if negb (truthy apiKey)
            then (respond 500 (ErrorBody "Server configuration error" None), [])
            else
              let request :=
                {| data := inlineData (String c i);
                   context := String c' p;
                   previous := previousStep b;
                   requested := l :: ls |} in
              (match generateContent request with
               | Responds text =>
                   match JSON_parse (match text with
                                     | Some (String t ts) => String t ts
                                     | _ => "{}"
                                     end) with
                   | inr result => respond 200 (ResultBody result)
                   | inl message => failed message
                   end
               | ThrowsError message => failed message
               | ThrowsOther => failed "Unknown error"
               end,
               [request])
        | _, _, _ =>
            (respond 400 (ErrorBody "Missing required parameters" None), [])
        end
    end.

(** The message of the [Error] the client throws. *)
Inductive ClientError :=
| ServerError (error : string)
| RequestFailed (status : Z)
| NotJson.

Inductive ClientResult :=
| Resolved (result : Json)
| Rejected (e : ClientError).

(** [response.ok]. *)
Definition ok (r : Response) : bool :=
  ((200 <=? status r) && (status r <=? 299))%Z.

(** The client: one POST of [{ imageData, contextPrompt, languages }] to
    the endpoint served by [server]. *)
Definition analyzeStep (server : HttpRequest -> Response)
    (imageData contextPrompt : string) (languages : list string)
    : ClientResult :=
  let response :=
    server {| method := "POST";
              body := Some {| Api.imageData := Some imageData;
                              Api.contextPrompt := Some contextPrompt;
                              Api.languages := Some languages;
                              previousStep := None |} |} in
  if ok response then
    match payload response with
    | ResultBody result => Resolved result
    | _ => Rejected NotJson
    end
  else
    match payload response with
    | ErrorBody (String c e) _ => Rejected (ServerError (String c e))
    | _ => Rejected (RequestFailed (status response))
    end.

End Handler.

End Api.

(* ================================================================== *)
(** ** The processing run of the application (App.tsx, processVideo) *)

From Stdlib Require DecimalString.

(** The progress values that [extractFrames] reports to an [onProgress]
    callback: those of the scan, in automatic mode, once the metadata
    have loaded.  (A scan that throws does so at its first seek, before
    any report.) *)
Definition extractFramesReports (video : Video) (options : PartialOptions)
    : list Num :=
  let opts := mergeOptions options in
  if loads video then
    match mode opts with
    | auto =>
        match detectSceneChangesReporting video (sensitivity opts) with
        | Return (_, reports) => reports
        | Throw _ => []
        end
    | manual => []
    end
  else [].

Module Gemini.

(** [GeminiStepResponse] (types.ts); the [translations] record as its
    entries in insertion order. *)
Record StepResponse := {
  translations : list (string * Translation);
  box_2d : option (Q * Q * Q * Q)
}.

End Gemini.

Module App.

(** The uploaded [File]: its name and what the browser decodes from it. *)
Record File := {
  name : string;
  video : Video
}.

(** [Step] (types.ts). *)
Record Step := {
  id : string;
  timestamp : Q;
  translations : list (string * Translation);
  image : string;
  boundingBox : option (Q * Q * Q * Q)
}.

Inductive Phase := scanning | analyzing.

(** The component state. *)
Record State := {
  videoFile : option File;
  isProcessing : bool;
  progress : Num;
  steps : list Step;
  error : option string;
  selectedLangs : list string;
  extractionMode : ExtractionMode;
  maxFrames : Z;
  processingPhase : Phase
}.

(** The arguments of one call of [analyzeStep]. *)
Record AnalyzeCall := {
  imageData : string;
  contextPrompt : string;
  languages : list string;
  previousStep : option Translation
}.

Definition failureMessage : string :=
  "動画の処理に失敗しました。APIキーまたはファイル形式を確認してください。".

(** A number in a template literal (here always a natural number). *)
Definition decimal (n : nat) : string :=
  DecimalString.NilEmpty.string_of_uint (Nat.to_uint n).

Definition quote : string := String (Ascii.ascii_of_nat 34) EmptyString.

(** The context prompt of frame [i] out of [total]. *)
Definition contextPromptOf (fileName : string) (i total : nat) : string :=
  ("動画タイトル: " ++ quote ++ fileName ++ quote
   ++ " のチュートリアル。ステップ " ++ decimal (i + 1) ++ "/" ++ decimal total)%string.

(** [onProgress: (p) => setProgress(Math.round(p * 0.3))]. *)
Definition onProgress (p : Num) : Num :=
  match p with
  | Some q => Some (inject_Z (Math_round (q * (3 # 10))))
  | None => NaN
  end.

(** [{ title: Object.values(translations)[0]?.title || '',
       description: Object.values(translations)[0]?.description || '' }]. *)
Definition firstContext (entries : list (string * Translation)) : Translation :=
  match entries with
  | (_, t) :: _ => {| title := title t; description := description t |}
  | [] => {| title := ""; description := "" |}
  end.

(** The [previousStep] built from the last generated step, if any. *)
Definition previousOf (generatedSteps : list Step) : option Translation :=
  option_map (fun step => firstContext (translations step))
             (nth_error generatedSteps (length generatedSteps - 1)).

(** [30 + ((i + 1) / frames.length) * 70], set after frame [i]. *)
Definition progressAfter (total i : nat) : Num :=
  Some (30 + (inject_Z (Z.of_nat (i + 1)) / inject_Z (Z.of_nat total)) * 70).

(** The arguments of the call for frame [i]. *)
Definition callFor (fileName : string) (langs : list string) (total i : nat)
    (frame : ExtractedFrame) (previous : option Translation) : AnalyzeCall :=
  {| imageData := f_dataUrl frame;
     contextPrompt := contextPromptOf fileName i total;
     languages := langs;
     previousStep := previous |}.

Section ProcessVideo.

(** [analyzeStep] as the application sees it ([None]: the promise is
    rejected), and the identifiers drawn from [Math.random()]. *)
Variable analyzeStep : AnalyzeCall -> option Gemini.StepResponse.
Variable randomId : nat -> string.

(** The analysis loop from frame [i] on: the generated steps ([None]
    when a call was rejected), with the progress values set and the
    calls made so far. *)
Fixpoint analyzeFrames (fileName : string) (langs : list string) (total : nat)
    (i : nat) (frames : list ExtractedFrame) (generatedSteps : list Step)
    (trace : list Num) (calls : list AnalyzeCall)
    : option (list Step) * list Num * list AnalyzeCall :=
  match frames with
  | [] => (Some generatedSteps, trace, calls)
  | frame :: rest =>
      let call :=
        callFor fileName langs total i frame (previousOf generatedSteps) in
      match analyzeStep call with
      | None => (None, trace, calls ++ [call])
      | Some analysis =>
          let step :=
            {| id := randomId i;
               timestamp := f_timestamp frame;
               translations := Gemini.translations analysis;
               image := f_dataUrl frame;
               boundingBox := Gemini.box_2d analysis |} in
          analyzeFrames fileName langs total (S i) rest
            (generatedSteps ++ [step])
            (trace ++ [progressAfter total i])
            (calls ++ [call])
      end
  end.

(** The calls made for the frames from index [i] on, when the call
    before them left the context [previous]: each call that resolves
    hands the first translation of its response to the next one, and a
    rejected call is the last. *)
Inductive CallChain (fileName : string) (langs : list string) (total : nat)
    : nat -> option Translation -> list ExtractedFrame -> list AnalyzeCall
      -> Prop :=
| chain_done i previous : CallChain fileName langs total i previous [] []
| chain_rejected i previous frame rest :
    analyzeStep (callFor fileName langs total i frame previous) = None ->
    CallChain fileName langs total i previous (frame :: rest)
              [callFor fileName langs total i frame previous]
| chain_next i previous frame rest analysis calls :
    analyzeStep (callFor fileName langs total i frame previous)
    = Some analysis ->
    CallChain fileName langs total (S i)
              (Some (firstContext (Gemini.translations analysis))) rest calls ->
    CallChain fileName langs total i previous (frame :: rest)
              (callFor fileName langs total i frame previous :: calls).

(** The options [processVideo] passes to [extractFrames]. *)
Definition optionsOf (state : State) : PartialOptions :=
  {| p_mode := Some (extractionMode state);
     p_maxFrames := Some (maxFrames state);
     p_sensitivity := Some (15 # 100) |}.

(** The state after the [catch] and [finally] blocks. *)
Definition failedState (state : State) (phase : Phase) (trace : list Num)
    : State :=
  {| videoFile := videoFile state;
     isProcessing := false;
     progress := last trace (progress state);
     steps := [];
     error := Some failureMessage;
     selectedLangs := selectedLangs state;
     extractionMode := extractionMode state;
     maxFrames := maxFrames state;
     processingPhase := phase |}.

(** [processVideo]: the final state, every value given to
    [setProgress] in order, and the calls of [analyzeStep]. *)
Definition processVideo (state : State)
    : State * list Num * list AnalyzeCall :=
  match videoFile state with
  | None => (state, [], [])
  | Some file =>
      let scanned :=
        [Some 0] ++ map onProgress
                        (extractFramesReports (video file) (optionsOf state)) in
      match extractFrames (video file) (optionsOf state) with
      | Throw _ => (failedState state scanning scanned, scanned, [])
      | Return frames =>
          match analyzeFrames (name file) (selectedLangs state)
                              (length frames) 0 frames []
                              (scanned ++ [Some 30]) [] with
          | (None, trace, calls) =>
              (failedState state analyzing trace, trace, calls)
          | (Some generatedSteps, trace, calls) =>
              ({| videoFile := videoFile state;
                  isProcessing := false;
                  progress := Some 100;
                  steps := generatedSteps;
                  error := None;
                  selectedLangs := selectedLangs state;
                  extractionMode := extractionMode state;
                  maxFrames := maxFrames state;
                  processingPhase := analyzing |},
               trace ++ [Some 100], calls)
          end
      end
  end.

End ProcessVideo.

End App.

(* ================================================================== *)
(** * The module computed in binary64

    The functions of the module again, every arithmetic operation
    rounded.  What involves no arithmetic ([seekAndCapture],
    [pushIfChange], [captureFrames], the array built-ins) is shared
    with the exact model. *)

Module Doubles.

(* ------------------------------------------------------------------ *)
(** ** Constants *)

(** The literals [0.5] and [1.0] are binary64 numbers; [0.01] and
    [0.03] denote the nearest ones. *)
Definition SCAN_MARGIN : Q := round (1 # 100).

Definition DEFAULT_OPTIONS : ExtractOptions :=
  {| mode := auto; maxFrames := 10; sensitivity := round (3 # 100) |}.

Definition mergeOptions (options : PartialOptions) : ExtractOptions :=
  {| mode := match p_mode options with Some m => m | None => mode DEFAULT_OPTIONS end;
     maxFrames := match p_maxFrames options with
                  | Some n => n | None => maxFrames DEFAULT_OPTIONS end;
     sensitivity := match p_sensitivity options with
                    | Some s => s | None => sensitivity DEFAULT_OPTIONS end |}.

(* ------------------------------------------------------------------ *)
(** ** Scene-change detection *)

(** [Math.abs(pixels1[i] - pixels2[i])]. *)
Definition channelDiff (pixels1 pixels2 : list Z) (i : nat) : Num :=
  match nth_error pixels1 i, nth_error pixels2 i with
  | Some a, Some b => Some (Qabs (fsub (inject_Z a) (inject_Z b)))
  | _, _ => NaN
  end.

(** [totalDiff += (dr + dg + db) / (3 * 255)]. *)
Definition diffStep (pixels1 pixels2 : list Z) (totalDiff : Num) (i : nat) : Num :=
  match totalDiff, channelDiff pixels1 pixels2 i,
        channelDiff pixels1 pixels2 (i + 1), channelDiff pixels1 pixels2 (i + 2) with
  | Some t, Some dr, Some dg, Some db =>
      Some (fadd t (fdiv (fadd (fadd dr dg) db) (fmul 3 255)))
  | _, _, _, _ => NaN
  end.

Definition calculateFrameDifference (pixels1 pixels2 : list Z) : Completion Num :=
  let pixelCount := fdiv (inject_Z (Z.of_nat (length pixels1))) 4 in
  let totalDiff :=
    fold_left (diffStep pixels1 pixels2) (pixelOffsets (length pixels1)) (Some 0) in
  Return (match totalDiff with
          | Some t => if Qeq_bool pixelCount 0 then NaN else Some (fdiv t pixelCount)
          | None => NaN
          end).

(** [Math.min(i * SCAN_INTERVAL, duration - 0.01)]. *)
Definition scanTime (video : Video) (i : Z) : Q :=
  Math_min (fmul (inject_Z i) SCAN_INTERVAL) (fsub (duration video) SCAN_MARGIN).

Fixpoint scanLoop (video : Video) (sens : Q) (steps : list Z)
    (previousPixels : option (list Z)) (changes : list ChangePoint)
    : Completion (list ChangePoint) :=
  match steps with
  | [] => Return changes
  | i :: rest =>
      let time := scanTime video i in
      currentPixels <- seekAndCapture video time ;;
      changes' <- match previousPixels with
                  | Some prev =>
                      diff <- calculateFrameDifference prev currentPixels ;;
                      Return (pushIfChange changes time diff sens)
                  | None => Return changes
                  end ;;
      scanLoop video sens rest (Some currentPixels) changes'
  end.

Definition totalScans (video : Video) : Z :=
  Math_floor (fdiv (duration video) SCAN_INTERVAL).

Definition detectSceneChanges (video : Video) (sens : Q)
    : Completion (list ChangePoint) :=
  scanLoop video sens (range0 (totalScans video)) None [].

(* ------------------------------------------------------------------ *)
(** ** Consolidation *)

Definition mergeStep (merged : list ChangePoint) (c : ChangePoint)
    : list ChangePoint :=
  let lastKept := last merged c in
  if ltb (fsub (timestamp c) (timestamp lastKept)) MIN_FRAME_INTERVAL then
    if ltb (changeScore lastKept) (changeScore c)
    then removelast merged ++ [c]
    else merged
  else merged ++ [c].

Definition mergeClose (changes : list ChangePoint) : list ChangePoint :=
  match changes with
  | [] => []
  | c0 :: rest => fold_left mergeStep rest [c0]
  end.

Definition byScoreDesc (a b : ChangePoint) : Q :=
  fsub (changeScore b) (changeScore a).
Definition byTime (a b : ChangePoint) : Q := fsub (timestamp a) (timestamp b).

Definition consolidateChanges (changes : list ChangePoint) (maxFrames : Z)
    : list ChangePoint :=
  match changes with
  | [] => []
  | _ =>
      let merged := mergeClose changes in
      if (Z.of_nat (length merged) <=? maxFrames)%Z then merged
      else Array_sort byTime (slice0 maxFrames (Array_sort byScoreDesc merged))
  end.

(* ------------------------------------------------------------------ *)
(** ** Equal intervals *)

(** [interval = duration / (count + 1)], [timestamp: i * interval]. *)
Definition generateEqualIntervals (duration : Q) (count : Z) : list ChangePoint :=
  let interval := fdiv duration (fadd (inject_Z count) 1) in
  map (fun i => {| timestamp := fmul (inject_Z i) interval; changeScore := 0 |})
      (range1 count).

(* ------------------------------------------------------------------ *)
(** ** Frame extraction *)

(** [Math.round(f.timestamp * 10)]; [Math.round] itself is exact. *)
Definition tenthKey (f : ChangePoint) : Z := Math_round (fmul (timestamp f) 10).

Definition notExisting (existingTimes : list Z) (eq : ChangePoint) : bool :=
  negb (existsb (Z.eqb (tenthKey eq)) existingTimes).

Definition pushEqualFrames (frameTimestamps equalFrames : list ChangePoint)
    : list ChangePoint :=
  let existingTimes := map tenthKey frameTimestamps in
  frameTimestamps ++ filter (notExisting existingTimes) equalFrames.

Definition backfill (frameTimestamps : list ChangePoint) (duration : Q)
    (maxFrames : Z) : list ChangePoint :=
  let equalFrames := generateEqualIntervals duration maxFrames in
  slice0 maxFrames
         (Array_sort byTime (pushEqualFrames frameTimestamps equalFrames)).

Definition selectTimestamps (video : Video) (opts : ExtractOptions)
    : Completion (list ChangePoint) :=
  match mode opts with
  | auto =>
      rawChanges <- detectSceneChanges video (sensitivity opts) ;;
      let frameTimestamps := consolidateChanges rawChanges (maxFrames opts) in
      if (Z.of_nat (length frameTimestamps) <? MIN_FRAMES)%Z
      then Return (backfill frameTimestamps (duration video) (maxFrames opts))
      else Return frameTimestamps
  | manual => Return (generateEqualIntervals (duration video) (maxFrames opts))
  end.

Definition extractFrames (video : Video) (options : PartialOptions)
    : Completion (list ExtractedFrame) :=
  let opts := mergeOptions options in
  if loads video then
    frameTimestamps <- selectTimestamps video opts ;;
    captureFrames video frameTimestamps
  else Throw LoadError.

(* ------------------------------------------------------------------ *)
(** ** The legacy fixed-interval extractor *)

Module Legacy.

Definition extractFrames (video : Video) (count : Z)
    : Completion (list Legacy.Frame) :=
  if loads video then
    let interval := fdiv (duration video) (fadd (inject_Z count) 1) in
    Return (flat_map
              (fun i =>
                 let time := fmul (inject_Z i) interval in
                 if context2d video
                 then [{| Legacy.timestamp := time;
                          Legacy.dataUrl := still video time |}]
                 else [])
              (range1 count))
  else Throw LoadError.

End Legacy.

End Doubles.

(* ================================================================== *)
(** ** Vocabulary of the binary64 properties *)

(** [|dr| + |dg| + |db|] of one pixel pair. *)
Definition channelSum (p q : Pixel) : Z :=
  (Z.abs (red p - red q) + Z.abs (green p - green q)
   + Z.abs (blue p - blue q))%Z.

(** The formula of the design evaluated as the code evaluates it: each
    pixel's share [channelSum / 765] is rounded, the shares are added
    in pixel order with a rounding after each addition, and the total
    is divided by the number of pixels. *)
Fixpoint roundedTotal (ps1 ps2 : list Pixel) (acc : Q) : Q :=
  match ps1, ps2 with
  | p :: t1, q :: t2 =>
      roundedTotal t1 t2 (fadd acc (fdiv (inject_Z (channelSum p q)) 765))
  | _, _ => acc
  end.

Definition roundedScore (ps1 ps2 : list Pixel) : Q :=
  fdiv (roundedTotal ps1 ps2 0) (inject_Z (Z.of_nat (length ps1))).

(** [computed] is within the relative distance [tolerance] of [exact]. *)
Definition within (tolerance computed exact : Q) : Prop :=
  Qabs (computed - exact) <= tolerance * exact.

(* ================================================================== *)
(** * processVideo on unchecked responses

    [analyzeStep] returns [response.json()] under a type cast, and the
    handler sends whatever [JSON.parse] made of the model's text
    ([{}] for an empty text), so the value [processVideo] receives
    need not have the members [GeminiStepResponse] declares.  This is
    the run on such values, its numbers in binary64. *)

Module Untyped.

(* ------------------------------------------------------------------ *)
(** ** The progress reports of the extraction *)

(** [Math.round((i / totalScans) * 100)]; 0/0 is NaN. *)
Definition progressAt (video : Video) (i : Z) : Num :=
  if (Doubles.totalScans video =? 0)%Z then NaN
  else Some (inject_Z
               (Math_round
                  (fmul (fdiv (inject_Z i) (inject_Z (Doubles.totalScans video)))
                        100))).

Fixpoint scanLoopReporting (video : Video) (sens : Q) (steps : list Z)
    (previousPixels : option (list Z)) (changes : list ChangePoint)
    (reports : list Num) : Completion (list ChangePoint * list Num) :=
  match steps with
  | [] => Return (changes, reports)
  | i :: rest =>
      let time := Doubles.scanTime video i in
      currentPixels <- seekAndCapture video time ;;
      changes' <- match previousPixels with
                  | Some prev =>
                      diff <- Doubles.calculateFrameDifference prev currentPixels ;;
                      Return (pushIfChange changes time diff sens)
                  | None => Return changes
                  end ;;
      scanLoopReporting video sens rest (Some currentPixels) changes'
                        (reports ++ [progressAt video i])
  end.

Definition detectSceneChangesReporting (video : Video) (sens : Q)
    : Completion (list ChangePoint * list Num) :=
  scanLoopReporting video sens (range0 (Doubles.totalScans video)) None [] [].

(** The values [extractFrames] gives to [onProgress] (a scan that
    throws does so at its first seek, before any report). *)
Definition extractFramesReports (video : Video) (options : PartialOptions)
    : list Num :=
  let opts := Doubles.mergeOptions options in
  if loads video then
    match mode opts with
    | auto =>
        match detectSceneChangesReporting video (sensitivity opts) with
        | Return (_, reports) => reports
        | Throw _ => []
        end
    | manual => []
    end
  else [].

(* ------------------------------------------------------------------ *)
(** ** The values *)

Module Gemini.

(** A parsed response as far as [processVideo] reads it.  Without a
    [translations] member (absent or [null]) the field is [None];
    otherwise it holds what [Object.values] lists. *)
Record StepResponse := {
  translations : option (list (string * Translation));
  box_2d : option (Q * Q * Q * Q)
}.

End Gemini.

Module App.

(** A generated step: [translations] is copied from the response as it
    is. *)
Record Step := {
  id : string;
  timestamp : Q;
  translations : option (list (string * Translation));
  image : string;
  boundingBox : option (Q * Q * Q * Q)
}.

Record State := {
  videoFile : option App.File;
  isProcessing : bool;
  progress : Num;
  steps : list Step;
  error : option string;
  selectedLangs : list string;
  extractionMode : ExtractionMode;
  maxFrames : Z;
  processingPhase : App.Phase
}.

(** How the promise of one [analyzeStep] call settles: rejected,
    resolved with [null], or resolved with a value that has members. *)
Inductive Settled :=
| rejects
| resolvesNull
| resolves (analysis : Gemini.StepResponse).

(** [onProgress: (p) => setProgress(Math.round(p * 0.3))]. *)
Definition onProgress (p : Num) : Num :=
  match p with
  | Some q => Some (inject_Z (Math_round (fmul q (round (3 # 10)))))
  | None => NaN
  end.

(** The [previousStep] of the next call: [undefined] while nothing has
    been generated; afterwards built from
    [Object.values(last.translations)], which throws a TypeError on
    [undefined] and on [null]. *)
Definition previousOf (generatedSteps : list Step)
    : Completion (option Translation) :=
  match nth_error generatedSteps (length generatedSteps - 1) with
  | None => Return None
  | Some last =>
      match translations last with
      | Some entries => Return (Some (App.firstContext entries))
      | None => Throw TypeError
      end
  end.

(** [30 + ((i + 1) / frames.length) * 70]. *)
Definition progressAfter (total i : nat) : Num :=
  Some (fadd 30
             (fmul (fdiv (inject_Z (Z.of_nat (i + 1)))
                         (inject_Z (Z.of_nat total)))
                   70)).

Section ProcessVideo.

Variable analyzeStep : App.AnalyzeCall -> Settled.
Variable randomId : nat -> string.

(** The analysis loop from frame [i] on: the generated steps ([None]
    when the loop was left by an exception), the progress values set
    and the calls made so far.  Reading [analysis.translations] of
    [null] throws as well. *)
Fixpoint analyzeFrames (fileName : string) (langs : list string) (total : nat)
    (i : nat) (frames : list ExtractedFrame) (generatedSteps : list Step)
    (trace : list Num) (calls : list App.AnalyzeCall)
    : option (list Step) * list Num * list App.AnalyzeCall :=
  match frames with
  | [] => (Some generatedSteps, trace, calls)
  | frame :: rest =>
      match previousOf generatedSteps with
      | Throw _ => (None, trace, calls)
      | Return previousStep =>
          let call := App.callFor fileName langs total i frame previousStep in
          match analyzeStep call with
          | rejects => (None, trace, calls ++ [call])
          | resolvesNull => (None, trace, calls ++ [call])
          | resolves analysis =>
              let step :=
                {| id := randomId i;
                   timestamp := f_timestamp frame;
                   translations := Gemini.translations analysis;
                   image := f_dataUrl frame;
                   boundingBox := Gemini.box_2d analysis |} in
              analyzeFrames fileName langs total (S i) rest
                (generatedSteps ++ [step])
                (trace ++ [progressAfter total i])
                (calls ++ [call])
          end
      end
  end.

(** The options [processVideo] passes to [extractFrames]; [0.15] is the
    nearest binary64 number. *)
Definition optionsOf (state : State) : PartialOptions :=
  {| p_mode := Some (extractionMode state);
     p_maxFrames := Some (maxFrames state);
     p_sensitivity := Some (round (15 # 100)) |}.

(** The state after the [catch] and [finally] blocks. *)
Definition failedState (state : State) (phase : App.Phase) (trace : list Num)
    : State :=
  {| videoFile := videoFile state;
     isProcessing := false;
     progress := last trace (progress state);
     steps := [];
     error := Some App.failureMessage;
     selectedLangs := selectedLangs state;
     extractionMode := extractionMode state;
     maxFrames := maxFrames state;
     processingPhase := phase |}.

(** [processVideo]: the final state, every value given to
    [setProgress] in order, and the calls of [analyzeStep]. *)
Definition processVideo (state : State)
    : State * list Num * list App.AnalyzeCall :=
  match videoFile state with
  | None => (state, [], [])
  | Some file =>
      let scanned :=
        [Some 0] ++ map onProgress
                        (extractFramesReports (App.video file) (optionsOf state)) in
      match Doubles.extractFrames (App.video file) (optionsOf state) with
      | Throw _ => (failedState state App.scanning scanned, scanned, [])
      | Return frames =>
          match analyzeFrames (App.name file) (selectedLangs state)
                              (length frames) 0 frames []
                              (scanned ++ [Some 30]) [] with
          | (None, trace, calls) =>
              (failedState state App.analyzing trace, trace, calls)
          | (Some generatedSteps, trace, calls) =>
              ({| videoFile := videoFile state;
                  isProcessing := false;
                  progress := Some 100;
                  steps := generatedSteps;
                  error := None;
                  selectedLangs := selectedLangs state;
                  extractionMode := extractionMode state;
                  maxFrames := maxFrames state;
                  processingPhase := App.analyzing |},
               trace ++ [Some 100], calls)
          end
      end
  end.

End ProcessVideo.

End App.

End Untyped.

(* ================================================================== *)
(** ** Sample inputs *)

Module Samples.

(** A one-pixel opaque raster of grey level [v]. *)
Definition grey (v : Z) : list Z :=
  raster [{| red := v; green := v; blue := v; alpha := 255 |}].

Definition stillOf (t : Q) : string := "data:image/jpeg;base64,/9j/"%string.





Definition optionsOf (m : ExtractionMode) (n : Z) (s : Q) : PartialOptions :=
  {| p_mode := Some m; p_maxFrames := Some n; p_sensitivity := Some s |}.

(** Twelve seconds, for manual mode. *)
Definition lessonVideo : Video :=
  {| loads := true; duration := 12; context2d := true;
     sample := fun _ => grey 0;
     still := stillOf |}.

Definition point (t s : Q) : ChangePoint :=
  {| timestamp := t; changeScore := s |}.

(** Five detections, each more than a second after the one before. *)
Definition fivePoints : list ChangePoint :=
  [point 0 1; point (3 # 2) 2; point 3 3; point (9 # 2) 4; point 6 5].

Definition black : Pixel := {| red := 0; green := 0; blue := 0; alpha := 255 |}.
Definition white : Pixel := {| red := 255; green := 255; blue := 255; alpha := 255 |}.

End Samples.

(* ================================================================== *)
(** ** Further sample inputs *)

Module Cases.

(** A quarter of a second: shorter than one scan interval. *)
Definition shortVideo : Video :=
  {| loads := true; duration := 1 # 4; context2d := true;
     sample := fun _ => Samples.grey 0;
     still := Samples.stillOf |}.

(** Ten seconds on a page whose canvas yields no 2d context. *)
Definition blindVideo : Video :=
  {| loads := true; duration := 10; context2d := false;
     sample := fun _ => Samples.grey 0;
     still := Samples.stillOf |}.

(** One second of black. *)
Definition oneSecond : Video :=
  {| loads := true; duration := 1; context2d := true;
     sample := fun _ => Samples.grey 0;
     still := Samples.stillOf |}.

(** Four black pixels, and four pixels whose channels differ from them
    by 10, 510, 245 and 0: 765 in all. *)
Definition darkPixels : list Pixel :=
  [Samples.black; Samples.black; Samples.black; Samples.black].

Definition litPixels : list Pixel :=
  [{| red := 10; green := 0; blue := 0; alpha := 255 |};
   {| red := 255; green := 255; blue := 0; alpha := 255 |};
   {| red := 245; green := 0; blue := 0; alpha := 255 |};
   Samples.black].

(** Eight and a quarter seconds: black up to 5 s, white from 5 s on. *)
Definition cutAtFive : Video :=
  {| loads := true; duration := 33 # 4; context2d := true;
     sample := fun t => if Qle_bool 5 t then Samples.grey 255 else Samples.grey 0;
     still := Samples.stillOf |}.


(** A model that always answers with an empty object, and a parser
    that keeps the text. *)
Definition echoParse (text : string) : string + string := inr text.

Definition emptyObjectModel (request : Api.GenerateRequest) : Api.Generated :=
  Api.Responds (Some "{}"%string).

Definition optionsRequest : Api.HttpRequest :=
  {| Api.method := "OPTIONS"; Api.body := None |}.

Definition postRequest : Api.HttpRequest :=
  {| Api.method := "POST";
     Api.body := Some {| Api.imageData := Some "data:image/jpeg;base64,/9j/"%string;
                         Api.contextPrompt := Some "step 1/3"%string;
                         Api.languages := Some ["ja"; "en"]%string;
                         Api.previousStep := None |} |}.


Definition fixedId (i : nat) : string := "k3j9x0q2a"%string.

Definition lessonFile : App.File :=
  {| App.name := "lesson.mp4"; App.video := Samples.lessonVideo |}.


(** The response [{}]: a value without any member. *)
Definition emptyAnalysis (call : App.AnalyzeCall) : Untyped.App.Settled :=
  Untyped.App.resolves {| Untyped.Gemini.translations := None;
                          Untyped.Gemini.box_2d := None |}.

(** The application with the lesson selected, manual mode, three
    frames, on unchecked responses. *)
Definition uncheckedState : Untyped.App.State :=
  {| Untyped.App.videoFile := Some lessonFile;
     Untyped.App.isProcessing := false;
     Untyped.App.progress := Some 0;
     Untyped.App.steps := [];
     Untyped.App.error := None;
     Untyped.App.selectedLangs := ["ja"; "en"]%string;
     Untyped.App.extractionMode := manual;
     Untyped.App.maxFrames := 3;
     Untyped.App.processingPhase := App.scanning |}.

End Cases.

(* ================================================================== *)
(** * Properties *)

(** ** The differencer *)

Section Differencer.

Lemma raster_length ps : length (raster ps) = (4 * length ps)%nat.
Proof. induction ps; simpl; lia. Qed.

Lemma pixelOffsets_4 n :
  pixelOffsets (4 * n) = map (fun k => (4 * k)%nat) (seq 0 n).
Proof.
  unfold pixelOffsets. f_equal. f_equal.
  replace (4 * n + 3)%nat with (3 + n * 4)%nat by lia.
  rewrite Nat.div_add by lia. reflexivity.
Qed.

Lemma fold_left_map_ext {A B C} (f f' : A -> B -> A) (g g' : C -> B) l :
  (forall a x, f a (g x) = f' a (g' x)) ->
  forall a, fold_left f (map g l) a = fold_left f' (map g' l) a.
Proof.
  intros H. induction l as [|x l IH]; intros a; simpl; [reflexivity|].
  rewrite H. apply IH.
Qed.

Lemma channelDiff_skip4 x1 x2 x3 x4 y1 y2 y3 y4 p1 p2 i :
  channelDiff (x1 :: x2 :: x3 :: x4 :: p1) (y1 :: y2 :: y3 :: y4 :: p2)
              (S (S (S (S i))))
  = channelDiff p1 p2 i.
Proof. reflexivity. Qed.

Lemma diffStep_skip4 x1 x2 x3 x4 y1 y2 y3 y4 p1 p2 acc k :
  diffStep (x1 :: x2 :: x3 :: x4 :: p1) (y1 :: y2 :: y3 :: y4 :: p2) acc
           (4 * S k)
  = diffStep p1 p2 acc (4 * k).
Proof.
  replace (4 * S k)%nat with (S (S (S (S (4 * k))))) by lia.
  reflexivity.
Qed.

(** The pixel loop adds each pixel's share to the running total. *)
Lemma pixel_loop_sum ps1 :
  forall ps2 acc, length ps1 = length ps2 ->
  exists t,
    fold_left (diffStep (raster ps1) (raster ps2))
              (map (fun k => (4 * k)%nat) (seq 0 (length ps1))) (Some acc)
    = Some t
    /\ t == acc + inject_Z (sumAbsRGB ps1 ps2) / (3 * 255).
Proof.
  induction ps1 as [|p ps1 IH]; intros [|q ps2] acc Hlen;
    simpl in Hlen; try discriminate.
  - exists acc. split; [reflexivity|]. simpl. field.
  - injection Hlen as Hlen.
    change (length (p :: ps1)) with (S (length ps1)).
    rewrite <- cons_seq, <- seq_shift, map_cons, map_map.
    cbn [fold_left].
    change (raster (p :: ps1))
      with (red p :: green p :: blue p :: alpha p :: raster ps1).
    change (raster (q :: ps2))
      with (red q :: green q :: blue q :: alpha q :: raster ps2).
    rewrite (fold_left_map_ext _ (diffStep (raster ps1) (raster ps2))
               (fun k => (4 * S k)%nat) (fun k => (4 * k)%nat))
      by (intros; apply diffStep_skip4).
    cbn [diffStep channelDiff nth_error Nat.mul Nat.add].
    destruct (IH ps2 (acc + (inject_Z (Z.abs (red p - red q))
                             + inject_Z (Z.abs (green p - green q))
                             + inject_Z (Z.abs (blue p - blue q))) / (3 * 255))
                 Hlen) as (t & Ht & Heq).
    exists t. split; [exact Ht|].
    rewrite Heq. cbn [sumAbsRGB].
    rewrite !inject_Z_plus. field.
Qed.

Lemma sumAbsRGB_nonneg ps1 : forall ps2, (0 <= sumAbsRGB ps1 ps2)%Z.
Proof. induction ps1; intros [|q ps2]; simpl; try lia. specialize (IHps1 ps2). lia. Qed.

End Differencer.

Section DifferencerMismatch.

Lemma channelDiff_firstn p1 p2 i :
  channelDiff p1 (firstn (length p1) p2) i = channelDiff p1 p2 i.
Proof.
  unfold channelDiff. rewrite nth_error_firstn.
  destruct (Nat.ltb_spec i (length p1)) as [Hlt|Hge]; [reflexivity|].
  apply nth_error_None in Hge. rewrite Hge. reflexivity.
Qed.

Lemma diffStep_firstn p1 p2 acc i :
  diffStep p1 (firstn (length p1) p2) acc i = diffStep p1 p2 acc i.
Proof. unfold diffStep. rewrite !channelDiff_firstn. reflexivity. Qed.

Lemma fold_left_ext_eq {A B} (f g : A -> B -> A) l :
  (forall a x, f a x = g a x) ->
  forall a, fold_left f l a = fold_left g l a.
Proof.
  intros H. induction l as [|x l IH]; intros a; simpl; [reflexivity|].
  rewrite H. apply IH.
Qed.

Lemma diffStep_short p1 p2 acc i :
  (length p2 <= i + 2)%nat -> diffStep p1 p2 acc i = NaN.
Proof.
  intros H. unfold diffStep.
  assert (Hb : channelDiff p1 p2 (i + 2) = NaN).
  { unfold channelDiff. apply nth_error_None in H. rewrite H.
    destruct (nth_error p1 (i + 2)); reflexivity. }
  rewrite Hb. destruct acc, (channelDiff p1 p2 i), (channelDiff p1 p2 (i + 1));
    reflexivity.
Qed.

End DifferencerMismatch.

(** C6, as the code has it.  The differencer has no size check and no
    statement that throws: every call returns.  Entries of the second
    buffer past the length of the first are ignored, and a second buffer
    at least two entries shorter than a first buffer of whole pixels
    gives NaN. *)
Theorem differencer_no_size_check (pixels1 pixels2 : list Z) :
  (exists v, calculateFrameDifference pixels1 pixels2 = Return v)
  /\ calculateFrameDifference pixels1 pixels2
     = calculateFrameDifference pixels1 (firstn (length pixels1) pixels2)
  /\ (forall P, length pixels1 = (4 * S P)%nat ->
                (length pixels2 + 2 <= length pixels1)%nat ->
                calculateFrameDifference pixels1 pixels2 = Return NaN).
Proof.
  split; [eexists; reflexivity|]. split.
  - unfold calculateFrameDifference.
    rewrite (fold_left_ext_eq _ _ _ (diffStep_firstn pixels1 pixels2)).
    reflexivity.
  - intros P H1 H2. unfold calculateFrameDifference.
    rewrite H1, pixelOffsets_4, seq_S, map_app, fold_left_app.
    cbn [map fold_left Nat.add].
    rewrite diffStep_short by lia. reflexivity.
Qed.

(** C6 as stated fails: buffers of different sizes do not make the call
    fail; it returns NaN, or even an ordinary score. *)
Lemma differencer_mismatch_returns :
  length [255; 0; 0; 255]%Z <> length (@nil Z)
  /\ calculateFrameDifference [255; 0; 0; 255]%Z [] = Return NaN
  /\ (forall e, calculateFrameDifference [255; 0; 0; 255]%Z [] <> Throw e)
  /\ length [10; 20; 30; 255]%Z <> length [10; 20; 30]%Z
  /\ (exists s, calculateFrameDifference [10; 20; 30; 255]%Z [10; 20; 30]%Z
                 = Return (Some s) /\ s == 0).
Proof.
  repeat split; try discriminate.
  eexists. split; [vm_compute; reflexivity | reflexivity].
Qed.

(** ** The scan sampler *)

Section Sampler.

Variable video : Video.
Variable sens : Q.

Lemma calculateFrameDifference_returns p1 p2 :
  exists v, calculateFrameDifference p1 p2 = Return v.
Proof. eexists. reflexivity. Qed.

Lemma pushIfChange_app changes time diff :
  pushIfChange changes time diff sens
  = changes ++ pushIfChange [] time diff sens.
Proof.
  unfold pushIfChange. destruct diff as [d|]; [|now rewrite app_nil_r].
  destruct (Qle_bool sens d); [reflexivity | now rewrite app_nil_r].
Qed.

(** With a context, the loop from step [k >= 1] on appends what each
    step emits. *)
Lemma scanLoop_from n :
  context2d video = true ->
  forall k changes,
    scanLoop video sens (map Z.of_nat (seq (S k) n))
             (Some (sample video (scanTime video (Z.of_nat k)))) changes
    = Return (changes ++ flat_map (emitAt video sens)
                                  (map Z.of_nat (seq (S k) n))).
Proof.
  intros Hctx. induction n as [|n IH]; intros k changes.
  - simpl. now rewrite app_nil_r.
  - cbn [seq map scanLoop flat_map].
    unfold seekAndCapture. rewrite Hctx. cbn [bind].
    unfold emitAt at 1.
    replace (Z.of_nat (S k) - 1)%Z with (Z.of_nat k) by lia.
    destruct (calculateFrameDifference_returns
                (sample video (scanTime video (Z.of_nat k)))
                (sample video (scanTime video (Z.of_nat (S k))))) as [v Hv].
    rewrite Hv. cbn [bind].
    rewrite IH, pushIfChange_app, <- app_assoc. reflexivity.
Qed.

Lemma range0_range1 T :
  (0 <= T)%Z -> range0 T = 0%Z :: range1 T.
Proof.
  intros HT. unfold range0, range1.
  replace (Z.to_nat (T + 1)) with (S (Z.to_nat T)) by lia.
  cbn [seq map]. rewrite <- seq_shift, map_map. reflexivity.
Qed.

Lemma range1_seq T : range1 T = map Z.of_nat (seq 1 (Z.to_nat T)).
Proof. unfold range1. rewrite <- seq_shift, map_map. reflexivity. Qed.

Lemma range1_neg T : (T < 0)%Z -> range0 T = [] /\ range1 T = [].
Proof.
  intros HT. unfold range0, range1.
  replace (Z.to_nat (T + 1)) with 0%nat by lia.
  replace (Z.to_nat T) with 0%nat by lia. split; reflexivity.
Qed.

Lemma in_range1 T i : In i (range1 T) <-> (1 <= i <= T)%Z.
Proof.
  rewrite range1_seq, in_map_iff. split.
  - intros (k & <- & Hk). apply in_seq in Hk. lia.
  - intros H. exists (Z.to_nat i). split; [lia|]. apply in_seq. lia.
Qed.

(** The scan equals the per-step emissions of steps 1 .. totalScans. *)
Lemma detectSceneChanges_emits :
  context2d video = true ->
  detectSceneChanges video sens = Return (scanPoints video sens).
Proof.
  intros Hctx. unfold detectSceneChanges, scanPoints.
  destruct (Z.le_gt_cases 0 (totalScans video)) as [HT|HT].
  - rewrite range0_range1 by exact HT. cbn [scanLoop].
    unfold seekAndCapture. rewrite Hctx. cbn [bind].
    rewrite range1_seq.
    exact (scanLoop_from _ Hctx 0%nat []).
  - destruct (range1_neg _ HT) as [-> ->]. reflexivity.
Qed.

End Sampler.

Section ScanTimes.

Variable video : Video.





Variable sens : Q.





Lemma range1_sorted T : StronglySorted Z.lt (range1 T).
Proof.
  rewrite range1_seq. generalize 1%nat.
  induction (Z.to_nat T) as [|n IH]; intros k; cbn [seq map]; constructor.
  - apply IH.
  - apply Forall_forall. intros j Hj. apply in_map_iff in Hj as (m & <- & Hm).
    apply in_seq in Hm. lia.
Qed.



End ScanTimes.

Lemma StronglySorted_weaken {A} (R R' : A -> A -> Prop) l :
  (forall a b, R a b -> R' a b) -> StronglySorted R l -> StronglySorted R' l.
Proof.
  intros H. induction 1 as [|a l Hs IH Hall]; constructor; [exact IH|].
  revert Hall. apply Forall_impl. intros b. apply H.
Qed.


(** ** Lists, [slice] and [sort] *)

Section ListFacts.

Context {A : Type}.
Implicit Types (l : list A) (R : A -> A -> Prop).

Lemma StronglySorted_app_iff R l1 l2 :
  StronglySorted R (l1 ++ l2) <->
  StronglySorted R l1 /\ StronglySorted R l2
  /\ (forall a b, In a l1 -> In b l2 -> R a b).
Proof.
  induction l1 as [|x l1 IH]; cbn [app].
  - split; [intros H; repeat split; [constructor | exact H | intros ? ? []]
           | intros (_ & H & _); exact H].
  - split.
    + intros H. apply StronglySorted_inv in H as [Hs Hall].
      apply IH in Hs as (H1 & H2 & H12).
      apply Forall_app in Hall as [Ha1 Ha2].
      split; [constructor; assumption|]. split; [assumption|].
      intros a b [<-|Ha] Hb; [|now apply H12].
      rewrite Forall_forall in Ha2. now apply Ha2.
    + intros (H1 & H2 & H12). apply StronglySorted_inv in H1 as [Hs Hall].
      constructor.
      * apply IH. repeat split; try assumption.
        intros a b Ha Hb. apply H12; [now right | assumption].
      * apply Forall_app. split; [assumption|].
        apply Forall_forall. intros b Hb. apply H12; [now left | assumption].
Qed.

Lemma StronglySorted_pairs R l a b :
  StronglySorted R l -> In a l -> In b l -> a = b \/ R a b \/ R b a.
Proof.
  induction 1 as [|x l Hs IH Hall]; intros Ha Hb; [destruct Ha|].
  rewrite Forall_forall in Hall.
  destruct Ha as [<-|Ha], Hb as [<-|Hb]; auto.
Qed.

Lemma StronglySorted_NoDup R l :
  (forall a, ~ R a a) -> StronglySorted R l -> NoDup l.
Proof.
  intros Hirr. induction 1 as [|x l Hs IH Hall]; constructor; [|exact IH].
  intros Hin. rewrite Forall_forall in Hall. exact (Hirr x (Hall x Hin)).
Qed.

(** A list in order whose distinct members are related is strongly
    sorted by the relation. *)
Lemma StronglySorted_upgrade R R' l :
  StronglySorted R l -> NoDup l ->
  (forall a b, In a l -> In b l -> a <> b -> R a b -> R' a b) ->
  StronglySorted R' l.
Proof.
  induction 1 as [|x l Hs IH Hall]; intros Hnd Hrel; constructor.
  - apply IH; [now inversion Hnd|].
    intros a b Ha Hb. apply Hrel; now right.
  - inversion Hnd as [|? ? Hx _]; subst.
    rewrite Forall_forall in Hall. apply Forall_forall. intros b Hb.
    apply Hrel; [now left | now right | | now apply Hall].
    intros ->. exact (Hx Hb).
Qed.

Lemma firstn_incl n l : incl (firstn n l) l.
Proof.
  intros x Hx. rewrite <- (firstn_skipn n l). apply in_or_app. now left.
Qed.

Lemma firstn_NoDup n l : NoDup l -> NoDup (firstn n l).
Proof.
  intros H. rewrite <- (firstn_skipn n l) in H.
  exact (NoDup_app_remove_r _ _ H).
Qed.

Lemma slice0_firstn (n : Z) l : exists k, slice0 n l = firstn k l.
Proof. unfold slice0. destruct (0 <=? n)%Z; eexists; reflexivity. Qed.

Lemma slice0_incl (n : Z) l : incl (slice0 n l) l.
Proof. destruct (slice0_firstn n l) as [k ->]. apply firstn_incl. Qed.

Lemma slice0_NoDup (n : Z) l : NoDup l -> NoDup (slice0 n l).
Proof. destruct (slice0_firstn n l) as [k ->]. apply firstn_NoDup. Qed.

Lemma slice0_length (n : Z) l :
  (0 <= n)%Z -> length (slice0 n l) = Nat.min (Z.to_nat n) (length l).
Proof.
  intros Hn. unfold slice0.
  destruct (Z.leb_spec 0 n); [apply length_firstn | lia].
Qed.

Variable cmp : A -> A -> Q.

Lemma sort_insert_perm x l : Permutation (sort_insert cmp x l) (x :: l).
Proof.
  induction l as [|y l IH]; cbn [sort_insert]; [reflexivity|].
  destruct (Qle_bool (cmp x y) 0); [reflexivity|].
  rewrite IH. apply perm_swap.
Qed.

Lemma Array_sort_perm l : Permutation (Array_sort cmp l) l.
Proof.
  induction l as [|x l IH]; cbn [Array_sort fold_right]; [reflexivity|].
  fold (Array_sort cmp l). rewrite sort_insert_perm. now constructor.
Qed.

(** A comparator that subtracts a key sorts by that key. *)
Variable key : A -> Q.
Hypothesis cmp_key : forall a b, cmp a b == key a - key b.

Lemma sort_insert_sorted x l :
  StronglySorted (keyOrder key) l -> StronglySorted (keyOrder key) (sort_insert cmp x l).
Proof.
  induction 1 as [|y l Hs IH Hall]; cbn [sort_insert];
    [repeat constructor|].
  pose proof (cmp_key x y) as Hk.
  destruct (Qle_bool (cmp x y) 0) eqn:E.
  - apply Qle_bool_iff in E.
    constructor; [now constructor|].
    constructor; [unfold keyOrder; lra|].
    revert Hall. apply Forall_impl. unfold keyOrder. intros z Hz. lra.
  - assert (Hgt : ~ cmp x y <= 0).
    { intros H. apply Qle_bool_iff in H. congruence. }
    constructor; [exact IH|].
    apply Forall_forall. intros z Hz.
    apply (Permutation_in _ (sort_insert_perm x l)) in Hz.
    destruct Hz as [<-|Hz]; [unfold keyOrder; lra|].
    rewrite Forall_forall in Hall. now apply Hall.
Qed.

Lemma Array_sort_sorted l : StronglySorted (keyOrder key) (Array_sort cmp l).
Proof.
  induction l as [|x l IH]; cbn [Array_sort fold_right]; [constructor|].
  apply sort_insert_sorted, IH.
Qed.

End ListFacts.

(** ** The consolidator *)

Section Consolidator.

Lemma ltb_true a b : ltb a b = true <-> a < b.
Proof.
  unfold ltb. rewrite negb_true_iff. split.
  - intros H. apply Qnot_le_lt. intros Hle.
    apply Qle_bool_iff in Hle. congruence.
  - intros H. destruct (Qle_bool b a) eqn:E; [|reflexivity].
    apply Qle_bool_iff in E. lra.
Qed.

Lemma ltb_false a b : ltb a b = false <-> b <= a.
Proof.
  unfold ltb. rewrite negb_false_iff. apply Qle_bool_iff.
Qed.


(** The three outcomes of one merge step, read off the kept list. *)
Lemma mergeStep_cases init l c :
  (timestamp c - timestamp l < MIN_FRAME_INTERVAL ->
   changeScore l < changeScore c ->
   mergeStep (init ++ [l]) c = init ++ [c])
  /\ (timestamp c - timestamp l < MIN_FRAME_INTERVAL ->
      changeScore c <= changeScore l ->
      mergeStep (init ++ [l]) c = init ++ [l])
  /\ (MIN_FRAME_INTERVAL <= timestamp c - timestamp l ->
      mergeStep (init ++ [l]) c = init ++ [l; c]).
Proof.
  unfold mergeStep. rewrite last_last, removelast_last.
  repeat split.
  - intros H1 H2. apply ltb_true in H1, H2. now rewrite H1, H2.
  - intros H1 H2. apply ltb_true in H1. apply ltb_false in H2.
    now rewrite H1, H2.
  - intros H1. apply ltb_false in H1. rewrite H1, <- app_assoc. reflexivity.
Qed.

Lemma mergeStep_nonempty merged c : merged <> [] -> mergeStep merged c <> [].
Proof.
  intros Hne. unfold mergeStep.
  destruct (ltb _ _); [destruct (ltb _ _)|]; try assumption;
    intros H; apply app_eq_nil in H as [_ H]; discriminate.
Qed.

Lemma in_mergeStep merged c x :
  In x (mergeStep merged c) -> In x merged \/ x = c.
Proof.
  unfold mergeStep.
  destruct (ltb _ _); [destruct (ltb _ _)|]; intros H; auto;
    apply in_app_or in H as [H|[<-|[]]]; auto.
  left. destruct merged as [|y m]; [destruct H|].
  rewrite (app_removelast_last y) by discriminate.
  apply in_or_app. now left.
Qed.

Lemma mergeStep_spaced init l c :
  StronglySorted spaced (init ++ [l]) ->
  timestamp l <= timestamp c ->
  StronglySorted spaced (mergeStep (init ++ [l]) c).
Proof.
  intros Hs Hle. unfold mergeStep. rewrite last_last, removelast_last.
  pose proof Hs as Hs'.
  apply StronglySorted_app_iff in Hs' as (Hi & _ & Hil).
  destruct (ltb (timestamp c - timestamp l) MIN_FRAME_INTERVAL) eqn:E1;
    [destruct (ltb (changeScore l) (changeScore c))|].
  - apply StronglySorted_app_iff. repeat split; [assumption|repeat constructor|].
    intros a b Ha [<-|[]]. specialize (Hil a l Ha (or_introl eq_refl)).
    unfold spaced, MIN_FRAME_INTERVAL in *. lra.
  - exact Hs.
  - apply ltb_false in E1.
    apply StronglySorted_app_iff. repeat split; [assumption|repeat constructor|].
    intros a b Ha [<-|[]]. apply in_app_or in Ha as [Ha|[<-|[]]].
    + specialize (Hil a l Ha (or_introl eq_refl)).
      unfold spaced, MIN_FRAME_INTERVAL in *. lra.
    + unfold spaced, MIN_FRAME_INTERVAL in *. lra.
Qed.

Lemma fold_mergeStep_nonempty rest :
  forall merged, merged <> [] -> fold_left mergeStep rest merged <> [].
Proof.
  induction rest as [|c rest IH]; intros merged Hne; cbn [fold_left];
    [assumption|].
  apply IH, mergeStep_nonempty, Hne.
Qed.


Lemma fold_mergeStep_spaced rest :
  forall merged,
    merged <> [] ->
    StronglySorted spaced merged ->
    StronglySorted timeLe rest ->
    (forall x c, In x merged -> In c rest -> timeLe x c) ->
    StronglySorted spaced (fold_left mergeStep rest merged).
Proof.
  induction rest as [|c rest IH]; intros merged Hne Hs Hr Hle;
    cbn [fold_left]; [assumption|].
  apply StronglySorted_inv in Hr as [Hr Hc].
  destruct (exists_last Hne) as (init & l & ->).
  apply IH.
  - apply mergeStep_nonempty, Hne.
  - apply mergeStep_spaced; [assumption|].
    apply Hle; [apply in_or_app; right|]; now left.
  - exact Hr.
  - intros x c' Hx Hc'. apply in_mergeStep in Hx as [Hx| ->].
    + apply Hle; [assumption | now right].
    + rewrite Forall_forall in Hc. now apply Hc.
Qed.


Lemma mergeClose_nonempty changes : changes <> [] -> mergeClose changes <> [].
Proof.
  destruct changes as [|c0 rest]; [congruence|]. intros _.
  apply fold_mergeStep_nonempty. discriminate.
Qed.

(** Over a time-ordered input the kept points are at least the minimum
    interval apart. *)
Lemma mergeClose_spaced changes :
  StronglySorted timeLe changes -> StronglySorted spaced (mergeClose changes).
Proof.
  destruct changes as [|c0 rest]; [constructor|]. intros Hs.
  apply StronglySorted_inv in Hs as [Hr Hc].
  cbn [mergeClose]. apply fold_mergeStep_spaced;
    [discriminate | repeat constructor | exact Hr |].
  intros x c [<-|[]] Hc'. rewrite Forall_forall in Hc. now apply Hc.
Qed.

Lemma spaced_irrefl a : ~ spaced a a.
Proof. unfold spaced, MIN_FRAME_INTERVAL. lra. Qed.

Lemma consolidateChanges_incl changes maxFrames :
  incl (consolidateChanges changes maxFrames) (mergeClose changes).
Proof.
  unfold consolidateChanges. destruct changes as [|c0 rest]; [intros ? []|].
  destruct (_ <=? _)%Z; [apply incl_refl|].
  intros x Hx.
  apply (Permutation_in _ (Array_sort_perm _ _)) in Hx.
  apply slice0_incl in Hx.
  exact (Permutation_in _ (Array_sort_perm _ _) Hx).
Qed.

Lemma byTime_sorted l : StronglySorted timeLe (Array_sort byTime l).
Proof.
  apply (Array_sort_sorted byTime timestamp). intros a b. reflexivity.
Qed.

(** The consolidated list of a time-ordered input is spaced by at
    least the minimum interval. *)
Lemma consolidateChanges_spaced changes maxFrames :
  StronglySorted timeLe changes ->
  StronglySorted spaced (consolidateChanges changes maxFrames).
Proof.
  intros Hs. pose proof (mergeClose_spaced changes Hs) as Hm.
  pose proof (consolidateChanges_incl changes maxFrames) as Hincl.
  unfold consolidateChanges in *. destruct changes as [|c0 rest];
    [constructor|].
  destruct (_ <=? _)%Z; [exact Hm|].
  apply (StronglySorted_upgrade timeLe); [apply byTime_sorted| |].
  - apply (Permutation_NoDup (Permutation_sym (Array_sort_perm _ _))).
    apply slice0_NoDup.
    apply (Permutation_NoDup (Permutation_sym (Array_sort_perm _ _))).
    exact (StronglySorted_NoDup _ _ spaced_irrefl Hm).
  - intros a b Ha Hb Hab Hle.
    destruct (StronglySorted_pairs _ _ a b Hm (Hincl a Ha) (Hincl b Hb))
      as [Heq|[H|H]]; [contradiction | exact H |].
    exfalso. unfold spaced, timeLe, MIN_FRAME_INTERVAL in *. lra.
Qed.

End Consolidator.


Lemma timeLe_trans : Relations_1.Transitive timeLe.
Proof. intros a b c. unfold timeLe. apply Qle_trans. Qed.

Lemma Sorted_timeLe_strong l : Sorted timeLe l -> StronglySorted timeLe l.
Proof. apply Sorted_StronglySorted, timeLe_trans. Qed.



(** ** The cap *)

Section Cap.

Lemma byScoreDesc_sorted l :
  StronglySorted (fun a b => changeScore b <= changeScore a)
                 (Array_sort byScoreDesc l).
Proof.
  pose proof (Array_sort_sorted byScoreDesc (fun a => - changeScore a)) as H.
  cbv zeta in H.
  eapply StronglySorted_weaken; [|apply H].
  - intros a b Hab. unfold keyOrder in Hab. lra.
  - intros a b. unfold byScoreDesc. ring.
Qed.

(** Above the cap, the consolidator keeps [maxFrames] points, none of
    which scores less than a dropped one. *)
Lemma consolidateChanges_top changes maxFrames :
  (0 <= maxFrames)%Z ->
  (maxFrames < Z.of_nat (length (mergeClose changes)))%Z ->
  Z.of_nat (length (consolidateChanges changes maxFrames)) = maxFrames
  /\ exists dropped,
      Permutation (mergeClose changes)
                  (consolidateChanges changes maxFrames ++ dropped)
      /\ forall x y, In x (consolidateChanges changes maxFrames) ->
                     In y dropped -> changeScore y <= changeScore x.
Proof.
  intros H0 Hlt. unfold consolidateChanges.
  destruct changes as [|c0 rest]; [cbn in Hlt; lia|].
  set (merged := mergeClose (c0 :: rest)) in *.
  destruct (Z.leb_spec (Z.of_nat (length merged)) maxFrames); [lia|].
  set (sorted := Array_sort byScoreDesc merged).
  assert (Hps : Permutation sorted merged) by apply Array_sort_perm.
  assert (Hsl : slice0 maxFrames sorted = firstn (Z.to_nat maxFrames) sorted).
  { unfold slice0. destruct (Z.leb_spec 0 maxFrames); [reflexivity | lia]. }
  rewrite Hsl.
  assert (Hpo : Permutation (Array_sort byTime (firstn (Z.to_nat maxFrames) sorted))
                            (firstn (Z.to_nat maxFrames) sorted))
    by apply Array_sort_perm.
  split.
  - rewrite (Permutation_length Hpo), length_firstn,
      (Permutation_length Hps). lia.
  - exists (skipn (Z.to_nat maxFrames) sorted). split.
    + rewrite Hpo, firstn_skipn. symmetry. exact Hps.
    + intros x y Hx Hy. apply (Permutation_in _ Hpo) in Hx.
      pose proof (byScoreDesc_sorted merged) as Hs. fold sorted in Hs.
      rewrite <- (firstn_skipn (Z.to_nat maxFrames) sorted) in Hs.
      apply StronglySorted_app_iff in Hs as (_ & _ & Hs).
      exact (Hs x y Hx Hy).
Qed.

Lemma consolidateChanges_length changes maxFrames :
  (0 <= maxFrames)%Z ->
  (Z.of_nat (length (consolidateChanges changes maxFrames)) <= maxFrames)%Z.
Proof.
  intros H0.
  destruct (Z.le_gt_cases (Z.of_nat (length (mergeClose changes))) maxFrames)
    as [Hle|Hgt].
  - unfold consolidateChanges. destruct changes as [|c0 rest]; [cbn; lia|].
    destruct (Z.leb_spec (Z.of_nat (length (mergeClose (c0 :: rest)))) maxFrames);
      lia.
  - destruct (consolidateChanges_top changes maxFrames H0 Hgt) as [-> _]. lia.
Qed.







End Cap.


(** ** Equal intervals *)

Section EqualIntervals.

Variable D : Q.
Variable N : Z.









Lemma StronglySorted_map {A B} (R : A -> A -> Prop) (R' : B -> B -> Prop)
    (f : A -> B) l :
  (forall a b, In a l -> In b l -> R a b -> R' (f a) (f b)) ->
  StronglySorted R l -> StronglySorted R' (map f l).
Proof.
  intros H Hs. induction Hs as [|x l Hs IH Hall]; cbn [map]; constructor.
  - apply IH. intros a b Ha Hb. apply H; now right.
  - apply Forall_forall. intros y Hy. apply in_map_iff in Hy as (b & <- & Hb).
    rewrite Forall_forall in Hall.
    apply H; [now left | now right | now apply Hall].
Qed.



End EqualIntervals.

(** ** Runs of [extractFrames] *)

Section Runs.

Variable video : Video.
Variable options : PartialOptions.

Hypothesis Hloads : loads video = true.
Hypothesis Hctx : context2d video = true.




End Runs.

Lemma map_timestamp_captureAt video ft :
  map f_timestamp (map (captureAt video) ft) = map timestamp ft.
Proof. rewrite map_map. reflexivity. Qed.

(** ** The backfill *)

Section Backfill.

Lemma existsb_eqb_In k l : existsb (Z.eqb k) l = true <-> In k l.
Proof.
  rewrite existsb_exists. split.
  - intros (x & Hx & E). apply Z.eqb_eq in E. now subst.
  - intros H. exists k. split; [exact H | apply Z.eqb_refl].
Qed.





Variable consolidated : list ChangePoint.
Variable D : Q.
Variable N : Z.





Hypothesis HD : 0 < D.
Hypothesis Hspaced : StronglySorted spaced consolidated.




End Backfill.

(** ** The selected timestamps *)

Section Selection.

Variable video : Video.
Variable opts : ExtractOptions.
Hypothesis HD : 0 < duration video.





End Selection.


(** ** The floor *)

Section Floor.

Lemma Qfloor_gap x y : x + 1 <= y -> (Qfloor x < Qfloor y)%Z.
Proof.
  intros H. pose proof (Qfloor_le x) as Hx. pose proof (Qlt_floor y) as Hy.
  rewrite inject_Z_plus in Hy. change (inject_Z 1) with 1 in Hy.
  rewrite Zlt_Qlt. lra.
Qed.

End Floor.

(** ** The properties on sample inputs *)

Import Samples.



Lemma differencer_no_size_check_witness :
  calculateFrameDifference [255; 0; 0; 255]%Z [] = Return NaN.
Proof.
  destruct (differencer_no_size_check [255; 0; 0; 255]%Z []) as (_ & _ & H).
  apply (H 0%nat); [reflexivity | simpl; lia].
Defined.




(* ================================================================== *)
(** * Properties of the module in binary64 arithmetic *)

(** ** Rounding *)

(** The rounded operations agree with the IEEE 754 specification of the
    Standard Library on the computations that tell the code from exact
    arithmetic: a timestamp [3 * (1 / 10)], a duplicate-filter key
    [3 * (8.25 / 5) * 10], a percentage [(23 / 40) * 100], the scan
    margin [10 - 1 / 100], a rectangle edge [x + w] and a score of four
    pixels. *)
Lemma rounding_agrees_with_SpecFloat :
  ofSpec (specMul (specZ 3) (specDiv (specZ 1) (specZ 10)))
  = Some (fmul 3 (fdiv 1 10))
  /\ ofSpec (specMul (specMul (specZ 3)
                              (specDiv (specDiv (specZ 33) (specZ 4)) (specZ 5)))
                     (specZ 10))
     = Some (fmul (fmul 3 (fdiv (33 # 4) 5)) 10)
  /\ ofSpec (specMul (specDiv (specZ 23) (specZ 40)) (specZ 100))
     = Some (fmul (fdiv 23 40) 100)
  /\ ofSpec (specSub (specZ 10) (specDiv (specZ 1) (specZ 100)))
     = Some (fsub 10 (round (1 # 100)))
  /\ ofSpec (specAdd
               (specMul (specDiv (specZ 63) (specZ 1000)) (specZ 1280))
               (specMul (specDiv (specSub (specZ 1000) (specZ 63)) (specZ 1000))
                        (specZ 1280)))
     = Some (fadd (fmul (fdiv 63 1000) 1280)
                  (fmul (fdiv (fsub 1000 63) 1000) 1280))
  /\ ofSpec (specDiv
               (specAdd (specAdd (specDiv (specZ 10) (specZ 765))
                                 (specDiv (specZ 510) (specZ 765)))
                        (specDiv (specZ 245) (specZ 765)))
               (specZ 4))
     = Some (fdiv (fadd (fadd (fdiv 10 765) (fdiv 510 765)) (fdiv 245 765)) 4).
Proof. repeat split; vm_compute; reflexivity. Qed.

Section Pow2.

Lemma pow2_pos e : 0 < pow2 e.
Proof. apply Qpower_0_lt. reflexivity. Qed.

Lemma pow2_add a b : pow2 (a + b) == pow2 a * pow2 b.
Proof. apply Qpower_plus. discriminate. Qed.

Lemma pow2_sub a b : pow2 (a - b) == pow2 a / pow2 b.
Proof. apply Qpower_minus. discriminate. Qed.

Lemma pow2_le a b : (a <= b)%Z -> pow2 a <= pow2 b.
Proof. intros H. apply Qpower_le_compat_l; [exact H | discriminate]. Qed.

Lemma pow2_lt a b : (a < b)%Z -> pow2 a < pow2 b.
Proof. intros H. apply Qpower_lt_compat_l; [exact H | reflexivity]. Qed.

Lemma pow2_lt_inv a b : pow2 a < pow2 b -> (a < b)%Z.
Proof. intros H. apply (Qpower_lt_compat_l_inv 2); [exact H | reflexivity]. Qed.

Lemma pow2_Z n : (0 <= n)%Z -> pow2 n == inject_Z (2 ^ n).
Proof. intros H. unfold pow2. now rewrite Zpower_Qpower. Qed.

Lemma pow2_succ a : pow2 (a + 1) == 2 * pow2 a.
Proof. rewrite pow2_add. change (pow2 1) with 2. ring. Qed.

End Pow2.

Section Log2.

Lemma Z_log2_bounds n : (0 < n)%Z ->
  pow2 (Z.log2 n) <= inject_Z n /\ inject_Z n < pow2 (Z.log2 n + 1).
Proof.
  intros Hn. pose proof (Z.log2_spec n Hn) as [H1 H2].
  pose proof (Z.log2_nonneg n) as H0.
  rewrite !pow2_Z by lia. rewrite <- Zle_Qle, <- Zlt_Qlt.
  replace (Z.log2 n + 1)%Z with (Z.succ (Z.log2 n)) by lia. split; assumption.
Qed.

Lemma ilog2_spec x : 0 < x -> pow2 (ilog2 x) <= x /\ x < pow2 (ilog2 x + 1).
Proof.
  intros Hx. destruct x as [n d]. unfold ilog2. cbn [Qnum Qden].
  assert (Hn : (0 < n)%Z) by (unfold Qlt in Hx; cbn in Hx; lia).
  destruct (Z_log2_bounds n Hn) as [N1 N2].
  destruct (Z_log2_bounds (Z.pos d) eq_refl) as [D1 D2].
  set (ln := Z.log2 n) in *. set (ld := Z.log2 (Z.pos d)) in *.
  assert (E : n # d == inject_Z n / inject_Z (Z.pos d)) by apply Qmake_Qdiv.
  assert (Dpos : 0 < inject_Z (Z.pos d)) by reflexivity.
  pose proof (pow2_pos ld) as Pld. pose proof (pow2_pos (ln - ld)) as Pk.
  destruct (Qle_bool (pow2 (ln - ld)) (n # d)) eqn:T.
  - apply Qle_bool_iff in T. split; [exact T|].
    rewrite E. apply Qlt_shift_div_r; [exact Dpos|].
    replace (ln - ld + 1)%Z with ((ln + 1) - ld)%Z by lia.
    rewrite pow2_sub.
    apply Qlt_le_trans with (pow2 (ln + 1)); [exact N2|].
    assert (H : pow2 (ln + 1) == pow2 (ln + 1) / pow2 ld * pow2 ld)
      by (field; lra).
    rewrite H at 1. apply Qmult_le_l; [|exact D1].
    apply Qlt_shift_div_l; [exact Pld|]. pose proof (pow2_pos (ln + 1)). lra.
  - assert (T' : n # d < pow2 (ln - ld)).
    { apply Qnot_le_lt. intros C. apply Qle_bool_iff in C. congruence. }
    split; [|now replace (ln - ld - 1 + 1)%Z with (ln - ld)%Z by lia].
    rewrite E. apply Qle_shift_div_l; [exact Dpos|].
    replace (ln - ld - 1)%Z with (ln - (ld + 1))%Z by lia.
    rewrite pow2_sub. pose proof (pow2_pos (ld + 1)) as Pld1.
    apply Qle_trans with (pow2 ln); [|exact N1].
    assert (H : pow2 ln == pow2 ln / pow2 (ld + 1) * pow2 (ld + 1))
      by (field; lra).
    rewrite H at 2. apply Qmult_le_l; [|lra].
    apply Qlt_shift_div_l; [exact Pld1|]. pose proof (pow2_pos ln). lra.
Qed.

Lemma ilog2_unique x k : pow2 k <= x -> x < pow2 (k + 1) -> ilog2 x = k.
Proof.
  intros H1 H2. assert (Hx : 0 < x) by (pose proof (pow2_pos k); lra).
  destruct (ilog2_spec x Hx) as [S1 S2].
  assert (A : (k < ilog2 x + 1)%Z) by (apply pow2_lt_inv; lra).
  assert (B : (ilog2 x < k + 1)%Z) by (apply pow2_lt_inv; lra).
  lia.
Qed.

Lemma ilog2_comp x y : 0 < x -> x == y -> ilog2 x = ilog2 y.
Proof.
  intros Hx E. destruct (ilog2_spec x Hx) as [S1 S2].
  symmetry. apply ilog2_unique; rewrite <- E; assumption.
Qed.

Lemma ilog2_mono x y : 0 < x -> x <= y -> (ilog2 x <= ilog2 y)%Z.
Proof.
  intros Hx Hxy. destruct (ilog2_spec x Hx) as [S1 _].
  destruct (ilog2_spec y ltac:(lra)) as [_ S2].
  assert (A : (ilog2 x < ilog2 y + 1)%Z) by (apply pow2_lt_inv; lra). lia.
Qed.

End Log2.

Section Nearest.

Lemma nearestEven_comp x y : x == y -> nearestEven x = nearestEven y.
Proof.
  intros E. unfold nearestEven. rewrite (Qfloor_comp x y E).
  assert (C : Qcompare (x - inject_Z (Qfloor y)) (1 # 2)
              = Qcompare (y - inject_Z (Qfloor y)) (1 # 2))
    by (apply Qcompare_comp; [now rewrite E | reflexivity]).
  now rewrite C.
Qed.

Lemma nearestEven_spec x :
  x - (1 # 2) <= inject_Z (nearestEven x)
  /\ inject_Z (nearestEven x) <= x + (1 # 2).
Proof.
  unfold nearestEven. pose proof (Qfloor_le x) as Hl.
  pose proof (Qlt_floor x) as Hu.
  rewrite inject_Z_plus in Hu. change (inject_Z 1) with 1 in Hu.
  destruct (Qcompare_spec (x - inject_Z (Qfloor x)) (1 # 2)) as [E|L|G].
  - destruct (Z.even (Qfloor x)).
    + lra.
    + rewrite inject_Z_plus. change (inject_Z 1) with 1. lra.
  - lra.
  - rewrite inject_Z_plus. change (inject_Z 1) with 1. lra.
Qed.

Lemma nearestEven_Z n : nearestEven (inject_Z n) = n.
Proof.
  unfold nearestEven. rewrite Qfloor_Z.
  assert (E : Qcompare (inject_Z n - inject_Z n) (1 # 2) = Lt).
  { apply -> Qlt_alt. unfold Qminus. rewrite Qplus_opp_r. reflexivity. }
  now rewrite E.
Qed.

Lemma nearestEven_mono x y : x <= y -> (nearestEven x <= nearestEven y)%Z.
Proof.
  intros Hxy. destruct (Z.le_gt_cases (nearestEven x) (nearestEven y)) as [H|H];
    [exact H|exfalso].
  pose proof (nearestEven_spec x) as [_ Hx].
  pose proof (nearestEven_spec y) as [Hy _].
  assert (Hz : inject_Z (nearestEven y) + 1 <= inject_Z (nearestEven x)).
  { change 1 with (inject_Z 1). rewrite <- inject_Z_plus, <- Zle_Qle. lia. }
  assert (E : x == y) by lra.
  rewrite (nearestEven_comp x y E) in H. lia.
Qed.

Lemma nearestEven_floor x n :
  inject_Z n <= x -> (n <= nearestEven x)%Z.
Proof.
  intros H. apply nearestEven_mono in H. now rewrite nearestEven_Z in H.
Qed.

Lemma nearestEven_ceil x n :
  x <= inject_Z n -> (nearestEven x <= n)%Z.
Proof.
  intros H. apply nearestEven_mono in H. now rewrite nearestEven_Z in H.
Qed.

End Nearest.

Section Rounding.

Lemma lastPlace_comp x y : 0 < x -> x == y -> lastPlace x = lastPlace y.
Proof. intros Hx E. unfold lastPlace. now rewrite (ilog2_comp x y Hx E). Qed.

Lemma lastPlace_mono x y : 0 < x -> x <= y -> (lastPlace x <= lastPlace y)%Z.
Proof.
  intros Hx Hxy. unfold lastPlace. pose proof (ilog2_mono x y Hx Hxy). lia.
Qed.

Lemma lastPlace_upper x : 0 < x -> x < pow2 (lastPlace x + 53).
Proof.
  intros Hx. destruct (ilog2_spec x Hx) as [_ H].
  apply Qlt_le_trans with (1 := H). apply pow2_le. unfold lastPlace. lia.
Qed.

Lemma roundPos_eq x :
  roundPos x
  == inject_Z (nearestEven (x / pow2 (lastPlace x))) * pow2 (lastPlace x).
Proof. unfold roundPos. apply Qred_correct. Qed.

Lemma roundPos_comp x y : 0 < x -> x == y -> roundPos x = roundPos y.
Proof.
  intros Hx E. unfold roundPos. apply Qred_complete.
  rewrite (lastPlace_comp x y Hx E).
  rewrite (nearestEven_comp (x / pow2 (lastPlace y)) (y / pow2 (lastPlace y)));
    [reflexivity | now rewrite E].
Qed.

(** A power of two on the grid of [x] bounds the rounding of [x]. *)
Lemma roundPos_le_pow2 x b :
  0 < x -> (lastPlace x <= b)%Z -> x <= pow2 b -> roundPos x <= pow2 b.
Proof.
  intros Hx Hb Hxb. rewrite roundPos_eq. set (e := lastPlace x) in *.
  pose proof (pow2_pos e) as Pe.
  assert (Hq : x / pow2 e <= inject_Z (2 ^ (b - e))).
  { rewrite <- pow2_Z by lia. rewrite pow2_sub.
    unfold Qdiv. apply Qmult_le_compat_r; [exact Hxb|].
    apply Qinv_le_0_compat. lra. }
  apply nearestEven_ceil in Hq. rewrite Zle_Qle in Hq.
  rewrite <- pow2_Z in Hq by lia. rewrite pow2_sub in Hq.
  apply Qle_trans with (pow2 b / pow2 e * pow2 e).
  - apply Qmult_le_compat_r; [exact Hq | lra].
  - assert (H : pow2 b / pow2 e * pow2 e == pow2 b) by (field; lra).
    rewrite H. apply Qle_refl.
Qed.

Lemma roundPos_ge_pow2 x b :
  0 < x -> (lastPlace x <= b)%Z -> pow2 b <= x -> pow2 b <= roundPos x.
Proof.
  intros Hx Hb Hxb. rewrite roundPos_eq. set (e := lastPlace x) in *.
  pose proof (pow2_pos e) as Pe.
  assert (Hq : inject_Z (2 ^ (b - e)) <= x / pow2 e).
  { rewrite <- pow2_Z by lia. rewrite pow2_sub.
    unfold Qdiv. apply Qmult_le_compat_r; [exact Hxb|].
    apply Qinv_le_0_compat. lra. }
  apply nearestEven_floor in Hq. rewrite Zle_Qle in Hq.
  rewrite <- pow2_Z in Hq by lia. rewrite pow2_sub in Hq.
  apply Qle_trans with (pow2 b / pow2 e * pow2 e).
  - assert (H : pow2 b / pow2 e * pow2 e == pow2 b) by (field; lra).
    rewrite H. apply Qle_refl.
  - apply Qmult_le_compat_r; [exact Hq | lra].
Qed.

Lemma roundPos_nonneg x : 0 < x -> 0 <= roundPos x.
Proof.
  intros Hx. rewrite roundPos_eq. pose proof (pow2_pos (lastPlace x)) as Pe.
  apply Qmult_le_0_compat; [|lra].
  change 0 with (inject_Z 0). rewrite <- Zle_Qle. apply nearestEven_floor.
  apply Qle_shift_div_l; [exact Pe|]. change (inject_Z 0) with 0. lra.
Qed.

Lemma roundPos_mono x y : 0 < x -> x <= y -> roundPos x <= roundPos y.
Proof.
  intros Hx Hxy. assert (Hy : 0 < y) by lra.
  pose proof (lastPlace_mono x y Hx Hxy) as He.
  destruct (Z.eq_dec (lastPlace x) (lastPlace y)) as [E|NE].
  - rewrite !roundPos_eq, E. pose proof (pow2_pos (lastPlace y)) as Pe.
    apply Qmult_le_compat_r; [|lra]. rewrite <- Zle_Qle.
    apply nearestEven_mono. unfold Qdiv. apply Qmult_le_compat_r; [exact Hxy|].
    apply Qinv_le_0_compat. lra.
  - (* the binade of [y] starts above [x] *)
    assert (Hn : lastPlace y = (ilog2 y - 52)%Z) by (unfold lastPlace in *; lia).
    destruct (ilog2_spec y Hy) as [Y1 _].
    pose proof (lastPlace_upper x Hx) as X2.
    set (b := ilog2 y) in *.
    assert (Hb : (lastPlace x + 53 <= b)%Z) by lia.
    assert (Xb : x <= pow2 b).
    { apply Qlt_le_weak, Qlt_le_trans with (1 := X2). now apply pow2_le. }
    apply Qle_trans with (pow2 b).
    + apply roundPos_le_pow2; [exact Hx | lia | exact Xb].
    + apply roundPos_ge_pow2; [exact Hy | lia | exact Y1].
Qed.

Lemma round_pos x : 0 < x -> round x = roundPos x.
Proof. intros H. unfold round. apply -> Qlt_alt in H. now rewrite H. Qed.

Lemma round_neg x : x < 0 -> round x = - roundPos (- x).
Proof. intros H. unfold round. apply -> Qgt_alt in H. now rewrite H. Qed.

Lemma round_0 x : x == 0 -> round x = 0.
Proof.
  intros H. unfold round. symmetry in H. apply -> Qeq_alt in H. now rewrite H.
Qed.

Lemma round_comp x y : x == y -> round x = round y.
Proof.
  intros E. destruct (Qlt_le_dec 0 x) as [P|NP].
  - rewrite !round_pos by lra. now apply roundPos_comp.
  - destruct (Qeq_dec x 0) as [Z|NZ].
    + rewrite !round_0; [reflexivity | lra | exact Z].
    + assert (x < 0) by (destruct (Qlt_le_dec x 0); [assumption|]; exfalso; apply NZ; lra).
      rewrite !round_neg by lra. f_equal. apply roundPos_comp; lra.
Qed.

Lemma round_opp x : round (- x) == - round x.
Proof.
  destruct (Qlt_le_dec 0 x) as [P|NP].
  - rewrite round_neg, round_pos by lra.
    rewrite (roundPos_comp (- - x) x); [reflexivity | lra | ring].
  - destruct (Qeq_dec x 0) as [Z|NZ].
    + rewrite !round_0; [reflexivity | exact Z | lra].
    + assert (x < 0) by (destruct (Qlt_le_dec x 0); [assumption|]; exfalso; apply NZ; lra).
      rewrite round_pos, round_neg by lra. ring.
Qed.

Lemma round_nonneg x : 0 <= x -> 0 <= round x.
Proof.
  intros H. destruct (Qeq_dec x 0) as [Z|NZ].
  - rewrite round_0 by exact Z. lra.
  - rewrite round_pos by (destruct (Qlt_le_dec 0 x); [assumption|]; exfalso; apply NZ; lra).
    apply roundPos_nonneg. destruct (Qlt_le_dec 0 x); [assumption|]. exfalso; apply NZ; lra.
Qed.

Lemma round_nonpos x : x <= 0 -> round x <= 0.
Proof.
  intros H. pose proof (round_nonneg (- x) ltac:(lra)) as Hn.
  rewrite round_opp in Hn. lra.
Qed.

(** Rounding is monotone. *)
Lemma round_mono x y : x <= y -> round x <= round y.
Proof.
  intros Hxy. destruct (Qlt_le_dec 0 x) as [Px|Nx].
  - rewrite !round_pos by lra. now apply roundPos_mono.
  - destruct (Qlt_le_dec 0 y) as [Py|Ny].
    + pose proof (round_nonpos x Nx). pose proof (round_nonneg y ltac:(lra)). lra.
    + destruct (Qeq_dec y 0) as [Zy|NZy].
      * rewrite (round_0 y Zy). now apply round_nonpos.
      * assert (Hy : y < 0) by (destruct (Qlt_le_dec y 0); [assumption|]; exfalso; apply NZy; lra).
        rewrite !round_neg by lra.
        pose proof (roundPos_mono (- y) (- x) ltac:(lra) ltac:(lra)). lra.
Qed.

End Rounding.

Section Accuracy.

Lemma roundPos_error x :
  0 < x ->
  x - pow2 (lastPlace x) / 2 <= roundPos x
  /\ roundPos x <= x + pow2 (lastPlace x) / 2.
Proof.
  intros Hx. rewrite roundPos_eq. set (e := lastPlace x).
  pose proof (pow2_pos e) as Pe.
  destruct (nearestEven_spec (x / pow2 e)) as [L U].
  set (n := inject_Z (nearestEven (x / pow2 e))) in *.
  assert (E : x == x / pow2 e * pow2 e) by (field; lra).
  set (q := x / pow2 e) in *. clearbody q n.
  assert (L' : 0 <= (n - (q - (1 # 2))) * pow2 e)
    by (apply Qmult_le_0_compat; lra).
  assert (U' : 0 <= (q + (1 # 2) - n) * pow2 e)
    by (apply Qmult_le_0_compat; lra).
  assert (H2 : pow2 e / 2 == pow2 e * (1 # 2)) by field.
  rewrite H2. split; lra.
Qed.

Lemma normal_lastPlace x :
  pow2 (-1022) <= x -> lastPlace x = (ilog2 x - 52)%Z.
Proof.
  intros Hx. pose proof (pow2_pos (-1022)) as P.
  destruct (ilog2_spec x ltac:(lra)) as [_ S2].
  assert (A : (-1022 < ilog2 x + 1)%Z) by (apply pow2_lt_inv; lra).
  unfold lastPlace. lia.
Qed.

(** In the normal range a rounding moves a number by at most 2^-53 of
    its size. *)
Lemma round_error x :
  pow2 (-1022) <= x ->
  x * (1 - pow2 (-53)) <= round x /\ round x <= x * (1 + pow2 (-53)).
Proof.
  intros Hx. pose proof (pow2_pos (-1022)) as P.
  assert (Hp : 0 < x) by lra. rewrite round_pos by exact Hp.
  destruct (roundPos_error x Hp) as [L U].
  rewrite (normal_lastPlace x Hx) in L, U.
  destruct (ilog2_spec x Hp) as [S1 _].
  assert (E : pow2 (ilog2 x - 52) / 2 == pow2 (ilog2 x) * pow2 (-53)).
  { replace (ilog2 x - 52)%Z with (ilog2 x + -53 + 1)%Z by lia.
    rewrite pow2_succ, pow2_add. field. }
  rewrite E in L, U. pose proof (pow2_pos (-53)) as P53.
  assert (M : pow2 (ilog2 x) * pow2 (-53) <= x * pow2 (-53))
    by (apply Qmult_le_compat_r; lra).
  split; lra.
Qed.

(** Numbers [m * 2^e] with a 53-bit [m] are not changed. *)
Lemma roundPos_exact x m e :
  (0 < m < 2 ^ 53)%Z -> (-1074 <= e)%Z -> x == inject_Z m * pow2 e ->
  roundPos x == x.
Proof.
  intros Hm He E. pose proof (pow2_pos e) as Pe.
  assert (M0 : 1 <= inject_Z m)
    by (change 1 with (inject_Z 1); rewrite <- Zle_Qle; lia).
  assert (M1 : inject_Z m < pow2 53)
    by (rewrite pow2_Z by lia; rewrite <- Zlt_Qlt; lia).
  assert (Hx : 0 < x).
  { rewrite E. apply Qmult_lt_0_compat; lra. }
  assert (Hu : x < pow2 (e + 53)).
  { rewrite E, pow2_add, (Qmult_comm (pow2 e)).
    apply Qmult_lt_compat_r; assumption. }
  destruct (ilog2_spec x Hx) as [S1 _].
  assert (A : (ilog2 x < e + 53)%Z) by (apply pow2_lt_inv; lra).
  assert (Hl : (lastPlace x <= e)%Z) by (unfold lastPlace; lia).
  rewrite roundPos_eq. set (l := lastPlace x) in *.
  pose proof (pow2_pos l) as Pl.
  assert (Q : x / pow2 l == inject_Z (m * 2 ^ (e - l))).
  { rewrite inject_Z_mult, <- pow2_Z by lia. rewrite pow2_sub, E. field. lra. }
  rewrite (nearestEven_comp _ _ Q), nearestEven_Z.
  rewrite inject_Z_mult, <- pow2_Z by lia. rewrite pow2_sub, E. field. lra.
Qed.

Lemma round_exact x m e :
  (Z.abs m < 2 ^ 53)%Z -> (-1074 <= e)%Z -> x == inject_Z m * pow2 e ->
  round x == x.
Proof.
  intros Hm He E. pose proof (pow2_pos e) as Pe.
  destruct (Z.lt_trichotomy m 0) as [N|[Z|P]].
  - assert (Hx : x < 0).
    { rewrite E. assert (inject_Z m <= -1)
        by (change (-1) with (inject_Z (-1)); rewrite <- Zle_Qle; lia).
      assert (0 <= (-1 - inject_Z m) * pow2 e) by (apply Qmult_le_0_compat; lra).
      lra. }
    rewrite round_neg by exact Hx.
    rewrite (roundPos_exact (- x) (- m) e); [ring | lia | exact He |].
    rewrite E, inject_Z_opp. ring.
  - subst m. rewrite round_0; [|rewrite E; ring]. rewrite E. ring.
  - assert (Hx : 0 < x).
    { rewrite E. apply Qmult_lt_0_compat; [|exact Pe].
      change 0 with (inject_Z 0). rewrite <- Zlt_Qlt. exact P. }
    rewrite round_pos by exact Hx.
    apply (roundPos_exact x m e); [lia | exact He | exact E].
Qed.

(** Integers below 2^53 are binary64 numbers. *)
Lemma round_Z n : (Z.abs n < 2 ^ 53)%Z -> round (inject_Z n) == inject_Z n.
Proof.
  intros H. apply (round_exact _ n 0); [exact H | lia |].
  change (pow2 0) with 1. ring.
Qed.

Lemma round_pow2 e : (-1074 <= e)%Z -> round (pow2 e) == pow2 e.
Proof.
  intros H. apply (round_exact _ 1 e); [reflexivity | exact H |].
  change (inject_Z 1) with 1. ring.
Qed.

(** The result of a rounding is a binary64 number. *)
Lemma round_idem x : representable (round x).
Proof.
  unfold representable.
  assert (Pos : forall y, 0 < y -> round (roundPos y) == roundPos y).
  { intros y Hy. set (e := lastPlace y).
    pose proof (pow2_pos e) as Pe.
    pose proof (lastPlace_upper y Hy) as U. fold e in U.
    assert (Q : y / pow2 e <= inject_Z (2 ^ 53)).
    { rewrite <- pow2_Z by lia. apply Qle_shift_div_r; [exact Pe|].
      rewrite <- pow2_add. replace (53 + e)%Z with (e + 53)%Z by lia. lra. }
    apply nearestEven_ceil in Q.
    assert (Q0 : (0 <= nearestEven (y / pow2 e))%Z).
    { apply nearestEven_floor. apply Qle_shift_div_l; [exact Pe|].
      change (inject_Z 0) with 0. lra. }
    set (n := nearestEven (y / pow2 e)) in *.
    assert (He : (-1074 <= e)%Z) by (unfold e, lastPlace; lia).
    destruct (Z.eq_dec n (2 ^ 53)) as [T|T].
    - apply (round_exact _ 1 (e + 53)); [reflexivity | lia |].
      rewrite roundPos_eq. fold e n. rewrite T, pow2_add, <- pow2_Z by lia.
      change (inject_Z 1) with 1. ring.
    - apply (round_exact _ n e); [lia | exact He |].
      rewrite roundPos_eq. reflexivity. }
  destruct (Qlt_le_dec 0 x) as [P|NP].
  - rewrite (round_pos x P). now apply Pos.
  - destruct (Qeq_dec x 0) as [Z|NZ].
    + rewrite (round_0 x Z). now rewrite round_0.
    + assert (x < 0) by (destruct (Qlt_le_dec x 0); [assumption|]; exfalso; apply NZ; lra).
      rewrite (round_neg x) by assumption.
      rewrite round_opp. rewrite (Pos (- x)) by lra. reflexivity.
Qed.

End Accuracy.

(** ** Operations on binary64 numbers *)

Section Operations.

Lemma round_pos_normal x : pow2 (-1022) <= x -> pow2 (-1022) <= round x.
Proof.
  intros H. apply round_mono in H. now rewrite round_pow2 in H by lia.
Qed.

Lemma fadd_Z a b :
  (Z.abs (a + b) < 2 ^ 53)%Z -> fadd (inject_Z a) (inject_Z b) == inject_Z (a + b).
Proof.
  intros H. unfold fadd. rewrite (round_comp _ (inject_Z (a + b))).
  - now apply round_Z.
  - now rewrite inject_Z_plus.
Qed.

Lemma fsub_Z a b :
  (Z.abs (a - b) < 2 ^ 53)%Z -> fsub (inject_Z a) (inject_Z b) == inject_Z (a - b).
Proof.
  intros H. unfold fsub. rewrite (round_comp _ (inject_Z (a - b))).
  - now apply round_Z.
  - unfold Z.sub. rewrite inject_Z_plus, inject_Z_opp. reflexivity.
Qed.

(** Two roundings: [i * (D / M)] computed as the code does, against
    the exact quotient. *)
Lemma two_roundings a i :
  pow2 (-1022) <= a -> 1 <= i ->
  i * a * (1 - pow2 (-51)) <= fmul i (round a)
  /\ fmul i (round a) <= i * a * (1 + pow2 (-51)).
Proof.
  intros Ha Hi. pose proof (pow2_pos (-1022)) as P.
  destruct (round_error a Ha) as [L1 U1].
  pose proof (round_pos_normal a Ha) as Hr.
  assert (Hn : pow2 (-1022) <= i * round a).
  { assert (0 <= (i - 1) * round a) by (apply Qmult_le_0_compat; lra). lra. }
  destruct (round_error (i * round a) Hn) as [L2 U2]. unfold fmul.
  set (t := round (i * round a)) in *. set (r := round a) in *.
  clearbody t r.
  set (u := pow2 (-53)) in *.
  assert (Hu : 0 < u) by apply pow2_pos.
  assert (Hu1 : u <= 1 # 1000000) by (vm_compute; discriminate).
  assert (E51 : pow2 (-51) == 4 * u) by (vm_compute; reflexivity).
  rewrite E51. clearbody u.
  assert (A : 0 <= i * (r - a * (1 - u)) * (1 - u)).
  { apply Qmult_le_0_compat; [apply Qmult_le_0_compat|]; lra. }
  assert (B : 0 <= i * (a * (1 + u) - r) * (1 + u)).
  { apply Qmult_le_0_compat; [apply Qmult_le_0_compat|]; lra. }
  assert (C : 0 <= i * a * u * (2 - u)).
  { repeat apply Qmult_le_0_compat; lra. }
  assert (C' : 0 <= i * a * u * u).
  { repeat apply Qmult_le_0_compat; lra. }
  split; lra.
Qed.

End Operations.

(** ** Equal intervals in binary64 *)

Section RoundedIntervals.

Variable D : Q.
Variable N : Z.
Hypothesis HN1 : (1 <= N)%Z.
Hypothesis HN : (N <= 2 ^ 32)%Z.
Hypothesis HD : pow2 (-1022) * (inject_Z N + 1) <= D.

Lemma count_plus_one : fadd (inject_Z N) 1 == inject_Z N + 1.
Proof.
  change 1 with (inject_Z 1). rewrite fadd_Z by lia. now rewrite inject_Z_plus.
Qed.

Lemma count_bounds : 1 <= inject_Z N /\ inject_Z N <= inject_Z (2 ^ 32).
Proof.
  split; [change 1 with (inject_Z 1)|]; rewrite <- Zle_Qle; assumption.
Qed.

(** The exact spacing is a normal number. *)
Lemma spacing_normal : pow2 (-1022) <= D / (inject_Z N + 1).
Proof.
  destruct count_bounds as [B1 _].
  apply Qle_shift_div_l; [lra | exact HD].
Qed.

Lemma spacing_pos : 0 < D / (inject_Z N + 1).
Proof. pose proof spacing_normal. pose proof (pow2_pos (-1022)). lra. Qed.

Lemma spacing_total : (inject_Z N + 1) * (D / (inject_Z N + 1)) == D.
Proof. destruct count_bounds. field. lra. Qed.

(** The timestamp the code computes for index [i]. *)
Lemma interval_rounded :
  fdiv D (fadd (inject_Z N) 1) = round (D / (inject_Z N + 1)).
Proof.
  unfold fdiv. apply round_comp. now rewrite count_plus_one.
Qed.

Lemma rounded_point_bounds i :
  (1 <= i)%Z ->
  let t := fmul (inject_Z i) (fdiv D (fadd (inject_Z N) 1)) in
  let e := inject_Z i * (D / (inject_Z N + 1)) in
  e * (1 - pow2 (-51)) <= t /\ t <= e * (1 + pow2 (-51)).
Proof.
  intros Hi. cbv zeta. rewrite interval_rounded.
  apply two_roundings; [exact spacing_normal|].
  change 1 with (inject_Z 1). now rewrite <- Zle_Qle.
Qed.

Lemma rounded_point_close i :
  (1 <= i)%Z ->
  Qabs (fmul (inject_Z i) (fdiv D (fadd (inject_Z N) 1))
        - inject_Z i * D / (inject_Z N + 1))
  <= pow2 (-51) * (inject_Z i * D / (inject_Z N + 1)).
Proof.
  intros Hi. destruct (rounded_point_bounds i Hi) as [L U]. cbv zeta in L, U.
  assert (E : inject_Z i * D / (inject_Z N + 1)
              == inject_Z i * (D / (inject_Z N + 1)))
    by (destruct count_bounds; field; lra).
  rewrite E. apply Qabs_Qle_condition. split; lra.
Qed.

Lemma rounded_point_pos i :
  (1 <= i)%Z -> 0 < fmul (inject_Z i) (fdiv D (fadd (inject_Z N) 1)).
Proof.
  intros Hi. destruct (rounded_point_bounds i Hi) as [L _]. cbv zeta in L.
  pose proof spacing_pos as Sp.
  assert (Hi' : 1 <= inject_Z i)
    by (change 1 with (inject_Z 1); now rewrite <- Zle_Qle).
  assert (E : 0 < inject_Z i * (D / (inject_Z N + 1)) * (1 - pow2 (-51))).
  { apply Qmult_lt_0_compat; [apply Qmult_lt_0_compat; lra|].
    vm_compute. reflexivity. }
  lra.
Qed.

(** Up to 2^32 frames the roundings cannot reorder two timestamps. *)
Lemma rounded_point_lt i j :
  (1 <= i)%Z -> (i < j)%Z -> (j <= N)%Z ->
  fmul (inject_Z i) (fdiv D (fadd (inject_Z N) 1))
  < fmul (inject_Z j) (fdiv D (fadd (inject_Z N) 1)).
Proof.
  intros Hi Hij Hj.
  destruct (rounded_point_bounds i Hi) as [_ U].
  destruct (rounded_point_bounds j ltac:(lia)) as [L _]. cbv zeta in L, U.
  pose proof spacing_pos as Sp. set (a := D / (inject_Z N + 1)) in *.
  assert (Hi' : 1 <= inject_Z i)
    by (change 1 with (inject_Z 1); now rewrite <- Zle_Qle).
  assert (Hij' : inject_Z i + 1 <= inject_Z j).
  { change 1 with (inject_Z 1). rewrite <- inject_Z_plus, <- Zle_Qle. lia. }
  assert (Hj' : inject_Z j <= inject_Z (2 ^ 32)) by (rewrite <- Zle_Qle; lia).
  assert (E51 : pow2 (-51) == 1 # 2251799813685248) by (vm_compute; reflexivity).
  assert (E32 : inject_Z (2 ^ 32) == 4294967296) by reflexivity.
  rewrite E51 in L, U. rewrite E32 in Hj'.
  apply Qle_lt_trans with (1 := U). apply Qlt_le_trans with (2 := L).
  rewrite <- !Qmult_assoc, !(Qmult_comm a), !Qmult_assoc.
  apply Qmult_lt_compat_r; [exact Sp|]. lra.
Qed.

Lemma rounded_point_inside i :
  (1 <= i)%Z -> (i <= N)%Z ->
  fmul (inject_Z i) (fdiv D (fadd (inject_Z N) 1)) < D.
Proof.
  intros Hi Hj.
  destruct (rounded_point_bounds i Hi) as [_ U]. cbv zeta in U.
  pose proof spacing_pos as Sp. pose proof spacing_total as St.
  set (a := D / (inject_Z N + 1)) in *.
  assert (Hi' : 1 <= inject_Z i)
    by (change 1 with (inject_Z 1); now rewrite <- Zle_Qle).
  assert (Hij' : inject_Z i <= inject_Z N) by (rewrite <- Zle_Qle; lia).
  assert (Hj' : inject_Z N <= inject_Z (2 ^ 32)) by (rewrite <- Zle_Qle; lia).
  assert (E51 : pow2 (-51) == 1 # 2251799813685248) by (vm_compute; reflexivity).
  assert (E32 : inject_Z (2 ^ 32) == 4294967296) by reflexivity.
  rewrite E51 in U. rewrite E32 in Hj'.
  apply Qle_lt_trans with (1 := U). rewrite <- St.
  rewrite <- !Qmult_assoc, !(Qmult_comm a), !Qmult_assoc.
  apply Qmult_lt_compat_r; [exact Sp|]. lra.
Qed.

End RoundedIntervals.

(** ** Manual mode and the legacy extractor in binary64 *)

Section RoundedManual.

Lemma Forall2_map_same {A B C} (R : B -> C -> Prop) (f : A -> B) (g : A -> C) l :
  (forall x, In x l -> R (f x) (g x)) -> Forall2 R (map f l) (map g l).
Proof.
  induction l as [|x l IH]; intros H; cbn [map]; constructor.
  - apply H. now left.
  - apply IH. intros y Hy. apply H. now right.
Qed.

Lemma rounded_manual_run video options :
  loads video = true -> context2d video = true ->
  mode (Doubles.mergeOptions options) = manual ->
  Doubles.extractFrames video options
  = Return (map (captureAt video)
                (Doubles.generateEqualIntervals
                   (duration video)
                   (maxFrames (Doubles.mergeOptions options)))).
Proof.
  intros Hl Hc Hm. unfold Doubles.extractFrames. cbv zeta. rewrite Hl.
  unfold Doubles.selectTimestamps. rewrite Hm. cbn [bind].
  unfold captureFrames. rewrite Hc.
  now destruct (Doubles.generateEqualIntervals _ _).
Qed.

Lemma rounded_intervals_timestamps D N :
  map timestamp (Doubles.generateEqualIntervals D N)
  = map (fun i => fmul (inject_Z i) (fdiv D (fadd (inject_Z N) 1))) (range1 N).
Proof. unfold Doubles.generateEqualIntervals. now rewrite map_map. Qed.

Lemma rounded_intervals_scores D N :
  Forall (fun p => changeScore p = 0) (Doubles.generateEqualIntervals D N).
Proof.
  unfold Doubles.generateEqualIntervals. apply Forall_forall.
  intros p Hp. apply in_map_iff in Hp as (i & <- & _). reflexivity.
Qed.

Lemma range1_length N : length (range1 N) = Z.to_nat N.
Proof. unfold range1. now rewrite length_map, length_seq. Qed.

(** The timestamps of the rounded equal-interval points against the
    exact ones. *)
Lemma rounded_intervals_close D N :
  (N <= 2 ^ 32)%Z ->
  pow2 (-1022) * (inject_Z N + 1) <= D ->
  Forall2 (within (pow2 (-51)))
                (map timestamp (Doubles.generateEqualIntervals D N))
          (evenTimestamps D N).
Proof.
  intros HN HD. rewrite rounded_intervals_timestamps. unfold evenTimestamps.
  apply Forall2_map_same. intros i Hi. apply in_range1 in Hi.
  apply rounded_point_close; [lia | exact HN | exact HD | lia].
Qed.

Lemma rounded_intervals_sorted D N :
  (N <= 2 ^ 32)%Z ->
  pow2 (-1022) * (inject_Z N + 1) <= D ->
  StronglySorted Qlt (map timestamp (Doubles.generateEqualIntervals D N)).
Proof.
  intros HN HD. rewrite rounded_intervals_timestamps.
  apply (StronglySorted_map Z.lt); [|apply range1_sorted].
  intros i j Hi Hj Hij. apply in_range1 in Hi, Hj.
  apply rounded_point_lt; try assumption; lia.
Qed.

Lemma rounded_intervals_inside D N :
  (N <= 2 ^ 32)%Z ->
  pow2 (-1022) * (inject_Z N + 1) <= D ->
  Forall (fun t => 0 < t /\ t < D)
         (map timestamp (Doubles.generateEqualIntervals D N)).
Proof.
  intros HN HD. rewrite rounded_intervals_timestamps.
  apply Forall_forall. intros t Ht. apply in_map_iff in Ht as (i & <- & Hi).
  apply in_range1 in Hi. split.
  - apply rounded_point_pos; try assumption; lia.
  - apply rounded_point_inside; try assumption; lia.
Qed.

End RoundedManual.

(** C4.  Manual mode on the binary64 numbers of the code.  A run on a
    video of duration [D] with [maxFrames = N] returns N frames; frame
    [i] has the timestamp [i * (D / (N + 1))] with both operations
    rounded, and [changeScore] 0.  For up to 2^32 frames whose spacing
    [D / (N + 1)] is a normal number, each timestamp lies within a
    relative 2^-51 of [i * D / (N + 1)], the timestamps are strictly
    ascending and they lie strictly between 0 and [D]. *)
Theorem manual_mode_rounded_spacing (video : Video) (options : PartialOptions) :
  loads video = true ->
  context2d video = true ->
  mode (Doubles.mergeOptions options) = manual ->
  let D := duration video in
  let N := maxFrames (Doubles.mergeOptions options) in
  exists frames,
    Doubles.extractFrames video options = Return frames
    /\ length frames = Z.to_nat N
    /\ map f_timestamp frames
       = map (fun i => fmul (inject_Z i) (fdiv D (fadd (inject_Z N) 1)))
             (range1 N)
    /\ Forall (fun f => f_changeScore f = 0) frames
    /\ ((N <= 2 ^ 32)%Z -> pow2 (-1022) * (inject_Z N + 1) <= D ->
        Forall2 (within (pow2 (-51)))
                (map f_timestamp frames) (evenTimestamps D N)
        /\ StronglySorted Qlt (map f_timestamp frames)
        /\ Forall (fun t => 0 < t /\ t < D) (map f_timestamp frames)).
Proof.
  intros Hl Hc Hm D N. eexists. split; [now apply rounded_manual_run|].
  fold D N. rewrite map_timestamp_captureAt, length_map.
  split; [|split; [|split]].
  - unfold Doubles.generateEqualIntervals. now rewrite length_map, range1_length.
  - apply rounded_intervals_timestamps.
  - apply Forall_map. cbn [captureAt f_changeScore]. apply rounded_intervals_scores.
  - intros HN HD. split; [|split].
    + now apply rounded_intervals_close.
    + now apply rounded_intervals_sorted.
    + now apply rounded_intervals_inside.
Qed.

(** The exact spacing of C4 is not what the code returns: for one
    second and nine frames the third timestamp is
    0.30000000000000004 (1351079888211149 / 2^52), not 3/10, and the
    sixth and seventh are off as well. *)
Lemma manual_mode_not_exact :
  exists frames,
    Doubles.extractFrames Cases.oneSecond (Samples.optionsOf manual 9 (3 # 100))
    = Return frames
    /\ nth_error (map f_timestamp frames) 2
       = Some (1351079888211149 # 4503599627370496)
    /\ nth_error (evenTimestamps 1 9) 2 = Some (3 * 1 / (9 + 1))
    /\ 3 * 1 / (9 + 1) < 1351079888211149 # 4503599627370496
    /\ ~ Forall2 Qeq (map f_timestamp frames) (evenTimestamps 1 9).
Proof.
  eexists. split; [vm_compute; reflexivity|].
  split; [vm_compute; reflexivity|].
  split; [reflexivity|].
  split; [vm_compute; reflexivity|].
  intros H. vm_compute in H.
  inversion H as [|? ? ? ? _ Ha]. inversion Ha as [|? ? ? ? _ Hb].
  inversion Hb as [|? ? ? ? E _]. vm_compute in E. discriminate.
Qed.

Section RoundedLegacy.

Lemma rounded_legacy_frames video count l :
  let interval := fdiv (duration video) (fadd (inject_Z count) 1) in
  let legacy :=
    flat_map
      (fun i =>
         let time := fmul (inject_Z i) interval in
         [{| Legacy.timestamp := time; Legacy.dataUrl := still video time |}])
      l in
  let points :=
    map (fun i => {| timestamp := fmul (inject_Z i) interval; changeScore := 0 |})
        l in
  map Legacy.timestamp legacy = map timestamp points
  /\ map f_timestamp (map (captureAt video) points) = map Legacy.timestamp legacy
  /\ map f_dataUrl (map (captureAt video) points) = map Legacy.dataUrl legacy.
Proof.
  cbv zeta. induction l as [|i l (IH1 & IH2 & IH3)];
    cbn [flat_map map app]; [repeat split|].
  split; [|split]; f_equal; assumption.
Qed.

End RoundedLegacy.

(** C10.  The legacy extractor and manual mode compute the same
    binary64 timestamps: with metadata and a drawing context, the
    legacy frames for [count] and the manual-mode frames for
    [maxFrames = count] carry the timestamps of
    [generateEqualIntervals(duration, count)] and the same stills.
    These timestamps are [i * (D / (count + 1))] with both operations
    rounded; for up to 2^32 frames of normal spacing they lie within a
    relative 2^-51 of [i * D / (count + 1)]. *)
Theorem legacy_refinement_rounded (video : Video) (options : PartialOptions)
    (count : Z) :
  loads video = true ->
  context2d video = true ->
  mode (Doubles.mergeOptions options) = manual ->
  maxFrames (Doubles.mergeOptions options) = count ->
  exists legacy frames,
    Doubles.Legacy.extractFrames video count = Return legacy
    /\ Doubles.extractFrames video options = Return frames
    /\ map Legacy.timestamp legacy
       = map timestamp (Doubles.generateEqualIntervals (duration video) count)
    /\ map f_timestamp frames = map Legacy.timestamp legacy
    /\ map f_dataUrl frames = map Legacy.dataUrl legacy
    /\ ((count <= 2 ^ 32)%Z ->
        pow2 (-1022) * (inject_Z count + 1) <= duration video ->
        Forall2 (within (pow2 (-51)))
                (map Legacy.timestamp legacy)
                (evenTimestamps (duration video) count)).
Proof.
  intros Hl Hc Hm HN.
  pose proof (rounded_legacy_frames video count (range1 count)) as H.
  cbv zeta in H. destruct H as (H1 & H2 & H3).
  eexists. eexists.
  split; [unfold Doubles.Legacy.extractFrames; rewrite Hl, Hc; reflexivity|].
  split; [rewrite rounded_manual_run by assumption; rewrite HN; reflexivity|].
  unfold Doubles.generateEqualIntervals.
  split; [exact H1|]. split; [exact H2|]. split; [exact H3|].
  intros Hn HD. rewrite H1.
  exact (rounded_intervals_close (duration video) count Hn HD).
Qed.

(** The exact values of C10 are not what the legacy extractor
    returns: for one second and nine frames its third timestamp is
    0.30000000000000004 (1351079888211149 / 2^52), above 3/10. *)
Lemma legacy_not_exact :
  exists legacy,
    Doubles.Legacy.extractFrames Cases.oneSecond 9 = Return legacy
    /\ nth_error (map Legacy.timestamp legacy) 2
       = Some (1351079888211149 # 4503599627370496)
    /\ nth_error (evenTimestamps 1 9) 2 = Some (3 * 1 / (9 + 1))
    /\ 3 * 1 / (9 + 1) < 1351079888211149 # 4503599627370496
    /\ ~ Forall2 Qeq (map Legacy.timestamp legacy) (evenTimestamps 1 9).
Proof.
  eexists. split; [vm_compute; reflexivity|].
  split; [vm_compute; reflexivity|].
  split; [reflexivity|].
  split; [vm_compute; reflexivity|].
  intros H. vm_compute in H.
  inversion H as [|? ? ? ? _ Ha]. inversion Ha as [|? ? ? ? _ Hb].
  inversion Hb as [|? ? ? ? E _]. vm_compute in E. discriminate.
Qed.

(** ** The differencer in binary64 *)

Section RoundedDifferencer.

Lemma Qabs_inject_Z z : Qabs (inject_Z z) == inject_Z (Z.abs z).
Proof. unfold Qabs, inject_Z. reflexivity. Qed.

(** On channels that are bytes the differences and their sum are exact. *)
Lemma rounded_channel a b :
  (0 <= a <= 255)%Z -> (0 <= b <= 255)%Z ->
  Qabs (fsub (inject_Z a) (inject_Z b)) == inject_Z (Z.abs (a - b)).
Proof.
  intros Ha Hb. rewrite fsub_Z by lia. apply Qabs_inject_Z.
Qed.

Lemma rounded_share p q :
  byteChannels p -> byteChannels q ->
  fdiv (fadd (fadd (Qabs (fsub (inject_Z (red p)) (inject_Z (red q))))
                   (Qabs (fsub (inject_Z (green p)) (inject_Z (green q)))))
             (Qabs (fsub (inject_Z (blue p)) (inject_Z (blue q)))))
       (fmul 3 255)
  = fdiv (inject_Z (channelSum p q)) 765.
Proof.
  intros (Hr & Hg & Hb) (Hr' & Hg' & Hb').
  unfold fdiv at 1. unfold fdiv. apply round_comp.
  assert (E1 : fadd (Qabs (fsub (inject_Z (red p)) (inject_Z (red q))))
                    (Qabs (fsub (inject_Z (green p)) (inject_Z (green q))))
               == inject_Z (Z.abs (red p - red q) + Z.abs (green p - green q))).
  { unfold fadd.
    rewrite (round_comp _ (inject_Z (Z.abs (red p - red q)
                                     + Z.abs (green p - green q)))).
    - apply round_Z. lia.
    - rewrite inject_Z_plus, !rounded_channel by assumption. reflexivity. }
  assert (E2 : fadd (fadd (Qabs (fsub (inject_Z (red p)) (inject_Z (red q))))
                          (Qabs (fsub (inject_Z (green p)) (inject_Z (green q)))))
                    (Qabs (fsub (inject_Z (blue p)) (inject_Z (blue q))))
               == inject_Z (channelSum p q)).
  { unfold fadd at 1.
    rewrite (round_comp _ (inject_Z (channelSum p q))).
    - apply round_Z. unfold channelSum. lia.
    - unfold channelSum. rewrite (inject_Z_plus _ (Z.abs (blue p - blue q))).
      rewrite E1, rounded_channel by assumption. reflexivity. }
  assert (E3 : fmul 3 255 == 765) by (vm_compute; reflexivity).
  rewrite E2, E3. reflexivity.
Qed.

(** The pixel loop is the rounded total of the shares. *)
Lemma rounded_pixel_loop ps1 :
  forall ps2 acc, length ps1 = length ps2 ->
  Forall byteChannels ps1 -> Forall byteChannels ps2 ->
  fold_left (Doubles.diffStep (raster ps1) (raster ps2))
            (map (fun k => (4 * k)%nat) (seq 0 (length ps1))) (Some acc)
  = Some (roundedTotal ps1 ps2 acc).
Proof.
  induction ps1 as [|p ps1 IH]; intros [|q ps2] acc Hlen H1 H2;
    simpl in Hlen; try discriminate; [reflexivity|].
  injection Hlen as Hlen.
  inversion H1 as [|? ? Hp H1']; inversion H2 as [|? ? Hq H2']; subst.
  change (length (p :: ps1)) with (S (length ps1)).
  rewrite <- cons_seq, <- seq_shift, map_cons, map_map.
  cbn [fold_left].
  change (raster (p :: ps1))
    with (red p :: green p :: blue p :: alpha p :: raster ps1).
  change (raster (q :: ps2))
    with (red q :: green q :: blue q :: alpha q :: raster ps2).
  rewrite (fold_left_map_ext _ (Doubles.diffStep (raster ps1) (raster ps2))
             (fun k => (4 * S k)%nat) (fun k => (4 * k)%nat)).
  - cbn [Doubles.diffStep Doubles.channelDiff nth_error Nat.mul Nat.add].
    rewrite rounded_share by assumption.
    cbn [roundedTotal]. apply IH; assumption.
  - intros a k. replace (4 * S k)%nat with (S (S (S (S (4 * k))))) by lia.
    reflexivity.
Qed.

Lemma rounded_pixelCount (ps : list Pixel) :
  (0 < length ps)%nat -> (Z.of_nat (length ps) <= 2 ^ 32)%Z ->
  fdiv (inject_Z (Z.of_nat (4 * length ps))) 4
  == inject_Z (Z.of_nat (length ps)).
Proof.
  intros H0 H1. unfold fdiv.
  rewrite (round_comp _ (inject_Z (Z.of_nat (length ps)))).
  - apply round_Z. lia.
  - rewrite Nat2Z.inj_mul, inject_Z_mult. change (inject_Z (Z.of_nat 4)) with 4.
    field.
Qed.

(** What the differencer returns on two rasters of bytes. *)
Lemma rounded_differencer_returns ps1 ps2 :
  length ps1 = length ps2 -> (0 < length ps1)%nat ->
  (Z.of_nat (length ps1) <= 2 ^ 32)%Z ->
  Forall byteChannels ps1 -> Forall byteChannels ps2 ->
  Doubles.calculateFrameDifference (raster ps1) (raster ps2)
  = Return (Some (roundedScore ps1 ps2)).
Proof.
  intros Hlen Hpos Hmax H1 H2. unfold Doubles.calculateFrameDifference.
  pose proof (rounded_pixelCount ps1 Hpos Hmax) as Hc.
  cbv zeta. rewrite !raster_length, pixelOffsets_4.
  rewrite rounded_pixel_loop by assumption.
  assert (Hnz : Qeq_bool (fdiv (inject_Z (Z.of_nat (4 * length ps1))) 4) 0
                = false).
  { destruct (Qeq_bool _ 0) eqn:E; [exfalso|reflexivity].
    apply Qeq_bool_iff in E. rewrite Hc in E.
    assert (1 <= inject_Z (Z.of_nat (length ps1)))
      by (change 1 with (inject_Z 1); rewrite <- Zle_Qle; lia).
    lra. }
  rewrite Hnz. do 2 f_equal. unfold roundedScore, fdiv.
  apply round_comp. now rewrite Hc.
Qed.

End RoundedDifferencer.

Section RoundedAccumulation.

(** A rounding of a number that is zero or at least 2^-10. *)
Lemma round_share x :
  x == 0 \/ pow2 (-10) <= x ->
  x * (1 - (1 # 9007199254740992)) <= round x
  /\ round x <= x * (1 + (1 # 9007199254740992))
  /\ (round x == 0 \/ pow2 (-10) <= round x).
Proof.
  intros [Z|H].
  - rewrite (round_0 x Z), Z. repeat split; lra.
  - assert (Hn : pow2 (-1022) <= x).
    { apply Qle_trans with (2 := H). apply pow2_le. lia. }
    destruct (round_error x Hn) as [L U].
    change (pow2 (-53)) with (1 # 9007199254740992) in L, U.
    repeat split; try assumption. right.
    apply round_mono in H. now rewrite round_pow2 in H by lia.
Qed.

(** One addition of the pixel loop: the running total stays within
    [m + 1] units of 2^-52 of the exact total when it was within [m]. *)
Lemma accumulate_step S e acc m :
  0 <= S -> (e == 0 \/ pow2 (-10) <= e) ->
  (acc == 0 \/ pow2 (-10) <= acc) ->
  1 <= m -> m <= 8589934592 ->
  S * (1 - m * (1 # 4503599627370496)) <= acc ->
  acc <= S * (1 + m * (1 # 4503599627370496)) ->
  (S + e) * (1 - (m + 1) * (1 # 4503599627370496)) <= fadd acc (round e)
  /\ fadd acc (round e) <= (S + e) * (1 + (m + 1) * (1 # 4503599627370496))
  /\ (fadd acc (round e) == 0 \/ pow2 (-10) <= fadd acc (round e)).
Proof.
  intros HS He Hacc Hm1 Hm2 L U.
  pose proof (pow2_pos (-10)) as P10.
  assert (He0 : 0 <= e) by (destruct He; lra).
  assert (Ha0 : 0 <= acc) by (destruct Hacc; lra).
  destruct (round_share e He) as (Lt & Ut & Nt).
  set (t := round e) in *. clearbody t.
  assert (Ht0 : 0 <= t) by (destruct Nt; lra).
  assert (Hsum : acc + t == 0 \/ pow2 (-10) <= acc + t)
    by (destruct Hacc, Nt; [left | right | right | right]; lra).
  destruct (round_share (acc + t) Hsum) as (La & Ua & Na).
  unfold fadd. set (A := round (acc + t)) in *. clearbody A.
  set (u := 1 # 9007199254740992) in *.
  set (v := 1 # 4503599627370496) in *.
  assert (P1 : 0 <= (S * (1 + m * v) - acc) * (1 + u))
    by (apply Qmult_le_0_compat; [lra | unfold u; lra]).
  assert (P2 : 0 <= (e * (1 + u) - t) * (1 + u))
    by (apply Qmult_le_0_compat; [lra | unfold u; lra]).
  assert (P3 : 0 <= S * (1 + (m + 1) * v - (1 + m * v) * (1 + u)))
    by (apply Qmult_le_0_compat; [lra | unfold u, v; lra]).
  assert (P4 : 0 <= e * (1 + (m + 1) * v - (1 + u) * (1 + u)))
    by (apply Qmult_le_0_compat; [lra | unfold u, v; lra]).
  assert (Q1 : 0 <= (acc - S * (1 - m * v)) * (1 - u))
    by (apply Qmult_le_0_compat; [lra | unfold u; lra]).
  assert (Q2 : 0 <= (t - e * (1 - u)) * (1 - u))
    by (apply Qmult_le_0_compat; [lra | unfold u; lra]).
  assert (Q3 : 0 <= S * ((1 - m * v) * (1 - u) - (1 - (m + 1) * v)))
    by (apply Qmult_le_0_compat; [lra | unfold u, v; lra]).
  assert (Q4 : 0 <= e * ((1 - u) * (1 - u) - (1 - (m + 1) * v)))
    by (apply Qmult_le_0_compat; [lra | unfold u, v; lra]).
  split; [|split; [|exact Na]].
  - unfold u, v in *. lra.
  - unfold u, v in *. lra.
Qed.

End RoundedAccumulation.

Section RoundedTotal.

Lemma channelSum_nonneg p q : (0 <= channelSum p q)%Z.
Proof. unfold channelSum. lia. Qed.

Lemma channelSum_byte p q :
  byteChannels p -> byteChannels q -> (channelSum p q <= 765)%Z.
Proof. unfold byteChannels, channelSum. lia. Qed.

Lemma sumAbsRGB_cons p q t1 t2 :
  sumAbsRGB (p :: t1) (q :: t2) = (channelSum p q + sumAbsRGB t1 t2)%Z.
Proof. reflexivity. Qed.

(** A pixel's exact share is zero or at least 1/765. *)
Lemma share_size p q :
  inject_Z (channelSum p q) / 765 == 0
  \/ pow2 (-10) <= inject_Z (channelSum p q) / 765.
Proof.
  pose proof (channelSum_nonneg p q) as H.
  destruct (Z.eq_dec (channelSum p q) 0) as [E|NE].
  - left. rewrite E. reflexivity.
  - right. assert (1 <= inject_Z (channelSum p q))
      by (change 1 with (inject_Z 1); rewrite <- Zle_Qle; lia).
    apply Qle_shift_div_l; [reflexivity|].
    change (pow2 (-10)) with (1 # 1024). lra.
Qed.

(** The rounded total against the exact one, [m] counting the
    roundings so far. *)
Lemma rounded_total_close ps1 :
  forall ps2 acc S m,
    length ps1 = length ps2 ->
    0 <= S -> (acc == 0 \/ pow2 (-10) <= acc) ->
    1 <= m -> m + inject_Z (Z.of_nat (length ps1)) <= 8589934592 ->
    S * (1 - m * (1 # 4503599627370496)) <= acc ->
    acc <= S * (1 + m * (1 # 4503599627370496)) ->
    let T := S + inject_Z (sumAbsRGB ps1 ps2) / 765 in
    let m' := m + inject_Z (Z.of_nat (length ps1)) in
    T * (1 - m' * (1 # 4503599627370496)) <= roundedTotal ps1 ps2 acc
    /\ roundedTotal ps1 ps2 acc <= T * (1 + m' * (1 # 4503599627370496))
    /\ (roundedTotal ps1 ps2 acc == 0 \/ pow2 (-10) <= roundedTotal ps1 ps2 acc).
Proof.
  induction ps1 as [|p ps1 IH]; intros [|q ps2] acc S m Hlen HS Hacc Hm1 Hm2 L U;
    simpl in Hlen; try discriminate.
  - cbn [roundedTotal sumAbsRGB length]. cbv zeta.
    change (inject_Z (Z.of_nat 0)) with 0.
    assert (E : S + inject_Z 0 / 765 == S) by (unfold Qdiv; ring).
    rewrite E. repeat split; try assumption.
    + setoid_replace (m + 0) with m by ring. exact L.
    + setoid_replace (m + 0) with m by ring. exact U.
  - injection Hlen as Hlen. cbn [roundedTotal]. cbv zeta.
    assert (Hl : inject_Z (Z.of_nat (length (p :: ps1)))
                 == inject_Z (Z.of_nat (length ps1)) + 1).
    { cbn [length]. rewrite Nat2Z.inj_succ. unfold Z.succ.
      now rewrite inject_Z_plus. }
    assert (Hn : 0 <= inject_Z (Z.of_nat (length ps1)))
      by (change 0 with (inject_Z 0); rewrite <- Zle_Qle; lia).
    rewrite Hl in Hm2 |- *.
    pose proof (channelSum_nonneg p q) as Hc.
    assert (He0 : 0 <= inject_Z (channelSum p q) / 765).
    { apply Qle_shift_div_l; [reflexivity|].
      change 0 with (inject_Z 0). rewrite Qmult_0_l. change 0 with (inject_Z 0).
      now rewrite <- Zle_Qle. }
    destruct (accumulate_step S (inject_Z (channelSum p q) / 765) acc m
                HS (share_size p q) Hacc Hm1 ltac:(lra) L U)
      as (L' & U' & N').
    destruct (IH ps2 (fadd acc (fdiv (inject_Z (channelSum p q)) 765))
                 (S + inject_Z (channelSum p q) / 765) (m + 1)
                 Hlen ltac:(lra) N' ltac:(lra) ltac:(lra) L' U')
      as (L2 & U2 & N2).
    cbv zeta in L2, U2.
    assert (ET : S + inject_Z (sumAbsRGB (p :: ps1) (q :: ps2)) / 765
                 == S + inject_Z (channelSum p q) / 765
                    + inject_Z (sumAbsRGB ps1 ps2) / 765).
    { rewrite sumAbsRGB_cons, inject_Z_plus. unfold Qdiv. ring. }
    assert (EM : m + (inject_Z (Z.of_nat (length ps1)) + 1)
                 == m + 1 + inject_Z (Z.of_nat (length ps1))) by ring.
    rewrite ET, EM. repeat split; assumption.
Qed.

(** The rounded total never exceeds the number of pixels added. *)
Lemma rounded_total_le ps1 :
  forall ps2 acc k,
    length ps1 = length ps2 ->
    Forall byteChannels ps1 -> Forall byteChannels ps2 ->
    (0 <= k)%Z -> (k + Z.of_nat (length ps1) <= 2 ^ 33)%Z ->
    0 <= acc -> acc <= inject_Z k ->
    0 <= roundedTotal ps1 ps2 acc
    /\ roundedTotal ps1 ps2 acc <= inject_Z (k + Z.of_nat (length ps1)).
Proof.
  induction ps1 as [|p ps1 IH]; intros [|q ps2] acc k Hlen H1 H2 Hk Hmax La Ua;
    simpl in Hlen; try discriminate.
  - cbn [roundedTotal length]. rewrite Z.add_0_r. now split.
  - injection Hlen as Hlen.
    inversion H1 as [|? ? Hp H1']; inversion H2 as [|? ? Hq H2']; subst.
    cbn [roundedTotal].
    pose proof (channelSum_nonneg p q) as Hc0.
    pose proof (channelSum_byte p q Hp Hq) as Hc1.
    assert (T0 : 0 <= inject_Z (channelSum p q) / 765).
    { apply Qle_shift_div_l; [reflexivity|]. rewrite Qmult_0_l.
      change 0 with (inject_Z 0). now rewrite <- Zle_Qle. }
    assert (T1 : inject_Z (channelSum p q) / 765 <= 1).
    { apply Qle_shift_div_r; [reflexivity|].
      change (1 * 765) with (inject_Z 765). now rewrite <- Zle_Qle. }
    assert (R0 : 0 <= fdiv (inject_Z (channelSum p q)) 765)
      by (now apply round_nonneg).
    assert (R1 : fdiv (inject_Z (channelSum p q)) 765 <= 1).
    { unfold fdiv. apply round_mono in T1.
      now rewrite (round_Z 1) in T1 by (cbn; lia). }
    destruct (IH ps2 (fadd acc (fdiv (inject_Z (channelSum p q)) 765))
                 (k + 1)%Z Hlen H1' H2' ltac:(lia)
                 ltac:(cbn [length] in Hmax; lia)) as [L U].
    + apply round_nonneg. lra.
    + unfold fadd. rewrite <- (round_Z (k + 1)) by (cbn [length] in Hmax; lia).
      apply round_mono. rewrite inject_Z_plus. change (inject_Z 1) with 1. lra.
    + split; [exact L|]. cbn [length].
      replace (k + Z.of_nat (S (length ps1)))%Z
        with (k + 1 + Z.of_nat (length ps1))%Z by lia.
      exact U.
Qed.

(** Black against white: every share is 1 and every partial total an
    integer, so nothing is rounded. *)
Lemma rounded_total_full ps1 :
  forall ps2 acc k,
    length ps1 = length ps2 ->
    (Forall isBlack ps1 /\ Forall isWhite ps2)
    \/ (Forall isWhite ps1 /\ Forall isBlack ps2) ->
    (0 <= k)%Z -> (k + Z.of_nat (length ps1) <= 2 ^ 33)%Z ->
    acc == inject_Z k ->
    roundedTotal ps1 ps2 acc == inject_Z (k + Z.of_nat (length ps1)).
Proof.
  induction ps1 as [|p ps1 IH]; intros [|q ps2] acc k Hlen H Hk Hmax Ha;
    simpl in Hlen; try discriminate.
  - cbn [roundedTotal length]. now rewrite Z.add_0_r.
  - injection Hlen as Hlen. cbn [roundedTotal length] in *.
    replace (k + Z.of_nat (S (length ps1)))%Z
      with (k + 1 + Z.of_nat (length ps1))%Z by lia.
    assert (Hc : channelSum p q = 765%Z).
    { destruct H as [[A B]|[A B]];
        inversion A as [|? ? Hp _]; inversion B as [|? ? Hq _]; subst;
        unfold isBlack, isWhite, channelSum in *; lia. }
    apply IH; try lia; try assumption.
    + destruct H as [[A B]|[A B]]; [left|right];
        inversion A; inversion B; subst; split; assumption.
    + unfold fadd. rewrite (round_comp _ (inject_Z (k + 1))).
      * apply round_Z. lia.
      * rewrite Hc. rewrite Ha, inject_Z_plus.
        assert (E : fdiv (inject_Z 765) 765 == 1) by (vm_compute; reflexivity).
        rewrite E. reflexivity.
Qed.

End RoundedTotal.

(** C5.  The differencer on the binary64 numbers of the code.  For two
    rasters of the same number P of pixels, 1 <= P <= 2^32, whose
    channels are bytes, the call returns the formula
    (sum over pixels of |dr| + |dg| + |db|) / (3 * 255 * P) as the code
    evaluates it: every pixel's share rounded, the shares added in
    pixel order with a rounding after each addition, the total divided
    by P.  Alpha plays no part.  The result lies within a relative
    (P + 2) * 2^-52 of the exact quotient and in [0, 1]; it is 0
    exactly when the rasters agree on every red, green and blue value,
    and exactly 1 for black against white. *)
Theorem differencer_rounded_formula (ps1 ps2 : list Pixel) :
  length ps1 = length ps2 ->
  (0 < length ps1)%nat ->
  (Z.of_nat (length ps1) <= 2 ^ 32)%Z ->
  Forall byteChannels ps1 ->
  Forall byteChannels ps2 ->
  exists s,
    Doubles.calculateFrameDifference (raster ps1) (raster ps2) = Return (Some s)
    /\ s = roundedScore ps1 ps2
    /\ within ((inject_Z (Z.of_nat (length ps1)) + 2) * pow2 (-52))
              s (formulaScore ps1 ps2)
    /\ 0 <= s <= 1
    /\ (s == 0 <-> sumAbsRGB ps1 ps2 = 0%Z)
    /\ ((Forall isBlack ps1 /\ Forall isWhite ps2)
        \/ (Forall isWhite ps1 /\ Forall isBlack ps2) -> s == 1).
Proof.
  intros Hlen Hpos Hmax H1 H2. exists (roundedScore ps1 ps2).
  split; [now apply rounded_differencer_returns|]. split; [reflexivity|].
  set (P := inject_Z (Z.of_nat (length ps1))).
  assert (HP1 : 1 <= P)
    by (unfold P; change 1 with (inject_Z 1); rewrite <- Zle_Qle; lia).
  assert (HP2 : P <= 4294967296)
    by (unfold P; change 4294967296 with (inject_Z (2 ^ 32));
        rewrite <- Zle_Qle; lia).
  pose proof (sumAbsRGB_nonneg ps1 ps2) as Hs0.
  assert (HS0 : 0 <= inject_Z (sumAbsRGB ps1 ps2))
    by (change 0 with (inject_Z 0); now rewrite <- Zle_Qle).
  set (T := inject_Z (sumAbsRGB ps1 ps2) / 765).
  assert (HT0 : 0 <= T).
  { unfold T. apply Qle_shift_div_l; [reflexivity|]. now rewrite Qmult_0_l. }
  assert (EF : formulaScore ps1 ps2 == T / P).
  { unfold formulaScore, T. fold P. field. lra. }
  assert (HF0 : 0 <= T / P) by (apply Qle_shift_div_l; [lra|]; lra).
  (* the rounded total against the exact one *)
  destruct (rounded_total_close ps1 ps2 0 0 1 Hlen ltac:(lra) ltac:(now left)
              ltac:(lra) ltac:(fold P; lra) ltac:(lra) ltac:(lra))
    as (L & U & N).
  cbv zeta in L, U. fold P in L, U.
  assert (ET : 0 + inject_Z (sumAbsRGB ps1 ps2) / 765 == T) by (unfold T; ring).
  rewrite ET in L, U. clear ET.
  set (total := roundedTotal ps1 ps2 0) in *.
  assert (Htot0 : 0 <= total)
    by (destruct N; [lra | pose proof (pow2_pos (-10)); lra]).
  (* the quotient before its rounding *)
  set (x := total / P).
  assert (Lx : T / P * (1 - (1 + P) * (1 # 4503599627370496)) <= x).
  { assert (E : T / P * (1 - (1 + P) * (1 # 4503599627370496))
                == T * (1 - (1 + P) * (1 # 4503599627370496)) * / P)
      by (field; lra).
    rewrite E. unfold x, Qdiv.
    apply Qmult_le_compat_r; [exact L|]. apply Qinv_le_0_compat. lra. }
  assert (Ux : x <= T / P * (1 + (1 + P) * (1 # 4503599627370496))).
  { assert (E : T / P * (1 + (1 + P) * (1 # 4503599627370496))
                == T * (1 + (1 + P) * (1 # 4503599627370496)) * / P)
      by (field; lra).
    rewrite E. unfold x, Qdiv.
    apply Qmult_le_compat_r; [exact U|]. apply Qinv_le_0_compat. lra. }
  assert (Hx0 : 0 <= x) by (unfold x; apply Qle_shift_div_l; lra).
  assert (Hs : x * (1 - (1 # 9007199254740992)) <= roundedScore ps1 ps2
               /\ roundedScore ps1 ps2 <= x * (1 + (1 # 9007199254740992))).
  { unfold roundedScore. fold total P x. unfold fdiv. fold x.
    destruct N as [Z|Nn].
    - assert (Zx : x == 0) by (unfold x; rewrite Z; unfold Qdiv; ring).
      rewrite (round_0 x Zx), Zx. split; lra.
    - assert (Hn : pow2 (-1022) <= x).
      { unfold x. apply Qle_shift_div_l; [lra|].
        apply Qle_trans with (pow2 (-42) * 4294967296).
        - apply Qmult_le_compat_nonneg.
          + split; [apply Qlt_le_weak, pow2_pos | apply pow2_le; lia].
          + split; lra.
        - assert (E : pow2 (-42) * 4294967296 == pow2 (-10))
            by (vm_compute; reflexivity).
          rewrite E. exact Nn. }
      destruct (round_error x Hn) as [Lr Ur].
      change (pow2 (-53)) with (1 # 9007199254740992) in Lr, Ur. now split. }
  destruct Hs as [Ls Us]. set (s := roundedScore ps1 ps2) in *.
  set (F := T / P) in *.
  assert (W : F * (1 - (P + 2) * (1 # 4503599627370496)) <= s
              /\ s <= F * (1 + (P + 2) * (1 # 4503599627370496))).
  { set (u := 1 # 9007199254740992) in *.
    set (v := 1 # 4503599627370496) in *.
    assert (P1 : 0 <= (F * (1 + (1 + P) * v) - x) * (1 + u))
      by (apply Qmult_le_0_compat; [lra | unfold u; lra]).
    assert (P3 : 0 <= F * (1 + (P + 2) * v - (1 + (1 + P) * v) * (1 + u)))
      by (apply Qmult_le_0_compat; [lra | unfold u, v; lra]).
    assert (Q1 : 0 <= (x - F * (1 - (1 + P) * v)) * (1 - u))
      by (apply Qmult_le_0_compat; [lra | unfold u; lra]).
    assert (Q3 : 0 <= F * ((1 - (1 + P) * v) * (1 - u) - (1 - (P + 2) * v)))
      by (apply Qmult_le_0_compat; [lra | unfold u, v; lra]).
    unfold u, v in *. split; lra. }
  destruct W as [Wl Wu].
  split; [|split; [|split]].
  - unfold within. rewrite EF. fold F.
    change (pow2 (-52)) with (1 # 4503599627370496).
    apply Qabs_Qle_condition. split; lra.
  - destruct (rounded_total_le ps1 ps2 0 0 Hlen H1 H2 ltac:(lia) ltac:(lia)
                ltac:(lra) ltac:(apply Qle_refl)) as [_ Ht].
    rewrite Z.add_0_l in Ht. fold total P in Ht. split.
    + unfold s, roundedScore, fdiv. now apply round_nonneg.
    + unfold s, roundedScore, fdiv. fold total P x.
      assert (X1 : x <= 1) by (unfold x; apply Qle_shift_div_r; lra).
      apply round_mono in X1. now rewrite (round_Z 1) in X1 by (cbn; lia).
  - split.
    + intros Z. rewrite Z in Wl.
      assert (K : 0 < 1 - (P + 2) * (1 # 4503599627370496)) by lra.
      assert (HF : F <= 0).
      { destruct (Qlt_le_dec 0 F) as [C|C]; [exfalso|exact C].
        pose proof (Qmult_lt_0_compat _ _ C K). lra. }
      assert (HT : T <= 0).
      { destruct (Qlt_le_dec 0 T) as [C|C]; [exfalso|exact C].
        assert (0 < F) by (unfold F; apply Qlt_shift_div_l; lra). lra. }
      assert (HZ : inject_Z (sumAbsRGB ps1 ps2) <= 0).
      { destruct (Qlt_le_dec 0 (inject_Z (sumAbsRGB ps1 ps2))) as [C|C];
          [exfalso|exact C].
        assert (0 < T) by (unfold T; apply Qlt_shift_div_l; lra). lra. }
      change 0 with (inject_Z 0) in HZ. rewrite <- Zle_Qle in HZ. lia.
    + intros E.
      assert (F0 : F == 0) by (unfold F, T; rewrite E; reflexivity).
      rewrite F0 in Wl, Wu. lra.
  - intros Hbw.
    pose proof (rounded_total_full ps1 ps2 0 0 Hlen Hbw ltac:(lia) ltac:(lia)
                  ltac:(reflexivity)) as Ht.
    rewrite Z.add_0_l in Ht. fold total P in Ht.
    unfold s, roundedScore, fdiv. fold total P.
    rewrite (round_comp _ 1); [now apply round_Z|].
    rewrite Ht. field. lra.
Qed.

(** The formula of C5 is not what the code returns: on four pixels
    whose channel differences add up to 765 the exact formula gives
    1/4, the code 0.24999999999999997 ((2^53 - 1) / 2^55), which
    is below a sensitivity of 1/4. *)
Lemma differencer_not_exact :
  length Cases.darkPixels = length Cases.litPixels
  /\ formulaScore Cases.darkPixels Cases.litPixels == 1 # 4
  /\ Doubles.calculateFrameDifference (raster Cases.darkPixels)
                                      (raster Cases.litPixels)
     = Return (Some (9007199254740991 # 36028797018963968))
  /\ 9007199254740991 # 36028797018963968 < 1 # 4
  /\ pushIfChange [] 1 (Some (9007199254740991 # 36028797018963968)) (1 # 4)
     = [].
Proof.
  split; [reflexivity|]. split; [reflexivity|].
  split; [vm_compute; reflexivity|]. split; reflexivity.
Qed.

(** ** The floor in binary64 *)

Section RoundedFloor.

Variable D : Q.
Variable N : Z.
Hypothesis HD : 2 <= D.
Hypothesis HN1 : (1 <= N)%Z.
Hypothesis HN : (N <= 2 ^ 32)%Z.

Lemma floor_spacing_normal : pow2 (-1022) * (inject_Z N + 1) <= D.
Proof.
  destruct (count_bounds N HN1 HN) as [B1 B2].
  change (inject_Z (2 ^ 32)) with 4294967296 in B2.
  apply Qle_trans with (2 := HD).
  apply Qle_trans with (pow2 (-1022) * 4294967297); [|vm_compute; discriminate].
  apply Qmult_le_l; [apply pow2_pos | lra].
Qed.

(** [timestamp * 10] of the equal-interval point [i], after its three
    roundings, against the exact [10 * i * D / (N + 1)]. *)
Lemma rounded_tenth_bounds i :
  (1 <= i)%Z ->
  let x := fmul (fmul (inject_Z i) (fdiv D (fadd (inject_Z N) 1))) 10 in
  let e := inject_Z i * (D / (inject_Z N + 1)) in
  10 * e * (1 - pow2 (-50)) <= x /\ x <= 10 * e * (1 + pow2 (-50)).
Proof.
  intros Hi. cbv zeta.
  destruct (rounded_point_bounds D N HN1 HN floor_spacing_normal i Hi) as [L U].
  cbv zeta in L, U.
  pose proof (rounded_point_pos D N HN1 HN floor_spacing_normal i Hi) as Pt.
  pose proof (spacing_normal D N HN1 HN floor_spacing_normal) as Sn.
  pose proof (pow2_pos (-1022)) as P.
  set (t := fmul (inject_Z i) (fdiv D (fadd (inject_Z N) 1))) in *.
  set (e := inject_Z i * (D / (inject_Z N + 1))) in *.
  assert (Hi' : 1 <= inject_Z i)
    by (change 1 with (inject_Z 1); now rewrite <- Zle_Qle).
  assert (He : pow2 (-1022) <= e).
  { unfold e. assert (0 <= (inject_Z i - 1) * (D / (inject_Z N + 1)))
      by (apply Qmult_le_0_compat; lra). lra. }
  change (pow2 (-51)) with (1 # 2251799813685248) in L, U.
  assert (Hn : pow2 (-1022) <= t * 10).
  { assert (0 <= e * (1 # 2)) by (apply Qmult_le_0_compat; lra). lra. }
  destruct (round_error (t * 10) Hn) as [Lr Ur]. unfold fmul.
  change (pow2 (-53)) with (1 # 9007199254740992) in Lr, Ur.
  change (pow2 (-50)) with (1 # 1125899906842624).
  set (x := round (t * 10)) in *. clearbody x t.
  assert (0 <= e) by lra.
  split; lra.
Qed.

(** Equal-interval points whose indices differ by at least (N+1)/10
    differ in the key of the duplicate filter. *)
Lemma rounded_keys_lt i j :
  (1 <= i)%Z -> (i < j)%Z -> (j <= N)%Z -> (N + 1 <= 10 * (j - i))%Z ->
  (Math_round (fmul (fmul (inject_Z i) (fdiv D (fadd (inject_Z N) 1))) 10)
   < Math_round (fmul (fmul (inject_Z j) (fdiv D (fadd (inject_Z N) 1))) 10))%Z.
Proof.
  intros Hi Hij Hj Hgap. unfold Math_round. apply Qfloor_gap.
  destruct (rounded_tenth_bounds i Hi) as [_ U].
  destruct (rounded_tenth_bounds j ltac:(lia)) as [L _]. cbv zeta in L, U.
  pose proof (spacing_total D N HN1 HN) as St.
  pose proof (spacing_pos D N HN1 HN floor_spacing_normal) as Sp.
  set (a := D / (inject_Z N + 1)) in *.
  set (xi := fmul (fmul (inject_Z i) (fdiv D (fadd (inject_Z N) 1))) 10) in *.
  set (xj := fmul (fmul (inject_Z j) (fdiv D (fadd (inject_Z N) 1))) 10) in *.
  clearbody xi xj a.
  change (pow2 (-50)) with (1 # 1125899906842624) in L, U.
  assert (Hi' : 1 <= inject_Z i)
    by (change 1 with (inject_Z 1); now rewrite <- Zle_Qle).
  assert (Hj' : inject_Z j <= inject_Z N) by (now rewrite <- Zle_Qle).
  assert (Hn' : 1 <= inject_Z N)
    by (change 1 with (inject_Z 1); now rewrite <- Zle_Qle).
  assert (Hg' : inject_Z N + 1 <= 10 * (inject_Z j - inject_Z i)).
  { rewrite Zle_Qle in Hgap. rewrite inject_Z_plus, inject_Z_mult in Hgap.
    unfold Z.sub in Hgap. rewrite inject_Z_plus, inject_Z_opp in Hgap.
    change (inject_Z 1) with 1 in Hgap. change (inject_Z 10) with 10 in Hgap.
    lra. }
  set (c := 1 # 1125899906842624) in *.
  assert (K : 0 <= 10 * a * ((inject_Z j * (1 - c) - inject_Z i * (1 + c))
                             - (inject_Z N + 1) * ((1 # 10) - 2 * c))).
  { apply Qmult_le_0_compat; [lra|]. unfold c. lra. }
  unfold c in *. lra.
Qed.

(** There are min(3, N) equal-interval points with pairwise different
    keys. *)
Lemma rounded_spread_points :
  exists W,
    incl W (Doubles.generateEqualIntervals D N)
    /\ NoDup (map Doubles.tenthKey W)
    /\ Z.of_nat (length W) = Z.min 3 N.
Proof.
  set (itv := fdiv D (fadd (inject_Z N) 1)).
  set (pt := fun i => {| timestamp := fmul (inject_Z i) itv; changeScore := 0 |}).
  assert (Hin : forall i, (1 <= i <= N)%Z ->
                          In (pt i) (Doubles.generateEqualIntervals D N)).
  { intros i Hi. unfold Doubles.generateEqualIntervals. fold itv.
    apply in_map_iff. exists i. split; [reflexivity | now apply in_range1]. }
  assert (Hk : forall i j, (1 <= i)%Z -> (i < j)%Z -> (j <= N)%Z ->
                 (N + 1 <= 10 * (j - i))%Z ->
                 (Doubles.tenthKey (pt i) < Doubles.tenthKey (pt j))%Z).
  { intros i j. unfold Doubles.tenthKey, pt. cbn [timestamp].
    apply rounded_keys_lt. }
  destruct (Z.eq_dec N 1) as [H1|H1]; [|destruct (Z.eq_dec N 2) as [H2|H2]].
  - exists [pt 1%Z]. split; [|split].
    + intros x [<-|[]]. apply Hin. lia.
    + repeat constructor. intros [].
    + cbn. lia.
  - exists [pt 1%Z; pt 2%Z]. split; [|split].
    + intros x [<-|[<-|[]]]; apply Hin; lia.
    + pose proof (Hk 1%Z 2%Z ltac:(lia) ltac:(lia) ltac:(lia) ltac:(lia)) as K.
      cbn [map]. repeat constructor; cbn [In]; [lia | tauto].
    + cbn. lia.
  - set (m := ((N + 1) / 2)%Z).
    assert (Hm : (2 * m <= N + 1 < 2 * m + 2)%Z).
    { unfold m. pose proof (Z.div_mod (N + 1) 2 ltac:(lia)).
      pose proof (Z.mod_pos_bound (N + 1) 2 ltac:(lia)). lia. }
    exists [pt 1%Z; pt m; pt N]. split; [|split].
    + intros x [<-|[<-|[<-|[]]]]; apply Hin; lia.
    + pose proof (Hk 1%Z m ltac:(lia) ltac:(lia) ltac:(lia) ltac:(lia)) as K1.
      pose proof (Hk m N ltac:(lia) ltac:(lia) ltac:(lia) ltac:(lia)) as K2.
      cbn [map]. repeat constructor; cbn [In]; [lia | lia | tauto].
    + cbn. lia.
Qed.

End RoundedFloor.

Section RoundedBackfill.

(** The duplicate filter removes at most one point of distinct key per
    existing key. *)
Lemma rounded_filter_keeps (existing : list Z) (W eqs : list ChangePoint) :
  incl W eqs ->
  NoDup (map Doubles.tenthKey W) ->
  (length W
   <= length existing
      + length (filter (Doubles.notExisting existing) eqs))%nat.
Proof.
  intros Hincl Hnd.
  set (keep := Doubles.notExisting existing).
  assert (H1 : (length (map Doubles.tenthKey W)
                <= length (existing
                           ++ map Doubles.tenthKey (filter keep W)))%nat).
  { apply NoDup_incl_length; [exact Hnd|].
    intros k Hk. apply in_map_iff in Hk as (w & <- & Hw).
    apply in_or_app.
    destruct (existsb (Z.eqb (Doubles.tenthKey w)) existing) eqn:E.
    - left. now apply existsb_eqb_In.
    - right. apply in_map, filter_In. split; [exact Hw|].
      unfold keep, Doubles.notExisting. now rewrite E. }
  assert (H2 : (length (filter keep W) <= length (filter keep eqs))%nat).
  { apply NoDup_incl_length.
    - apply NoDup_filter. exact (NoDup_map_inv _ _ Hnd).
    - intros x Hx. apply filter_In in Hx as [Hx Hk].
      apply filter_In. split; [now apply Hincl | exact Hk]. }
  rewrite length_app, !length_map in H1. lia.
Qed.

Lemma rounded_backfill_length frameTimestamps d maxFrames :
  (0 <= maxFrames)%Z ->
  length (Doubles.backfill frameTimestamps d maxFrames)
  = Nat.min (Z.to_nat maxFrames)
      (length frameTimestamps
       + length (filter (Doubles.notExisting
                           (map Doubles.tenthKey frameTimestamps))
                        (Doubles.generateEqualIntervals d maxFrames))).
Proof.
  intros H0. unfold Doubles.backfill, Doubles.pushEqualFrames.
  rewrite slice0_length by exact H0.
  rewrite (Permutation_length (Array_sort_perm _ _)), length_app.
  reflexivity.
Qed.

Lemma rounded_backfill_floor consolidated D N :
  2 <= D -> (1 <= N)%Z -> (N <= 2 ^ 32)%Z ->
  (Z.min 3 N <= Z.of_nat (length (Doubles.backfill consolidated D N)))%Z.
Proof.
  intros HD HN1 HN. rewrite rounded_backfill_length by lia.
  destruct (rounded_spread_points D N HD HN1 HN) as (W & Hincl & Hnd & Hlen).
  pose proof (rounded_filter_keeps (map Doubles.tenthKey consolidated) W _
                Hincl Hnd) as H.
  rewrite length_map in H. lia.
Qed.

(** What the duplicate filter lets through. *)
Lemma rounded_fresh_spec kept p :
  Doubles.notExisting (map Doubles.tenthKey kept) p = true
  <-> forall c, In c kept ->
        Math_round (fmul (timestamp p) 10) <> Math_round (fmul (timestamp c) 10).
Proof.
  unfold Doubles.notExisting. rewrite negb_true_iff, <- not_true_iff_false.
  rewrite existsb_eqb_In. split.
  - intros H c Hc E. apply H. apply in_map_iff. exists c. split; [|exact Hc].
    unfold Doubles.tenthKey. now rewrite E.
  - intros H Hin. apply in_map_iff in Hin as (c & E & Hc).
    apply (H c Hc). unfold Doubles.tenthKey in E. now rewrite E.
Qed.

(** The filter written out on the keys of the detections. *)
Lemma rounded_fresh_filter kept equalFrames :
  filter (Doubles.notExisting (map Doubles.tenthKey kept)) equalFrames
  = filter (fun p =>
              forallb (fun c =>
                         negb (Math_round (fmul (timestamp p) 10)
                               =? Math_round (fmul (timestamp c) 10))%Z)
                      kept)
           equalFrames.
Proof.
  apply filter_ext. intros p. unfold Doubles.notExisting, Doubles.tenthKey.
  induction kept as [|c kept IH]; [reflexivity|].
  cbn [map existsb forallb]. rewrite negb_orb. now rewrite IH.
Qed.

End RoundedBackfill.

Section RoundedRuns.

Variable video : Video.
Hypothesis Hctx : context2d video = true.

Lemma rounded_scanLoop_returns sens steps :
  forall prev changes,
    exists raw, Doubles.scanLoop video sens steps prev changes = Return raw.
Proof.
  induction steps as [|i rest IH]; intros prev changes; cbn [Doubles.scanLoop].
  - now exists changes.
  - unfold seekAndCapture. rewrite Hctx. cbn [bind].
    destruct prev as [prev|]; cbn [bind]; apply IH.
Qed.

Lemma rounded_scan_returns sens :
  exists raw, Doubles.detectSceneChanges video sens = Return raw.
Proof. apply rounded_scanLoop_returns. Qed.

End RoundedRuns.

(** C3.  The floor, on the binary64 numbers of the code.  An
    automatic-mode run (with metadata and a drawing context) on a video
    of duration at least (MIN_FRAMES + 1) * SCAN_INTERVAL = 2 s, for at
    most 2^32 frames, returns at least min(MIN_FRAMES, maxFrames)
    frames.  With MIN_FRAMES or more consolidated detections the frames
    are the detections.  With fewer, the detections are followed by
    the equal-interval points whose [Math.round(timestamp * 10)] is not
    that of a detection, in their order, and by no other point; the
    merged list is sorted by time and cut to [maxFrames]. *)
Theorem floor_respected_rounded (video : Video) (options : PartialOptions) :
  loads video = true ->
  context2d video = true ->
  mode (Doubles.mergeOptions options) = auto ->
  (inject_Z MIN_FRAMES + 1) * SCAN_INTERVAL <= duration video ->
  let N := maxFrames (Doubles.mergeOptions options) in
  (N <= 2 ^ 32)%Z ->
  exists raw frames,
    Doubles.detectSceneChanges video (sensitivity (Doubles.mergeOptions options))
    = Return raw
    /\ Doubles.extractFrames video options = Return frames
    /\ (Z.min MIN_FRAMES N <= Z.of_nat (length frames))%Z
    /\ let kept := Doubles.consolidateChanges raw N in
       ((MIN_FRAMES <= Z.of_nat (length kept))%Z ->
        frames = map (captureAt video) kept)
       /\ ((Z.of_nat (length kept) < MIN_FRAMES)%Z ->
           exists fresh,
             frames = map (captureAt video)
                          (slice0 N (Array_sort Doubles.byTime (kept ++ fresh)))
             /\ fresh
                = filter (fun p =>
                            forallb (fun c =>
                                       negb (Math_round (fmul (timestamp p) 10)
                                             =? Math_round (fmul (timestamp c) 10))%Z)
                                    kept)
                         (Doubles.generateEqualIntervals (duration video) N)
             /\ forall p,
                 In p fresh
                 <-> In p (Doubles.generateEqualIntervals (duration video) N)
                     /\ forall c, In c kept ->
                          Math_round (fmul (timestamp p) 10)
                          <> Math_round (fmul (timestamp c) 10)).
Proof.
  intros Hl Hc Hm HD N HN.
  destruct (rounded_scan_returns video Hc
              (sensitivity (Doubles.mergeOptions options))) as [raw Hraw].
  assert (HD2 : 2 <= duration video).
  { unfold MIN_FRAMES, SCAN_INTERVAL in HD. change (inject_Z 3) with 3 in HD. lra. }
  set (kept := Doubles.consolidateChanges raw N).
  set (ft := if (Z.of_nat (length kept) <? MIN_FRAMES)%Z
             then Doubles.backfill kept (duration video) N else kept).
  assert (Hrun : Doubles.extractFrames video options
                 = Return (map (captureAt video) ft)).
  { unfold Doubles.extractFrames. cbv zeta. rewrite Hl.
    unfold Doubles.selectTimestamps. rewrite Hm, Hraw. cbn [bind].
    fold N kept.
    assert (E : (if (Z.of_nat (length kept) <? MIN_FRAMES)%Z
                 then Return (Doubles.backfill kept (duration video) N)
                 else Return kept) = Return ft)
      by (unfold ft; now destruct (_ <? _)%Z).
    rewrite E. cbn [bind]. unfold captureFrames. rewrite Hc.
    now destruct ft. }
  exists raw, (map (captureAt video) ft).
  split; [exact Hraw|]. split; [exact Hrun|]. rewrite length_map.
  fold kept. unfold ft.
  destruct (Z.ltb_spec (Z.of_nat (length kept)) MIN_FRAMES) as [Hlt|Hge].
  - split; [|split; [unfold MIN_FRAMES in *; lia|]].
    + destruct (Z.le_gt_cases 1 N) as [HN1|HN1]; [|unfold MIN_FRAMES; lia].
      now apply rounded_backfill_floor.
    + intros _.
      exists (filter (Doubles.notExisting (map Doubles.tenthKey kept))
                     (Doubles.generateEqualIntervals (duration video) N)).
      split; [reflexivity|]. split; [apply rounded_fresh_filter|].
      intros p. rewrite filter_In, rounded_fresh_spec. tauto.
  - split; [unfold MIN_FRAMES in *; lia|].
    split; [reflexivity | intros H; lia].
Qed.

(** The duplicate filter works on the rounded timestamps.  On the
    8.25 s video with a cut at 5 s and four frames the third
    equal-interval point is 4.949999999999999 in binary64: its key
    [Math.round(timestamp * 10)] is 49, so it is kept next to the
    detection at 5 s.  On exact rationals the point is 4.95 with key
    50, and it is filtered out. *)
Lemma cut_at_five_frames :
  exists frames exact,
    Doubles.extractFrames Cases.cutAtFive
                          (Samples.optionsOf auto 4 (round (15 # 100)))
    = Return frames
    /\ map f_timestamp frames
       = [3715469692580659 # 2251799813685248;
          3715469692580659 # 1125899906842624;
          1393301134717747 # 281474976710656;
          5]
    /\ Math_round (fmul (1393301134717747 # 281474976710656) 10) = 49%Z
    /\ extractFrames Cases.cutAtFive (Samples.optionsOf auto 4 (15 # 100))
       = Return exact
    /\ map Qred (map f_timestamp exact) = [33 # 20; 33 # 10; 5; 33 # 5]
    /\ Math_round ((3 * ((33 # 4) / 5)) * 10) = 50%Z.
Proof.
  eexists. eexists. split; [vm_compute; reflexivity|].
  split; [vm_compute; reflexivity|]. split; [vm_compute; reflexivity|].
  split; [vm_compute; reflexivity|]. split; vm_compute; reflexivity.
Qed.


(** ** Scan times in binary64 *)

Section RoundedScan.

(** A rounding below 2^k moves a number by at most 2^(k-53). *)
Lemma round_abs_error x k :
  0 <= x -> x <= pow2 k -> (-1022 <= k)%Z ->
  x - pow2 (k - 53) <= round x /\ round x <= x + pow2 (k - 53).
Proof.
  intros H0 Hk Hmin. pose proof (pow2_pos (k - 53)) as Pk.
  destruct (Qeq_dec x 0) as [Z|NZ].
  - rewrite (round_0 x Z), Z. split; lra.
  - assert (Hx : 0 < x)
      by (destruct (Qlt_le_dec 0 x); [assumption | exfalso; apply NZ; lra]).
    rewrite round_pos by exact Hx.
    destruct (roundPos_error x Hx) as [L U].
    assert (Hl : (lastPlace x <= k - 52)%Z).
    { destruct (ilog2_spec x Hx) as [S1 _].
      assert (A : (ilog2 x < k + 1)%Z).
      { apply pow2_lt_inv. apply Qle_lt_trans with (1 := S1).
        apply Qle_lt_trans with (1 := Hk). apply pow2_lt. lia. }
      unfold lastPlace. lia. }
    assert (E : pow2 (lastPlace x) / 2 <= pow2 (k - 53)).
    { apply Qle_shift_div_r; [reflexivity|].
      rewrite Qmult_comm, <- pow2_succ. apply pow2_le. lia. }
    split; lra.
Qed.

Variable video : Video.
Hypothesis Hmin : Doubles.SCAN_MARGIN <= duration video.
Hypothesis Hmax : duration video <= pow2 40.

Lemma margin_value :
  (1 # 100) < Doubles.SCAN_MARGIN /\ Doubles.SCAN_MARGIN < (1 # 99).
Proof. split; vm_compute; reflexivity. Qed.

(** [duration - 0.01] after its rounding. *)
Lemma rounded_end :
  0 <= fsub (duration video) Doubles.SCAN_MARGIN
  /\ duration video - (1 # 90) <= fsub (duration video) Doubles.SCAN_MARGIN
  /\ fsub (duration video) Doubles.SCAN_MARGIN <= duration video - (1 # 110).
Proof.
  destruct margin_value as [M1 M2]. unfold fsub.
  set (c := Doubles.SCAN_MARGIN) in *. clearbody c.
  assert (H0 : 0 <= duration video - c) by lra.
  destruct (round_abs_error (duration video - c) 40 H0 ltac:(lra) ltac:(lia))
    as [L U].
  change (pow2 (40 - 53)) with (1 # 8192) in L, U.
  split; [now apply round_nonneg|]. split; lra.
Qed.

Lemma rounded_totalScans :
  inject_Z (Doubles.totalScans video) <= 2 * duration video + (1 # 4096)
  /\ (0 <= Doubles.totalScans video < 2 ^ 42)%Z.
Proof.
  destruct margin_value as [M1 _].
  unfold Doubles.totalScans, Math_floor, fdiv, SCAN_INTERVAL.
  assert (E : duration video / (1 # 2) == 2 * duration video) by field.
  rewrite (round_comp _ _ E).
  destruct (round_abs_error (2 * duration video) 41 ltac:(lra)
              ltac:(change (pow2 41) with (2 * pow2 40); lra) ltac:(lia))
    as [L U].
  change (pow2 (41 - 53)) with (1 # 4096) in L, U.
  pose proof (Qfloor_le (round (2 * duration video))) as Fl.
  split; [lra|]. split.
  - apply (Z.le_trans _ (Qfloor 0)); [reflexivity|].
    apply Qfloor_resp_le. apply round_nonneg. lra.
  - rewrite Zlt_Qlt. apply Qle_lt_trans with (1 := Fl).
    apply Qle_lt_trans with (1 := U).
    change (pow2 40) with 1099511627776 in Hmax.
    change (inject_Z (2 ^ 42)) with 4398046511104. lra.
Qed.

Lemma rounded_step_time i :
  (0 <= i < 2 ^ 42)%Z -> fmul (inject_Z i) SCAN_INTERVAL == inject_Z i * (1 # 2).
Proof.
  intros Hi. unfold fmul, SCAN_INTERVAL.
  apply (round_exact _ i (-1)); [lia | lia | reflexivity].
Qed.

Lemma rounded_scanTime_inside i :
  (0 <= i <= Doubles.totalScans video)%Z ->
  0 <= Doubles.scanTime video i /\ Doubles.scanTime video i < duration video.
Proof.
  intros Hi. destruct rounded_end as (E0 & _ & E2).
  destruct rounded_totalScans as [_ T].
  unfold Doubles.scanTime, Math_min.
  assert (Hi0 : 0 <= inject_Z i)
    by (change 0 with (inject_Z 0); rewrite <- Zle_Qle; lia).
  pose proof (rounded_step_time i ltac:(lia)) as St.
  split.
  - apply Q.min_glb; [rewrite St; lra | exact E0].
  - apply Qle_lt_trans with (1 := Q.le_min_r _ _). lra.
Qed.

Lemma rounded_scanTime_lt i j :
  (0 <= i)%Z -> (i < j)%Z -> (j <= Doubles.totalScans video)%Z ->
  Doubles.scanTime video i < Doubles.scanTime video j.
Proof.
  intros Hi Hij Hj. destruct rounded_end as (_ & E1 & _).
  destruct rounded_totalScans as [T1 T2].
  unfold Doubles.scanTime, Math_min.
  pose proof (rounded_step_time i ltac:(lia)) as Si.
  pose proof (rounded_step_time j ltac:(lia)) as Sj.
  assert (Hij' : inject_Z i + 1 <= inject_Z j).
  { change 1 with (inject_Z 1). rewrite <- inject_Z_plus, <- Zle_Qle. lia. }
  assert (Hj' : inject_Z j <= inject_Z (Doubles.totalScans video))
    by (now rewrite <- Zle_Qle).
  apply Qle_lt_trans with (1 := Q.le_min_l _ _). rewrite Si.
  apply Q.min_glb_lt; [rewrite Sj; lra | lra].
Qed.

End RoundedScan.

(** X3. For a video of at least 0.01 s (and at most 2^40 s) every time
    the scan seeks, the first included, lies in [0, duration): never
    before the start, never at or after the end; and the times of
    successive scan steps strictly increase. *)
Theorem scan_seeks_inside (video : Video) :
  Doubles.SCAN_MARGIN <= duration video ->
  duration video <= pow2 40 ->
  (forall i, (0 <= i <= Doubles.totalScans video)%Z ->
             0 <= Doubles.scanTime video i
             /\ Doubles.scanTime video i < duration video)
  /\ (forall i j, (0 <= i)%Z -> (i < j)%Z -> (j <= Doubles.totalScans video)%Z ->
                  Doubles.scanTime video i < Doubles.scanTime video j).
Proof.
  intros Hmin Hmax. split.
  - intros i Hi. now apply rounded_scanTime_inside.
  - intros i j Hi Hij Hj. now apply rounded_scanTime_lt.
Qed.

Section RoundedSymmetry.

Lemma channelSum_sym p q : channelSum p q = channelSum q p.
Proof. unfold channelSum. lia. Qed.

Lemma roundedTotal_sym ps1 :
  forall ps2 acc, roundedTotal ps1 ps2 acc = roundedTotal ps2 ps1 acc.
Proof.
  induction ps1 as [|p ps1 IH]; intros [|q ps2] acc; cbn [roundedTotal];
    try reflexivity.
  rewrite (channelSum_sym p q). apply IH.
Qed.

End RoundedSymmetry.

(** X11. On rasters of bytes of one size (1 <= P <= 2^32 pixels) the
    score does not depend on the order of the two rasters: the code
    returns the very same number for (a, b) and for (b, a). *)
Theorem differencer_symmetric (ps1 ps2 : list Pixel) :
  length ps1 = length ps2 ->
  (0 < length ps1)%nat ->
  (Z.of_nat (length ps1) <= 2 ^ 32)%Z ->
  Forall byteChannels ps1 ->
  Forall byteChannels ps2 ->
  exists s,
    Doubles.calculateFrameDifference (raster ps1) (raster ps2) = Return (Some s)
    /\ Doubles.calculateFrameDifference (raster ps2) (raster ps1)
       = Return (Some s).
Proof.
  intros Hlen Hpos Hmax H1 H2. exists (roundedScore ps1 ps2).
  split; [now apply rounded_differencer_returns|].
  rewrite rounded_differencer_returns; try assumption; try congruence; try lia.
  unfold roundedScore. now rewrite roundedTotal_sym, Hlen.
Qed.

(** ** Annotation drawing in binary64 *)

Section RoundedAnnotation.




End RoundedAnnotation.


(* ================================================================== *)
(** * Further properties of the module *)

(** ** Progress reports of the scan *)

Section Reporting.

Variable video : Video.
Variable sens : Q.


Lemma totalScans_zero :
  0 <= duration video -> duration video < 1 # 2 -> totalScans video = 0%Z.
Proof.
  intros H0 H1. unfold totalScans, Math_floor, SCAN_INTERVAL.
  pose proof (Qfloor_le (duration video / (1 # 2))) as Hl.
  pose proof (Qlt_floor (duration video / (1 # 2))) as Hu.
  rewrite inject_Z_plus in Hu. change (inject_Z 1) with 1 in Hu.
  assert (Hd : duration video / (1 # 2) == 2 * duration video) by field.
  assert (A : (Qfloor (duration video / (1 # 2)) < 1)%Z)
    by (rewrite Zlt_Qlt; change (inject_Z 1) with 1; lra).
  assert (B : (-1 < Qfloor (duration video / (1 # 2)))%Z)
    by (rewrite Zlt_Qlt; change (inject_Z (-1)) with (-1); lra).
  lia.
Qed.








End Reporting.


(** X2. For a video shorter than one scan interval (0 <= duration < 0.5)
    the scan visits only step 0, finds no change point, and its single
    progress report is NaN (0/0), not a percentage. *)
Theorem scan_progress_short_video (video : Video) (sens : Q) :
  context2d video = true ->
  0 <= duration video ->
  duration video < SCAN_INTERVAL ->
  detectSceneChangesReporting video sens = Return ([], [NaN])
  /\ detectSceneChanges video sens = Return [].
Proof.
  intros Hctx H0 H1.
  pose proof (totalScans_zero video H0 H1) as HT.
  unfold detectSceneChangesReporting, detectSceneChanges.
  rewrite HT. change (range0 0) with [0%Z].
  cbn [scanLoopReporting scanLoop].
  unfold seekAndCapture. rewrite Hctx. cbn [bind app].
  unfold progressAt. rewrite HT. split; reflexivity.
Qed.

(** ** Rasters that do not change *)

Section Unchanged.

Lemma diffStep_NaN p1 p2 i : diffStep p1 p2 NaN i = NaN.
Proof. reflexivity. Qed.






End Unchanged.


(** ** Automatic mode without detections *)

Section NoDetections.




Lemma filter_all {A} (f : A -> bool) l :
  (forall x, In x l -> f x = true) -> filter f l = l.
Proof.
  induction l as [|x l IH]; intros H; cbn [filter]; [reflexivity|].
  rewrite (H x (or_introl eq_refl)), IH; [reflexivity|].
  intros y Hy. apply H. now right.
Qed.



End NoDetections.


(** ** What the consolidator keeps *)

Section Sharpest.

(** [y] scores at least as much as [x]. *)
Notation "x '<<=' y" := (changeScore x <= changeScore y) (at level 70).




End Sharpest.


Section Idempotence.

Lemma fold_mergeStep_spaced_id rest :
  forall merged,
    merged <> [] -> StronglySorted spaced (merged ++ rest) ->
    fold_left mergeStep rest merged = merged ++ rest.
Proof.
  induction rest as [|c rest IH]; intros merged Hne Hs; cbn [fold_left].
  - now rewrite app_nil_r.
  - destruct (exists_last Hne) as (init & l & ->).
    assert (Hlc : spaced l c).
    { apply StronglySorted_app_iff in Hs as (_ & _ & H).
      apply H; [apply in_or_app; right|]; now left. }
    destruct (mergeStep_cases init l c) as (_ & _ & Happ).
    assert (Heq : (init ++ [l; c]) ++ rest = (init ++ [l]) ++ c :: rest)
      by (rewrite <- !app_assoc; reflexivity).
    rewrite Happ by (unfold spaced, MIN_FRAME_INTERVAL in *; lra).
    rewrite IH; [exact Heq | | rewrite Heq; exact Hs].
    intros H. now apply app_eq_nil in H as [_ H].
Qed.

(** Points already a minimum interval apart are all kept. *)
Lemma mergeClose_spaced_id l :
  StronglySorted spaced l -> mergeClose l = l.
Proof.
  destruct l as [|c0 rest]; [reflexivity|]. intros Hs. cbn [mergeClose].
  now apply (fold_mergeStep_spaced_id rest [c0]).
Qed.

End Idempotence.

(** X7. Consolidating is idempotent on a time-ordered input: for
    [maxFrames >= 0], running the consolidator on its own output
    changes nothing. *)
Theorem consolidator_idempotent (changes : list ChangePoint) (maxFrames : Z) :
  Sorted timeLe changes ->
  (0 <= maxFrames)%Z ->
  consolidateChanges (consolidateChanges changes maxFrames) maxFrames
  = consolidateChanges changes maxFrames.
Proof.
  intros Hs HN. apply Sorted_timeLe_strong in Hs.
  pose proof (consolidateChanges_spaced changes maxFrames Hs) as Hsp.
  pose proof (consolidateChanges_length changes maxFrames HN) as Hlen.
  set (out := consolidateChanges changes maxFrames) in *.
  unfold consolidateChanges at 1.
  destruct out as [|o out'] eqn:E; [reflexivity|].
  rewrite (mergeClose_spaced_id _ Hsp).
  destruct (Z.leb_spec (Z.of_nat (length (o :: out'))) maxFrames);
    [reflexivity | lia].
Qed.

(** ** Edge values of [maxFrames] *)

(** X8. A non-positive [maxFrames] is not rejected: a video that loads
    gives an empty list of frames, without error, in manual mode for
    any [maxFrames <= 0] (no drawing context needed, nothing is drawn)
    and in automatic mode for [maxFrames = 0]. *)
Theorem nonpositive_maxFrames_empty (video : Video) (options : PartialOptions) :
  loads video = true ->
  (mode (mergeOptions options) = manual
   /\ (maxFrames (mergeOptions options) <= 0)%Z)
  \/ (mode (mergeOptions options) = auto
      /\ maxFrames (mergeOptions options) = 0%Z
      /\ context2d video = true) ->
  extractFrames video options = Return [].
Proof.
  intros Hl H. unfold extractFrames, selectTimestamps. rewrite Hl.
  destruct H as [[-> HN] | (-> & HN & Hc)].
  - cbn [bind]. unfold generateEqualIntervals, range1.
    replace (Z.to_nat (maxFrames (mergeOptions options))) with 0%nat by lia.
    reflexivity.
  - rewrite (detectSceneChanges_emits video _ Hc), HN. cbn [bind].
    set (raw := scanPoints video (sensitivity (mergeOptions options))).
    assert (E : consolidateChanges raw 0 = []).
    { unfold consolidateChanges. destruct raw as [|c0 rest]; [reflexivity|].
      destruct (_ <=? _)%Z eqn:L.
      - apply Z.leb_le in L.
        pose proof (mergeClose_nonempty (c0 :: rest) ltac:(discriminate)).
        destruct (mergeClose (c0 :: rest)); [contradiction | cbn in L; lia].
      - reflexivity. }
    rewrite E. reflexivity.
Qed.

(** ** When the score is zero *)

Section Distance.

(** The score of two rasters of the same number of pixels. *)
Lemma rasters_score ps1 ps2 :
  length ps1 = length ps2 -> (0 < length ps1)%nat ->
  exists s,
    calculateFrameDifference (raster ps1) (raster ps2) = Return (Some s)
    /\ s * (765 * inject_Z (Z.of_nat (length ps1)))
       == inject_Z (sumAbsRGB ps1 ps2).
Proof.
  intros Hlen Hpos.
  destruct (pixel_loop_sum ps1 ps2 0 Hlen) as (t & Ht & Heq).
  unfold calculateFrameDifference.
  rewrite raster_length, pixelOffsets_4, Ht.
  set (P := inject_Z (Z.of_nat (length ps1))).
  assert (HP : 0 < P).
  { unfold P. change 0 with (inject_Z 0). rewrite <- Zlt_Qlt. lia. }
  assert (Hcount : inject_Z (Z.of_nat (4 * length ps1)) / 4 == P).
  { unfold P. rewrite Nat2Z.inj_mul, inject_Z_mult. field. }
  destruct (Qeq_bool _ 0) eqn:E.
  - apply Qeq_bool_eq in E. rewrite Hcount in E. exfalso. lra.
  - eexists. split; [reflexivity|]. rewrite Hcount, Heq. field. lra.
Qed.

Lemma sumAbsRGB_zero_iff ps1 :
  forall ps2, length ps1 = length ps2 ->
  sumAbsRGB ps1 ps2 = 0%Z <-> Forall2 sameRGB ps1 ps2.
Proof.
  induction ps1 as [|p ps1 IH]; intros [|q ps2] Hlen; cbn in Hlen;
    try discriminate.
  - split; [constructor | reflexivity].
  - specialize (IH ps2 (f_equal pred Hlen)).
    pose proof (sumAbsRGB_nonneg ps1 ps2) as Hnn.
    cbn [sumAbsRGB]. split.
    + intros H. constructor; [unfold sameRGB; lia | apply IH; lia].
    + intros H. inversion H as [|? ? ? ? Hpq Hrest]; subst.
      apply IH in Hrest. unfold sameRGB in Hpq. lia.
Qed.

End Distance.

(** X10. For two rasters of the same number P >= 1 of pixels the score
    is 0 exactly when the rasters agree on the red, green and blue
    channel of every pixel; alpha may differ. *)
Theorem differencer_zero_iff (ps1 ps2 : list Pixel) :
  length ps1 = length ps2 ->
  (0 < length ps1)%nat ->
  exists s,
    calculateFrameDifference (raster ps1) (raster ps2) = Return (Some s)
    /\ (s == 0 <-> Forall2 sameRGB ps1 ps2).
Proof.
  intros Hlen Hpos.
  destruct (rasters_score ps1 ps2 Hlen Hpos) as (s & Hs & Heq).
  exists s. split; [exact Hs|].
  rewrite <- (sumAbsRGB_zero_iff ps1 ps2 Hlen).
  assert (HP : 0 < inject_Z (Z.of_nat (length ps1))).
  { change 0 with (inject_Z 0). rewrite <- Zlt_Qlt. lia. }
  split.
  - intros Hz. rewrite Hz in Heq.
    apply inject_Z_injective.
    change (inject_Z 0) with 0. rewrite <- Heq. ring.
  - intros Hz. rewrite Hz in Heq. change (inject_Z 0) with 0 in Heq.
    set (P := inject_Z (Z.of_nat (length ps1))) in *.
    assert (Hm : s * (765 * P) == 0 * (765 * P)) by (rewrite Heq; ring).
    apply Qmult_inj_r in Hm; [exact Hm | lra].
Qed.

(** ** Where frames come from *)


Lemma guarded_push_length {A B} (ctx : bool) (f : A -> B) (l : list A) :
  length (flat_map (fun i => if ctx then [f i] else []) l)
  = if ctx then length l else 0%nat.
Proof.
  destruct ctx; induction l as [|x l IH]; cbn [flat_map app length];
    auto.
Qed.

(** X14. The legacy extractor never fails for a missing drawing
    context: once the metadata load it resolves, with [count] frames
    when there is a context and with no frame at all when there is
    none. *)
Theorem legacy_missing_context (video : Video) (count : Z) :
  loads video = true ->
  exists frames,
    Legacy.extractFrames video count = Return frames
    /\ length frames = (if context2d video then Z.to_nat count else 0%nat).
Proof.
  intros Hl. unfold Legacy.extractFrames. rewrite Hl.
  eexists. split; [reflexivity|].
  rewrite (guarded_push_length (context2d video)
             (fun i => {| Legacy.timestamp :=
                            inject_Z i * (duration video / (inject_Z count + 1));
                          Legacy.dataUrl :=
                            still video
                              (inject_Z i
                               * (duration video / (inject_Z count + 1))) |})).
  unfold range1. now rewrite length_map, length_seq.
Qed.

(** ** The language selection *)

Section Languages.

Lemma includes_In id prev : includes id prev = true <-> In id prev.
Proof.
  unfold includes. rewrite existsb_exists. split.
  - intros (x & Hx & E). apply String.eqb_eq in E. now subst.
  - intros H. exists id. split; [exact H | apply String.eqb_refl].
Qed.

Lemma in_without id prev l :
  In l (filter (fun l => negb (String.eqb l id)) prev) <-> In l prev /\ l <> id.
Proof.
  rewrite filter_In, negb_true_iff. split; intros [H1 H2]; split; auto.
  - intros ->. now rewrite String.eqb_refl in H2.
  - now apply String.eqb_neq.
Qed.

Lemma without_absent id prev :
  ~ In id prev -> filter (fun l => negb (String.eqb l id)) prev = prev.
Proof.
  intros H. apply filter_all. intros x Hx. apply negb_true_iff, String.eqb_neq.
  intros ->. contradiction.
Qed.

End Languages.

(** X16. Toggling a language in a selection without duplicates gives a
    selection without duplicates that is never empty; it switches the
    toggled language (unless it is the only one selected, which stays)
    and leaves every other language as it was. *)
Theorem toggleLanguage_selection (id : string) (prev : list string) :
  NoDup prev ->
  toggleLanguage id prev <> []
  /\ NoDup (toggleLanguage id prev)
  /\ (forall l, l <> id -> (In l (toggleLanguage id prev) <-> In l prev))
  /\ (In id (toggleLanguage id prev) <-> ~ In id prev \/ (length prev <= 1)%nat).
Proof.
  intros Hnd. unfold toggleLanguage.
  destruct (includes id prev) eqn:Hin.
  - apply includes_In in Hin.
    destruct (Nat.ltb_spec 1 (length prev)) as [Hlen|Hlen].
    + split; [|split; [|split]].
      * destruct prev as [|a [|b rest]]; cbn in Hlen; try lia.
        intros E.
        assert (Hab : a <> b).
        { inversion Hnd as [|? ? Ha _]; subst. intros ->. apply Ha. now left. }
        assert (Ha : ~ (In a (a :: b :: rest) /\ a <> id))
          by (rewrite <- in_without, E; intros []).
        assert (Hb : ~ (In b (a :: b :: rest) /\ b <> id))
          by (rewrite <- in_without, E; intros []).
        destruct (string_dec a id) as [->|Na];
          [|apply Ha; split; [now left | exact Na]].
        apply Hb. split; [right; now left | congruence].
      * now apply NoDup_filter.
      * intros l Hl. rewrite in_without. tauto.
      * rewrite in_without. split; [tauto|]. intros [H|H]; [contradiction | lia].
    + split; [|split; [|split]].
      * intros ->. destruct Hin.
      * exact Hnd.
      * tauto.
      * split; [intros _; right; exact Hlen | intros _; exact Hin].
  - assert (Hn : ~ In id prev).
    { intros H. apply includes_In in H. congruence. }
    split; [|split; [|split]].
    + intros E. now apply app_eq_nil in E as [_ E].
    + apply NoDup_app; [exact Hnd | repeat constructor; intros [] |].
      intros a Ha [<-|[]]. contradiction.
    + intros l Hl. rewrite in_app_iff. cbn. split; [intros [H|[H|[]]]|]; auto.
      congruence.
    + rewrite in_app_iff. cbn. tauto.
Qed.

(** X17. Toggling the same language twice gives back the same set of
    languages: exactly the selection one started from when the language
    was not selected, and the selection with that language moved to the
    end when it was. *)
Theorem toggleLanguage_twice (id : string) (prev : list string) :
  NoDup prev ->
  prev <> [] ->
  Permutation (toggleLanguage id (toggleLanguage id prev)) prev
  /\ (~ In id prev -> toggleLanguage id (toggleLanguage id prev) = prev).
Proof.
  intros Hnd Hne.
  assert (Hoff : forall l, l <> [] -> ~ In id l ->
                   toggleLanguage id (toggleLanguage id l) = l).
  { intros l Hl Hn. unfold toggleLanguage at 2.
    destruct (includes id l) eqn:E; [apply includes_In in E; contradiction|].
    unfold toggleLanguage.
    assert (E2 : includes id (l ++ [id]) = true)
      by (apply includes_In, in_or_app; right; now left).
    rewrite E2.
    destruct (Nat.ltb_spec 1 (length (l ++ [id]))) as [_|Hlen].
    - rewrite filter_app, without_absent by exact Hn. cbn [filter].
      rewrite String.eqb_refl. cbn. apply app_nil_r.
    - rewrite length_app in Hlen. cbn in Hlen.
      destruct l; [contradiction | cbn in Hlen; lia]. }
  split; [|intros Hn; now apply Hoff].
  destruct (includes id prev) eqn:Hin.
  - apply includes_In in Hin. unfold toggleLanguage at 2.
    rewrite (proj2 (includes_In id prev) Hin).
    destruct (Nat.ltb_spec 1 (length prev)) as [Hlen|Hlen].
    + set (rest := filter (fun l => negb (String.eqb l id)) prev).
      assert (Hrest : ~ In id rest).
      { unfold rest. rewrite in_without. tauto. }
      unfold toggleLanguage.
      destruct (includes id rest) eqn:E; [apply includes_In in E; contradiction|].
      apply NoDup_Permutation; [|exact Hnd|].
      * apply NoDup_app; [now apply NoDup_filter | repeat constructor; intros [] |].
        intros a Ha [<-|[]]. contradiction.
      * intros l. rewrite in_app_iff. unfold rest. rewrite in_without. cbn.
        destruct (string_dec l id) as [->|Hl]; [tauto|].
        split; [intros [[H _]|[H|[]]]; [exact H | congruence] | tauto].
    + unfold toggleLanguage. rewrite (proj2 (includes_In id prev) Hin).
      destruct (Nat.ltb_spec 1 (length prev)); [lia | reflexivity].
  - rewrite Hoff; [reflexivity | exact Hne |].
    intros H. apply includes_In in H. congruence.
Qed.

(** ** The analysis API *)

Section ApiFacts.

Lemma untilComma_no_comma s : Api.afterComma (Api.untilComma s) = None.
Proof.
  induction s as [|c s IH]; [reflexivity|]. cbn [Api.untilComma].
  destruct (Ascii.eqb c Api.comma) eqn:E; [reflexivity|].
  cbn [Api.afterComma]. now rewrite E.
Qed.

Lemma afterComma_app prefix rest :
  Api.afterComma prefix = None ->
  Api.afterComma (prefix ++ String Api.comma rest) = Some rest.
Proof.
  induction prefix as [|c p IH]; cbn [String.append Api.afterComma].
  - now rewrite Ascii.eqb_refl.
  - destruct (Ascii.eqb c Api.comma); [discriminate | exact IH].
Qed.

Lemma untilComma_none s : Api.afterComma s = None -> Api.untilComma s = s.
Proof.
  induction s as [|c s IH]; [reflexivity|]. cbn [Api.afterComma Api.untilComma].
  destruct (Ascii.eqb c Api.comma); [discriminate|].
  intros H. now rewrite IH.
Qed.

Lemma truthy_spec s :
  Api.truthy s = true <-> exists c r, s = Some (String c r).
Proof.
  destruct s as [[|c r]|]; cbn; split; try discriminate;
    try (intros (? & ? & ?); discriminate).
  - intros _. now exists c, r.
  - reflexivity.
Qed.

End ApiFacts.

Lemma inlineData_no_comma imageData :
  Api.afterComma (Api.inlineData imageData) = None.
Proof.
  unfold Api.inlineData.
  destruct (Api.afterComma imageData) as [rest|] eqn:E;
    [apply untilComma_no_comma | exact E].
Qed.

(** X18. The image payload sent to the model never contains a comma:
    a data URL [prefix,payload] is reduced to its payload, a string
    without comma is sent as it is, and stripping twice is the same as
    stripping once. *)
Theorem inlineData_payload (imageData : string) :
  Api.afterComma (Api.inlineData imageData) = None
  /\ Api.inlineData (Api.inlineData imageData) = Api.inlineData imageData
  /\ (Api.afterComma imageData = None -> Api.inlineData imageData = imageData)
  /\ (forall prefix payload,
        Api.afterComma prefix = None ->
        Api.afterComma payload = None ->
        imageData = (prefix ++ String Api.comma payload)%string ->
        Api.inlineData imageData = payload).
Proof.
  pose proof (inlineData_no_comma imageData) as Hno.
  split; [exact Hno|]. split; [|split].
  - unfold Api.inlineData at 1. now rewrite Hno.
  - intros H. unfold Api.inlineData. now rewrite H.
  - intros prefix payload Hp Hq ->. unfold Api.inlineData.
    rewrite (afterComma_app prefix payload Hp). now apply untilComma_none.
Qed.

Section HandlerFacts.

Variable Json : Type.
Variable JSON_parse : string -> string + Json.
Variable generateContent : Api.GenerateRequest -> Api.Generated.
Variable destructuringMessage : string.
Variable apiKey : option string.

Notation "'handle' req" :=
  (Api.handler Json JSON_parse generateContent destructuringMessage apiKey req)
  (at level 10, req at level 9).

Lemma handler_cases req :
  (Api.method req = "OPTIONS"%string
   /\ handle req = (Api.respond Json 200 (Api.NoBody Json), []))
  \/ (Api.method req <> "OPTIONS"%string /\ Api.method req <> "POST"%string
      /\ handle req
         = (Api.respond Json 405 (Api.ErrorBody Json "Method not allowed" None),
            []))
  \/ (Api.method req = "POST"%string /\ Api.body req = None
      /\ handle req = (Api.failed Json destructuringMessage, []))
  \/ (Api.method req = "POST"%string
      /\ exists b, Api.body req = Some b /\
         ((~ Api.validBody b
           /\ handle req
              = (Api.respond Json 400
                   (Api.ErrorBody Json "Missing required parameters" None), []))
          \/ (Api.validBody b /\ Api.truthy apiKey = false
              /\ handle req
                 = (Api.respond Json 500
                      (Api.ErrorBody Json "Server configuration error" None),
                    []))
          \/ (Api.validBody b /\ Api.truthy apiKey = true
              /\ exists image prompt langs request,
                  Api.imageData b = Some image
                  /\ Api.contextPrompt b = Some prompt
                  /\ Api.languages b = Some langs
                  /\ request = {| Api.data := Api.inlineData image;
                                  Api.context := prompt;
                                  Api.previous := Api.previousStep b;
                                  Api.requested := langs |}
                  /\ snd (handle req) = [request]
                  /\ fst (handle req)
                     = match generateContent request with
                       | Api.Responds text =>
                           match JSON_parse
                                   (match text with
                                    | Some (String t ts) => String t ts
                                    | _ => "{}"%string
                                    end) with
                           | inr result =>
                               Api.respond Json 200 (Api.ResultBody Json result)
                           | inl message => Api.failed Json message
                           end
                       | Api.ThrowsError message => Api.failed Json message
                       | Api.ThrowsOther => Api.failed Json "Unknown error"
                       end))).
Proof.
  unfold Api.handler.
  destruct (String.eqb_spec (Api.method req) "OPTIONS") as [Ho|Ho];
    [left; split; [exact Ho | reflexivity]|].
  right.
  destruct (String.eqb_spec (Api.method req) "POST") as [Hp|Hp]; cbn [negb];
    [|left; repeat split; assumption].
  right.
  destruct (Api.body req) as [b|]; [|left; repeat split; assumption].
  right. split; [exact Hp|]. exists b. split; [reflexivity|].
  unfold Api.validBody.
  destruct (Api.imageData b) as [[|c i]|] eqn:Ei;
    try (left; split; [intros (H & _); discriminate | reflexivity]).
  destruct (Api.contextPrompt b) as [[|c' p]|] eqn:Ep;
    try (left; split; [intros (_ & H & _); discriminate | reflexivity]).
  destruct (Api.languages b) as [[|l ls]|] eqn:El;
    try (left; split; [intros (_ & _ & ? & ? & H); discriminate | reflexivity]).
  right.
  assert (Hv : Api.truthy (Some (String c i)) = true
               /\ Api.truthy (Some (String c' p)) = true
               /\ exists l0 ls0, Some (l :: ls) = Some (l0 :: ls0))
    by (repeat split; now exists l, ls).
  destruct (Api.truthy apiKey) eqn:Ek; cbn [negb].
  - right. split; [exact Hv|]. split; [reflexivity|].
    do 4 eexists. repeat split.
  - left. split; [exact Hv|]. split; reflexivity.
Qed.

End HandlerFacts.

Ltac status_case :=
  cbn;
  repeat match goal with
         | |- _ /\ _ => split
         | |- _ <-> _ => split
         | |- _ -> _ => intro
         | H : _ /\ _ |- _ => destruct H
         | H : exists _, _ |- _ => destruct H
         end;
  try discriminate; try congruence; try contradiction; auto.

(** The statuses the handler answers with, by kind of request. *)
Lemma handler_status_table (Json : Type) (JSON_parse : string -> string + Json)
    (generateContent : Api.GenerateRequest -> Api.Generated)
    (destructuringMessage : string) (apiKey : option string)
    (req : Api.HttpRequest) :
  let res :=
    fst (Api.handler Json JSON_parse generateContent destructuringMessage
                     apiKey req) in
  In (Api.status Json res) [200; 400; 405; 500]%Z
  /\ (Api.payload Json res = Api.NoBody Json
      <-> Api.method req = "OPTIONS"%string)
  /\ (Api.status Json res = 405%Z
      <-> Api.method req <> "OPTIONS"%string
          /\ Api.method req <> "POST"%string)
  /\ (Api.status Json res = 400%Z
      <-> Api.method req = "POST"%string
          /\ exists b, Api.body req = Some b /\ ~ Api.validBody b)
  /\ (Api.method req = "POST"%string -> Api.body req = None ->
      Api.status Json res = 500%Z).
Proof.
  cbv zeta.
  assert (Hfin : forall r : Api.Generated,
            let out := match r with
              | Api.Responds text =>
                  match JSON_parse (match text with
                                    | Some (String t ts) => String t ts
                                    | _ => "{}"%string
                                    end) with
                  | inr result => Api.respond Json 200 (Api.ResultBody Json result)
                  | inl message => Api.failed Json message
                  end
              | Api.ThrowsError message => Api.failed Json message
              | Api.ThrowsOther => Api.failed Json "Unknown error"
              end in
            (Api.status Json out = 200%Z \/ Api.status Json out = 500%Z)
            /\ Api.payload Json out <> Api.NoBody Json).
  { intros [text| |]; cbn zeta;
      [destruct (JSON_parse _)|..]; cbn; split; auto; discriminate. }
  destruct (handler_cases Json JSON_parse generateContent destructuringMessage
              apiKey req)
    as [(Hm & ->) | [(Ho & Hp & ->) | [(Hp & Hb & ->) | (Hp & b & Hb & H)]]].
  - assert (Hn : Api.method req <> "POST"%string) by (rewrite Hm; discriminate).
    status_case.
  - status_case.
  - assert (Hn : Api.method req <> "OPTIONS"%string) by (rewrite Hp; discriminate).
    status_case.
  - assert (Hn : Api.method req <> "OPTIONS"%string) by (rewrite Hp; discriminate).
    destruct H as [(Hv & ->) | [(Hv & Hk & ->) | (Hv & Hk & H)]].
    + status_case. exists b. split; assumption.
    + status_case.
    + destruct H as (image & prompt & langs & request & _ & _ & _ & _ & _ & ->).
      destruct (Hfin (generateContent request)) as [Hs Hpay]. cbv zeta in Hs, Hpay.
      split; [cbn; destruct Hs as [-> | ->]; auto|].
      split; [split; [intros H; contradiction | intros H; contradiction]|].
      split; [split; [intros H; destruct Hs; lia | intros [_ H]; contradiction]|].
      split; [|congruence].
      split; [intros H; destruct Hs; lia|].
      intros (_ & b' & Hb' & Hnv). congruence.
Qed.

(** X19. The handler answers OPTIONS with 200 and no body, and nothing
    else without a body; any method other than OPTIONS and POST with
    405; a POST without body with 500; a POST whose body fails the
    validation (image, context or languages missing or empty) with 400,
    and no other request with 400.  Status 200 means OPTIONS or a
    parsed result, and every response has status 200, 400, 405 or
    500. *)
Theorem handler_status (Json : Type) (JSON_parse : string -> string + Json)
    (generateContent : Api.GenerateRequest -> Api.Generated)
    (destructuringMessage : string) (apiKey : option string)
    (req : Api.HttpRequest) :
  let res :=
    fst (Api.handler Json JSON_parse generateContent destructuringMessage
                     apiKey req) in
  In (Api.status Json res) [200; 400; 405; 500]%Z
  /\ (Api.method req = "OPTIONS"%string ->
      Api.status Json res = 200%Z /\ Api.payload Json res = Api.NoBody Json)
  /\ (Api.payload Json res = Api.NoBody Json ->
      Api.method req = "OPTIONS"%string)
  /\ (Api.status Json res = 200%Z
      <-> Api.method req = "OPTIONS"%string
          \/ exists result, Api.payload Json res = Api.ResultBody Json result)
  /\ (Api.status Json res = 405%Z
      <-> Api.method req <> "OPTIONS"%string
          /\ Api.method req <> "POST"%string)
  /\ (Api.status Json res = 400%Z
      <-> Api.method req = "POST"%string
          /\ exists b, Api.body req = Some b /\ ~ Api.validBody b)
  /\ (Api.method req = "POST"%string -> Api.body req = None ->
      Api.status Json res = 500%Z).
Proof.
  cbv zeta.
  destruct (handler_status_table Json JSON_parse generateContent
              destructuringMessage apiKey req) as (T1 & T2 & T3 & T4 & T5).
  cbv zeta in T1, T2, T3, T4, T5.
  split; [exact T1|].
  assert (Hopt : Api.method req = "OPTIONS"%string ->
                 Api.status Json
                   (fst (Api.handler Json JSON_parse generateContent
                                     destructuringMessage apiKey req)) = 200%Z).
  { intros Ho. unfold Api.handler. rewrite Ho. reflexivity. }
  split; [intros Ho; split; [now apply Hopt | now apply T2]|].
  split; [apply T2|].
  split; [|split; [exact T3|split; [exact T4 | exact T5]]].
  destruct (handler_cases Json JSON_parse generateContent destructuringMessage
              apiKey req)
    as [(Hm & E) | [(Ho & Hp & E) | [(Hp & Hb & E) | (Hp & b & Hb & H)]]].
  - rewrite E. cbn. split; auto.
  - rewrite E. cbn. split; [discriminate|].
    intros [H|(r & H)]; [contradiction | discriminate].
  - assert (Hn : Api.method req <> "OPTIONS"%string) by (rewrite Hp; discriminate).
    rewrite E. cbn. split; [discriminate|].
    intros [H|(r & H)]; [contradiction | discriminate].
  - assert (Hn : Api.method req <> "OPTIONS"%string) by (rewrite Hp; discriminate).
    destruct H as [(Hv & E) | [(Hv & Hk & E) | (Hv & Hk & H)]].
    + rewrite E. cbn. split; [discriminate|].
      intros [H|(r & H)]; [contradiction | discriminate].
    + rewrite E. cbn. split; [discriminate|].
      intros [H|(r & H)]; [contradiction | discriminate].
    + destruct H as (image & prompt & langs & request & _ & _ & _ & _ & _ & E).
      rewrite E.
      destruct (generateContent request) as [text| |];
        [destruct (JSON_parse _) as [message|result]|..]; cbn;
        (split; [try discriminate; intros _; right; now eexists
                | intros [H|(r & H)]; [contradiction | try discriminate; reflexivity]]).
Qed.

(** X20. The handler sends at most one request to the model, and only
    for a POST whose body passes the validation while an API key is
    configured.  That request carries the image of the body with its
    data-URL prefix stripped (so without comma), the context, the
    previous step and the languages of the body.  A body with a result
    is returned only with status 200, after the model responded and its
    text (or "{}" for an absent or empty text) was parsed. *)
Theorem handler_guards_model (Json : Type) (JSON_parse : string -> string + Json)
    (generateContent : Api.GenerateRequest -> Api.Generated)
    (destructuringMessage : string) (apiKey : option string)
    (req : Api.HttpRequest) :
  let out :=
    Api.handler Json JSON_parse generateContent destructuringMessage apiKey req in
  (length (snd out) <= 1)%nat
  /\ (forall request, In request (snd out) ->
        Api.method req = "POST"%string
        /\ Api.truthy apiKey = true
        /\ Api.afterComma (Api.data request) = None
        /\ exists b image prompt langs,
            Api.body req = Some b /\ Api.validBody b
            /\ Api.imageData b = Some image
            /\ Api.contextPrompt b = Some prompt
            /\ Api.languages b = Some langs
            /\ request = {| Api.data := Api.inlineData image;
                            Api.context := prompt;
                            Api.previous := Api.previousStep b;
                            Api.requested := langs |})
  /\ (forall result,
        Api.payload Json (fst out) = Api.ResultBody Json result ->
        Api.status Json (fst out) = 200%Z
        /\ exists request text,
            snd out = [request]
            /\ generateContent request = Api.Responds text
            /\ JSON_parse (match text with
                           | Some (String t ts) => String t ts
                           | _ => "{}"%string
                           end) = inr result).
Proof.
  cbv zeta.
  destruct (handler_cases Json JSON_parse generateContent destructuringMessage
              apiKey req)
    as [(Hm & ->) | [(Ho & Hp & ->) | [(Hp & Hb & ->) | (Hp & b & Hb & H)]]];
    try (cbn; repeat split; try lia; try (intros ? []); discriminate).
  destruct H as [(Hv & ->) | [(Hv & Hk & ->) | (Hv & Hk & H)]];
    try (cbn; repeat split; try lia; try (intros ? []); discriminate).
  destruct H as (image & prompt & langs & request & Hi & Hc & Hl & Hr & Hcalls & Hres).
  rewrite Hcalls, Hres. split; [cbn; lia|]. split.
  - intros r [<-|[]]. split; [exact Hp|]. split; [exact Hk|]. split.
    + rewrite Hr. cbn [Api.data].
      apply inlineData_no_comma.
    + exists b, image, prompt, langs.
      split; [exact Hb|]. split; [exact Hv|]. split; [exact Hi|].
      split; [exact Hc|]. split; [exact Hl | exact Hr].
  - intros result.
    destruct (generateContent request) as [text| |] eqn:Eg; try discriminate.
    destruct (JSON_parse _) as [message|j] eqn:Ej; [discriminate|].
    cbn. intros H. injection H as <-. split; [reflexivity|].
    exists request, text. repeat split; assumption.
Qed.

(** X21. The client against this handler: a call with an empty image,
    an empty context or no language is rejected with the server's
    "Missing required parameters" and the model is not called; with
    valid arguments but no API key it is rejected with "Server
    configuration error"; otherwise the model receives the stripped
    image, the context and the languages, never a previous step, and the
    call resolves with the parsed result or is rejected with "Failed to
    analyze image". *)
Theorem client_through_handler (Json : Type)
    (JSON_parse : string -> string + Json)
    (generateContent : Api.GenerateRequest -> Api.Generated)
    (destructuringMessage : string) (apiKey : option string)
    (imageData contextPrompt : string) (languages : list string) :
  let serve := Api.handler Json JSON_parse generateContent destructuringMessage
                           apiKey in
  let post := {| Api.method := "POST";
                 Api.body := Some {| Api.imageData := Some imageData;
                                     Api.contextPrompt := Some contextPrompt;
                                     Api.languages := Some languages;
                                     Api.previousStep := None |} |} in
  let answer := Api.analyzeStep Json (fun req => fst (serve req))
                                imageData contextPrompt languages in
  let request := {| Api.data := Api.inlineData imageData;
                    Api.context := contextPrompt;
                    Api.previous := None;
                    Api.requested := languages |} in
  (imageData = ""%string \/ contextPrompt = ""%string \/ languages = [] ->
   answer = Api.Rejected Json (Api.ServerError "Missing required parameters")
   /\ snd (serve post) = [])
  /\ (imageData <> ""%string -> contextPrompt <> ""%string -> languages <> [] ->
      (Api.truthy apiKey = false ->
       answer = Api.Rejected Json (Api.ServerError "Server configuration error")
       /\ snd (serve post) = [])
      /\ (Api.truthy apiKey = true ->
          snd (serve post) = [request]
          /\ answer
             = match generateContent request with
               | Api.Responds text =>
                   match JSON_parse (match text with
                                     | Some (String t ts) => String t ts
                                     | _ => "{}"%string
                                     end) with
                   | inr result => Api.Resolved Json result
                   | inl _ =>
                       Api.Rejected Json
                         (Api.ServerError "Failed to analyze image")
                   end
               | _ => Api.Rejected Json
                        (Api.ServerError "Failed to analyze image")
               end)).
Proof.
  cbv zeta. unfold Api.analyzeStep, Api.handler.
  cbn [Api.method Api.body Api.imageData Api.contextPrompt Api.languages
       Api.previousStep String.eqb Ascii.eqb Bool.eqb negb fst snd].
  split.
  - intros [-> | [-> | ->]].
    + split; reflexivity.
    + destruct imageData; split; reflexivity.
    + destruct imageData; [split; reflexivity|].
      destruct contextPrompt; split; reflexivity.
  - intros Hi Hc Hl.
    destruct imageData as [|c i]; [contradiction|].
    destruct contextPrompt as [|c' p]; [contradiction|].
    destruct languages as [|l ls]; [contradiction|].
    split; intros ->; cbn [negb fst snd]; [split; reflexivity|].
    split; [reflexivity|].
    destruct (generateContent _) as [text| |]; [|reflexivity..].
    destruct (JSON_parse _) as [message|result]; reflexivity.
Qed.

(** ** The processing run *)

Section Processing.

Variable analyzeStep : App.AnalyzeCall -> option Gemini.StepResponse.
Variable randomId : nat -> string.

Notation "'analyzeAll'" := (App.analyzeFrames analyzeStep randomId).
Notation "'Chain'" := (App.CallChain analyzeStep).






End Processing.

Section Runs2.

Variable analyzeStep : App.AnalyzeCall -> option Gemini.StepResponse.
Variable randomId : nat -> string.

Notation "'run'" := (App.processVideo analyzeStep randomId).
Notation "'Chain'" := (App.CallChain analyzeStep).


End Runs2.

(** ** The processing run on unchecked responses *)

Section UncheckedRun.

Variable analyzeStep : App.AnalyzeCall -> Untyped.App.Settled.
Variable randomId : nat -> string.

Lemma unchecked_previousOf_snoc generated step :
  Untyped.App.previousOf (generated ++ [step])
  = match Untyped.App.translations step with
    | Some entries => Return (Some (App.firstContext entries))
    | None => Throw TypeError
    end.
Proof.
  unfold Untyped.App.previousOf. rewrite length_app. cbn [length].
  replace (length generated + 1 - 1)%nat with (length generated) by lia.
  rewrite nth_error_app2 by lia. now rewrite Nat.sub_diag.
Qed.

(** What the analysis loop returns, from any point of the loop. *)
Lemma unchecked_analyzeFrames fileName langs total frames :
  forall i generated trace calls r trace' calls',
    Untyped.App.analyzeFrames analyzeStep randomId fileName langs total i
                              frames generated trace calls
    = (r, trace', calls') ->
    exists newCalls,
      calls' = calls ++ newCalls
      /\ (forall before c after analysis,
            newCalls = before ++ c :: after ->
            analyzeStep c = Untyped.App.resolves analysis ->
            Untyped.Gemini.translations analysis = None ->
            after = [])
      /\ match r with
         | Some steps =>
             length newCalls = length frames
             /\ Forall (fun c => exists analysis,
                            analyzeStep c = Untyped.App.resolves analysis)
                       newCalls
             /\ exists newSteps,
                 steps = generated ++ newSteps
                 /\ map Untyped.App.timestamp newSteps = map f_timestamp frames
                 /\ map Untyped.App.image newSteps = map f_dataUrl frames
         | None =>
             (length newCalls < length frames)%nat
             \/ exists c, In c newCalls
                          /\ (analyzeStep c = Untyped.App.rejects
                              \/ analyzeStep c = Untyped.App.resolvesNull)
         end.
Proof.
  induction frames as [|frame rest IH];
    intros i generated trace calls r trace' calls' H;
    cbn [Untyped.App.analyzeFrames] in H.
  - injection H as <- <- <-. exists []. rewrite app_nil_r.
    split; [reflexivity|]. split.
    + intros before c after a Heq; destruct before; discriminate Heq.
    + split; [reflexivity|]. split; [constructor|].
      exists []. now rewrite app_nil_r.
  - destruct (Untyped.App.previousOf generated) as [previous|e] eqn:Ep.
    2:{ injection H as <- <- <-. exists []. rewrite app_nil_r.
        split; [reflexivity|]. split.
        - intros before c after a Heq; destruct before; discriminate Heq.
        - left. cbn. lia. }
    set (call := App.callFor fileName langs total i frame previous) in *.
    destruct (analyzeStep call) as [| |analysis] eqn:E.
    + injection H as <- <- <-. exists [call]. split; [reflexivity|]. split.
      * intros before c after a Heq Ha Hn.
        destruct before as [|b [|b' before]]; try discriminate Heq.
        now injection Heq as <- <-.
      * right. exists call. split; [now left | now left].
    + injection H as <- <- <-. exists [call]. split; [reflexivity|]. split.
      * intros before c after a Heq Ha Hn.
        destruct before as [|b [|b' before]]; try discriminate Heq.
        now injection Heq as <- <-.
      * right. exists call. split; [now left | now right].
    + pose proof H as H0.
      apply IH in H0 as (newCalls & Hc & Hlast & Hr).
      exists (call :: newCalls).
      split; [now rewrite Hc, <- app_assoc|]. split.
      * intros [|b before] c after a Heq Ha Hn.
        -- injection Heq as <- <-. rewrite E in Ha. injection Ha as <-.
           destruct rest as [|next rest'].
           ++ cbn [Untyped.App.analyzeFrames] in H. injection H as _ _ H.
              rewrite Hc in H. apply (f_equal (@length _)) in H.
              rewrite !length_app in H.
              destruct newCalls; [reflexivity | cbn in H; lia].
           ++ cbn [Untyped.App.analyzeFrames] in H.
              rewrite unchecked_previousOf_snoc in H.
              cbn [Untyped.App.translations] in H. rewrite Hn in H.
              injection H as _ _ H.
              rewrite Hc in H. apply (f_equal (@length _)) in H.
              rewrite !length_app in H.
              destruct newCalls; [reflexivity | cbn in H; lia].
        -- injection Heq as _ Heq. exact (Hlast before c after a Heq Ha Hn).
      * destruct r as [steps|].
        -- destruct Hr as (Hlen & Hall & newSteps & -> & Hts & Him).
           split; [cbn; now rewrite Hlen|].
           split; [constructor; [now exists analysis | exact Hall]|].
           eexists (_ :: newSteps). rewrite <- app_assoc.
           split; [reflexivity|].
           cbn [map Untyped.App.timestamp Untyped.App.image].
           now rewrite Hts, Him.
        -- destruct Hr as [Hlt | (c & Hin & Hc0)].
           ++ left. cbn. lia.
           ++ right. exists c. split; [now right | exact Hc0].
Qed.

(** The three ways a run with a file can go. *)
Lemma unchecked_processVideo_cases state file :
  Untyped.App.videoFile state = Some file ->
  let run := Untyped.App.processVideo analyzeStep randomId state in
  let final := fst (fst run) in
  let calls := snd run in
  Untyped.App.isProcessing final = false
  /\ Untyped.App.videoFile final = Untyped.App.videoFile state
  /\ Untyped.App.selectedLangs final = Untyped.App.selectedLangs state
  /\ Untyped.App.extractionMode final = Untyped.App.extractionMode state
  /\ Untyped.App.maxFrames final = Untyped.App.maxFrames state
  /\ (forall before c after analysis,
        calls = before ++ c :: after ->
        analyzeStep c = Untyped.App.resolves analysis ->
        Untyped.Gemini.translations analysis = None ->
        after = [])
  /\ ((exists e,
          Doubles.extractFrames (App.video file) (Untyped.App.optionsOf state)
          = Throw e
          /\ calls = []
          /\ Untyped.App.error final = Some App.failureMessage
          /\ Untyped.App.steps final = [])
      \/ (exists frames,
             Doubles.extractFrames (App.video file) (Untyped.App.optionsOf state)
             = Return frames
             /\ ((length calls < length frames)%nat
                 \/ exists c, In c calls
                              /\ (analyzeStep c = Untyped.App.rejects
                                  \/ analyzeStep c = Untyped.App.resolvesNull))
             /\ Untyped.App.error final = Some App.failureMessage
             /\ Untyped.App.steps final = [])
      \/ (exists frames,
             Doubles.extractFrames (App.video file) (Untyped.App.optionsOf state)
             = Return frames
             /\ length calls = length frames
             /\ Forall (fun c => exists analysis,
                            analyzeStep c = Untyped.App.resolves analysis)
                       calls
             /\ Untyped.App.error final = None
             /\ Untyped.App.progress final = Some 100
             /\ map Untyped.App.timestamp (Untyped.App.steps final)
                = map f_timestamp frames
             /\ map Untyped.App.image (Untyped.App.steps final)
                = map f_dataUrl frames)).
Proof.
  intros Hf. cbv zeta. unfold Untyped.App.processVideo. rewrite Hf.
  destruct (Doubles.extractFrames (App.video file) (Untyped.App.optionsOf state))
    as [frames|e] eqn:Ex.
  2:{ cbn. do 5 (split; [first [reflexivity | exact Hf]|]). split.
      - intros before c after a Heq; destruct before; discriminate Heq.
      - left. exists e. repeat split. }
  destruct (Untyped.App.analyzeFrames analyzeStep randomId (App.name file)
              (Untyped.App.selectedLangs state) (length frames) 0 frames [] _ [])
    as [[r trace] calls] eqn:Ea.
  apply unchecked_analyzeFrames in Ea as (newCalls & Hc & Hlast & Hr).
  cbn [app] in Hc. subst calls.
  destruct r as [steps|].
  - cbn. do 5 (split; [first [reflexivity | exact Hf]|]). split; [exact Hlast|].
    right. right. destruct Hr as (Hlen & Hall & newSteps & -> & Hts & Him).
    exists frames. cbn [app]. repeat split; assumption.
  - cbn. do 5 (split; [first [reflexivity | exact Hf]|]). split; [exact Hlast|].
    right. left. exists frames. repeat split. exact Hr.
Qed.

End UncheckedRun.

(** X22. A processing run is all or nothing, whatever the analysis
    calls resolve to.  Without a file nothing changes.  With a file the
    run always ends with [isProcessing] false and the file, languages,
    mode and [maxFrames] as they were, and either with no error or with
    the failure message and no step.  It ends with no error exactly
    when the extraction returned frames and there was one call per
    frame, each resolved with a value other than [null]; then progress
    is 100 and the steps carry the frames' timestamps and images in
    order.  A failed extraction leaves no call.  A call that is
    rejected or resolves with [null] fails the run.  A response without
    [translations] is the last call made, and it fails the run unless
    it belongs to the last frame. *)
Theorem processVideo_all_or_nothing
    (analyzeStep : App.AnalyzeCall -> Untyped.App.Settled)
    (randomId : nat -> string) (state : Untyped.App.State) :
  let out := Untyped.App.processVideo analyzeStep randomId state in
  let final := fst (fst out) in
  let calls := snd out in
  (Untyped.App.videoFile state = None -> out = (state, [], []))
  /\ (forall file, Untyped.App.videoFile state = Some file ->
        let extraction :=
          Doubles.extractFrames (App.video file) (Untyped.App.optionsOf state) in
        Untyped.App.isProcessing final = false
        /\ Untyped.App.videoFile final = Untyped.App.videoFile state
        /\ Untyped.App.selectedLangs final = Untyped.App.selectedLangs state
        /\ Untyped.App.extractionMode final = Untyped.App.extractionMode state
        /\ Untyped.App.maxFrames final = Untyped.App.maxFrames state
        /\ (Untyped.App.error final = None
            \/ (Untyped.App.error final = Some App.failureMessage
                /\ Untyped.App.steps final = []))
        /\ (Untyped.App.error final = None
            <-> exists frames,
                extraction = Return frames
                /\ length calls = length frames
                /\ Forall (fun c => exists analysis,
                               analyzeStep c = Untyped.App.resolves analysis)
                          calls)
        /\ (Untyped.App.error final = None ->
            Untyped.App.progress final = Some 100
            /\ exists frames,
                extraction = Return frames
                /\ map Untyped.App.timestamp (Untyped.App.steps final)
                   = map f_timestamp frames
                /\ map Untyped.App.image (Untyped.App.steps final)
                   = map f_dataUrl frames)
        /\ ((exists e, extraction = Throw e) -> calls = [])
        /\ ((exists c, In c calls
                       /\ (analyzeStep c = Untyped.App.rejects
                           \/ analyzeStep c = Untyped.App.resolvesNull)) ->
            Untyped.App.error final = Some App.failureMessage)
        /\ (forall before c after analysis,
              calls = before ++ c :: after ->
              analyzeStep c = Untyped.App.resolves analysis ->
              Untyped.Gemini.translations analysis = None ->
              after = []
              /\ forall frames,
                  extraction = Return frames ->
                  (length before + 1 < length frames)%nat ->
                  Untyped.App.error final = Some App.failureMessage)).
Proof.
  cbv zeta. split.
  - intros H. unfold Untyped.App.processVideo. now rewrite H.
  - intros file Hf.
    destruct (unchecked_processVideo_cases analyzeStep randomId state file Hf)
      as (H1 & H2 & H3 & H4 & H5 & Hlast & H).
    cbv zeta in H1, H2, H3, H4, H5, Hlast, H.
    do 5 (split; [assumption|]).
    set (out := Untyped.App.processVideo analyzeStep randomId state) in *.
    assert (Hfail :
              forall frames,
                Doubles.extractFrames (App.video file)
                                      (Untyped.App.optionsOf state)
                = Return frames ->
                (length (snd out) < length frames)%nat
                \/ (exists c, In c (snd out)
                              /\ (analyzeStep c = Untyped.App.rejects
                                  \/ analyzeStep c = Untyped.App.resolvesNull)) ->
                Untyped.App.error (fst (fst out)) = Some App.failureMessage).
    { intros frames Hx Hbad.
      destruct H as [(e & He & _) | [(fs & _ & _ & Herr & _)
                                    | (fs & Hx' & Hlen & Hall & _)]];
        [congruence | exact Herr |].
      exfalso. rewrite Hx in Hx'. injection Hx' as <-.
      destruct Hbad as [Hlt | (c & Hin & Hc)]; [lia|].
      rewrite Forall_forall in Hall. destruct (Hall c Hin) as (a & Ha).
      destruct Hc as [Hc|Hc]; congruence. }
    split; [|split; [|split; [|split; [|split]]]].
    + destruct H as [(e & _ & _ & Herr & Hst) | [(fs & _ & _ & Herr & Hst)
                                               | (fs & _ & _ & _ & Herr & _)]];
        [right; now split | right; now split | now left].
    + split.
      * intros Herr.
        destruct H as [(e & _ & _ & Herr' & _) | [(fs & _ & _ & Herr' & _)
                                                 | (fs & Hx & Hlen & Hall & _)]];
          [congruence | congruence |].
        exists fs. repeat split; assumption.
      * intros (frames & Hx & Hlen & Hall).
        destruct H as [(e & He & _) | [(fs & Hx' & Hbad & _)
                                      | (fs & _ & _ & _ & Herr & _)]];
          [congruence | | exact Herr].
        exfalso. rewrite Hx in Hx'. injection Hx' as <-.
        destruct Hbad as [Hlt | (c & Hin & Hc)]; [lia|].
        rewrite Forall_forall in Hall. destruct (Hall c Hin) as (a & Ha).
        destruct Hc as [Hc|Hc]; congruence.
    + intros Herr.
      destruct H as [(e & _ & _ & Herr' & _) | [(fs & _ & _ & Herr' & _)
                                               | (fs & Hx & _ & _ & _ & Hp & Hts & Him)]];
        [congruence | congruence |].
      split; [exact Hp|]. exists fs. repeat split; assumption.
    + intros (e & He).
      destruct H as [(e' & _ & Hc & _) | [(fs & Hx & _) | (fs & Hx & _)]];
        [exact Hc | congruence | congruence].
    + intros Hbad.
      destruct H as [(e & _ & _ & Herr & _) | [(fs & _ & _ & Herr & _)
                                              | (fs & Hx & _)]];
        [exact Herr | exact Herr |].
      apply (Hfail fs Hx). now right.
    + intros before c after a Heq Ha Hn.
      pose proof (Hlast before c after a Heq Ha Hn) as ->.
      split; [reflexivity|]. intros frames Hx Hlt.
      apply (Hfail frames Hx). left. rewrite Heq, length_app. cbn. lia.
Qed.

Section FramesOfARun.




End FramesOfARun.



Section ProgressOfARun.







End ProgressOfARun.


(* ================================================================== *)
(** ** The further properties on sample inputs *)

Import Cases.


Lemma scan_progress_short_video_witness :
  detectSceneChangesReporting shortVideo (15 # 100) = Return ([], [NaN])
  /\ detectSceneChanges shortVideo (15 # 100) = Return [].
Proof.
  apply (scan_progress_short_video shortVideo (15 # 100));
    [reflexivity | vm_compute; discriminate | vm_compute; reflexivity].
Defined.




Lemma consolidator_idempotent_witness :
  consolidateChanges (consolidateChanges fivePoints 3) 3
  = consolidateChanges fivePoints 3.
Proof.
  apply (consolidator_idempotent fivePoints 3); [|lia].
  repeat constructor; vm_compute; discriminate.
Defined.

Lemma nonpositive_maxFrames_empty_witness :
  extractFrames lessonVideo (optionsOf manual 0 (15 # 100)) = Return [].
Proof.
  apply (nonpositive_maxFrames_empty lessonVideo (optionsOf manual 0 (15 # 100)));
    [reflexivity | left; split; [reflexivity | simpl; lia]].
Defined.

Lemma differencer_zero_iff_witness :
  exists s,
    calculateFrameDifference (raster [black]) (raster [white]) = Return (Some s)
    /\ (s == 0 <-> Forall2 sameRGB [black] [white]).
Proof.
  apply (differencer_zero_iff [black] [white]); [reflexivity | simpl; lia].
Defined.


Lemma legacy_missing_context_witness :
  exists frames,
    Legacy.extractFrames blindVideo 5 = Return frames
    /\ length frames = 0%nat.
Proof.
  apply (legacy_missing_context blindVideo 5). reflexivity.
Defined.

Lemma toggleLanguage_selection_witness :
  toggleLanguage "en" ["ja"; "en"]%string <> []
  /\ NoDup (toggleLanguage "en" ["ja"; "en"]%string)
  /\ (forall l, l <> "en"%string ->
        (In l (toggleLanguage "en" ["ja"; "en"]%string)
         <-> In l ["ja"; "en"]%string))
  /\ (In "en"%string (toggleLanguage "en" ["ja"; "en"]%string)
      <-> ~ In "en"%string ["ja"; "en"]%string
          \/ (length ["ja"; "en"]%string <= 1)%nat).
Proof.
  apply (toggleLanguage_selection "en" ["ja"; "en"]%string).
  repeat constructor; simpl; intuition discriminate.
Defined.

Lemma toggleLanguage_twice_witness :
  Permutation (toggleLanguage "en" (toggleLanguage "en" ["ja"; "en"]%string))
              ["ja"; "en"]%string
  /\ (~ In "en"%string ["ja"; "en"]%string ->
      toggleLanguage "en" (toggleLanguage "en" ["ja"; "en"]%string)
      = ["ja"; "en"]%string).
Proof.
  apply (toggleLanguage_twice "en" ["ja"; "en"]%string); [|discriminate].
  repeat constructor; simpl; intuition discriminate.
Defined.

Lemma inlineData_payload_witness :
  Api.inlineData "data:image/jpeg;base64,/9j/" = "/9j/"%string.
Proof.
  destruct (inlineData_payload "data:image/jpeg;base64,/9j/") as (_ & _ & _ & H).
  apply (H "data:image/jpeg;base64"%string "/9j/"%string); reflexivity.
Defined.

Lemma client_through_handler_witness :
  Api.analyzeStep string
    (fun req => fst (Api.handler string echoParse emptyObjectModel "no body"
                                 (Some "key"%string) req))
    "" "step 1/3" ["ja"; "en"]%string
  = Api.Rejected string (Api.ServerError "Missing required parameters").
Proof.
  destruct (client_through_handler string echoParse emptyObjectModel "no body"
              (Some "key"%string) "" "step 1/3" ["ja"; "en"]%string)
    as (H & _).
  apply H. left. reflexivity.
Defined.




(* ================================================================== *)
(** ** The binary64 properties on sample inputs *)

Lemma floor_respected_rounded_witness :
  exists raw frames,
    Doubles.detectSceneChanges
      cutAtFive
      (sensitivity (Doubles.mergeOptions (optionsOf auto 4 (round (15 # 100)))))
    = Return raw
    /\ Doubles.extractFrames cutAtFive (optionsOf auto 4 (round (15 # 100)))
       = Return frames
    /\ (Z.min MIN_FRAMES 4 <= Z.of_nat (length frames))%Z
    /\ let kept := Doubles.consolidateChanges raw 4 in
       ((MIN_FRAMES <= Z.of_nat (length kept))%Z ->
        frames = map (captureAt cutAtFive) kept)
       /\ ((Z.of_nat (length kept) < MIN_FRAMES)%Z ->
           exists fresh,
             frames = map (captureAt cutAtFive)
                          (slice0 4 (Array_sort Doubles.byTime (kept ++ fresh)))
             /\ fresh
                = filter (fun p =>
                            forallb (fun c =>
                                       negb (Math_round (fmul (timestamp p) 10)
                                             =? Math_round (fmul (timestamp c) 10))%Z)
                                    kept)
                         (Doubles.generateEqualIntervals (duration cutAtFive) 4)
             /\ forall p,
                 In p fresh
                 <-> In p (Doubles.generateEqualIntervals (duration cutAtFive) 4)
                     /\ forall c, In c kept ->
                          Math_round (fmul (timestamp p) 10)
                          <> Math_round (fmul (timestamp c) 10)).
Proof.
  apply (floor_respected_rounded cutAtFive (optionsOf auto 4 (round (15 # 100))));
    [reflexivity | reflexivity | reflexivity
     | vm_compute; discriminate | vm_compute; discriminate].
Defined.

Lemma manual_mode_rounded_spacing_witness :
  exists frames,
    Doubles.extractFrames lessonVideo (optionsOf manual 3 (round (15 # 100)))
    = Return frames
    /\ length frames = 3%nat
    /\ map f_timestamp frames
       = map (fun i => fmul (inject_Z i) (fdiv 12 (fadd (inject_Z 3) 1)))
             (range1 3)
    /\ Forall (fun f => f_changeScore f = 0) frames
    /\ ((3 <= 2 ^ 32)%Z -> pow2 (-1022) * (inject_Z 3 + 1) <= 12 ->
        Forall2 (within (pow2 (-51)))
                (map f_timestamp frames) (evenTimestamps 12 3)
        /\ StronglySorted Qlt (map f_timestamp frames)
        /\ Forall (fun t => 0 < t /\ t < 12) (map f_timestamp frames)).
Proof.
  apply (manual_mode_rounded_spacing
           lessonVideo (optionsOf manual 3 (round (15 # 100))));
    reflexivity.
Defined.

Lemma differencer_rounded_formula_witness :
  exists s,
    Doubles.calculateFrameDifference (raster [black]) (raster [white])
    = Return (Some s)
    /\ s = roundedScore [black] [white]
    /\ within ((inject_Z 1 + 2) * pow2 (-52)) s (formulaScore [black] [white])
    /\ 0 <= s <= 1
    /\ (s == 0 <-> sumAbsRGB [black] [white] = 0%Z)
    /\ ((Forall isBlack [black] /\ Forall isWhite [white])
        \/ (Forall isWhite [black] /\ Forall isBlack [white]) -> s == 1).
Proof.
  apply (differencer_rounded_formula [black] [white]);
    [reflexivity | simpl; lia | simpl; lia
     | repeat constructor; simpl; lia | repeat constructor; simpl; lia].
Defined.

Lemma legacy_refinement_rounded_witness :
  exists legacy frames,
    Doubles.Legacy.extractFrames lessonVideo 3 = Return legacy
    /\ Doubles.extractFrames lessonVideo (optionsOf manual 3 (round (15 # 100)))
       = Return frames
    /\ map Legacy.timestamp legacy
       = map timestamp (Doubles.generateEqualIntervals (duration lessonVideo) 3)
    /\ map f_timestamp frames = map Legacy.timestamp legacy
    /\ map f_dataUrl frames = map Legacy.dataUrl legacy
    /\ ((3 <= 2 ^ 32)%Z ->
        pow2 (-1022) * (inject_Z 3 + 1) <= duration lessonVideo ->
        Forall2 (within (pow2 (-51)))
                (map Legacy.timestamp legacy)
                (evenTimestamps (duration lessonVideo) 3)).
Proof.
  apply (legacy_refinement_rounded
           lessonVideo (optionsOf manual 3 (round (15 # 100))) 3);
    reflexivity.
Defined.

Lemma scan_seeks_inside_witness :
  (forall i, (0 <= i <= Doubles.totalScans shortVideo)%Z ->
             0 <= Doubles.scanTime shortVideo i
             /\ Doubles.scanTime shortVideo i < duration shortVideo)
  /\ (forall i j, (0 <= i)%Z -> (i < j)%Z ->
                  (j <= Doubles.totalScans shortVideo)%Z ->
                  Doubles.scanTime shortVideo i < Doubles.scanTime shortVideo j).
Proof.
  apply (scan_seeks_inside shortVideo); vm_compute; discriminate.
Defined.

Lemma differencer_symmetric_witness :
  exists s,
    Doubles.calculateFrameDifference (raster [black]) (raster [white])
    = Return (Some s)
    /\ Doubles.calculateFrameDifference (raster [white]) (raster [black])
       = Return (Some s).
Proof.
  apply (differencer_symmetric [black] [white]);
    [reflexivity | simpl; lia | simpl; lia
     | repeat constructor; simpl; lia | repeat constructor; simpl; lia].
Defined.


Lemma handler_status_witness :
  Api.status string
    (fst (Api.handler string echoParse emptyObjectModel "no body"
                      (Some "key"%string) optionsRequest))
  = 200%Z
  /\ Api.payload string
       (fst (Api.handler string echoParse emptyObjectModel "no body"
                         (Some "key"%string) optionsRequest))
     = Api.NoBody string.
Proof.
  destruct (handler_status string echoParse emptyObjectModel "no body"
                           (Some "key"%string) optionsRequest)
    as (_ & H & _).
  apply H. reflexivity.
Defined.

Lemma handler_guards_model_witness :
  Api.status string
    (fst (Api.handler string echoParse emptyObjectModel "no body"
                      (Some "key"%string) postRequest))
  = 200%Z
  /\ exists request text,
      snd (Api.handler string echoParse emptyObjectModel "no body"
                       (Some "key"%string) postRequest) = [request]
      /\ emptyObjectModel request = Api.Responds text
      /\ echoParse (match text with
                    | Some (String t ts) => String t ts
                    | _ => "{}"%string
                    end) = inr "{}"%string.
Proof.
  destruct (handler_guards_model string echoParse emptyObjectModel "no body"
                                 (Some "key"%string) postRequest)
    as (_ & _ & H).
  apply (H "{}"%string). reflexivity.
Defined.

Lemma processVideo_all_or_nothing_witness :
  Untyped.App.error
    (fst (fst (Untyped.App.processVideo Cases.emptyAnalysis Cases.fixedId
                                        Cases.uncheckedState)))
  = Some App.failureMessage
  /\ length (snd (Untyped.App.processVideo Cases.emptyAnalysis Cases.fixedId
                                           Cases.uncheckedState)) = 1%nat.
Proof.
  destruct (processVideo_all_or_nothing Cases.emptyAnalysis Cases.fixedId
                                        Cases.uncheckedState) as (_ & H).
  destruct (H Cases.lessonFile eq_refl)
    as (_ & _ & _ & _ & _ & _ & _ & _ & _ & _ & Hl).
  cbv zeta in Hl.
  destruct (snd (Untyped.App.processVideo Cases.emptyAnalysis Cases.fixedId
                                          Cases.uncheckedState))
    as [|c after] eqn:E; [vm_compute in E; discriminate|].
  destruct (Hl [] c after _ eq_refl eq_refl eq_refl) as (-> & Hfail).
  split; [|reflexivity].
  destruct (Doubles.extractFrames (App.video Cases.lessonFile)
                                  (Untyped.App.optionsOf Cases.uncheckedState))
    as [frames|e] eqn:Ex; [|vm_compute in Ex; discriminate].
  apply (Hfail frames eq_refl).
  apply (f_equal (fun r => match r with Return fs => length fs | Throw _ => 0%nat end))
    in Ex.
  vm_compute in Ex. change (3 = length frames)%nat in Ex.
  rewrite <- Ex. cbn. lia.
Defined.
